(** * The CI dashboard of github-shared-workflows: data pipeline

    A shallow embedding of the JavaScript that turns GitHub API payloads
    into the dashboard's in-memory model, and of the jq selection made by
    the static data generator:

    - [Detail]    : dashboard/repo-detail.js (v5.0, static data)
    - [App]       : app.js (v2.0, live API with static fallback)
    - [Engine3]   : the v3.0 engine with the categorisation table
    - [Generator] : generate-dashboard-data.sh (the jq run selection)

    JavaScript values are dynamically typed; they are embedded as one
    inductive type [JsVal], objects as finite maps from property names to
    their own properties.  What an object inherits from its prototype is
    modelled where the code indexes an object by a name taken from the
    data: the [__proto__] accessor in the annotation parser, the
    properties of [Object.prototype] in the tallies of the insight
    panels and in the lookup of the detail page.  Exceptions are
    explicit ([Exc]); a [try]/[catch] is a match on the outcome.  The
    network and the clock are oracles of the environment. *)

From stdpp Require Import gmap strings list fin_maps sorting.
From Stdlib Require Import Ascii QArith Qround Qabs Lqa DecimalString.
From Stdlib Require PrimFloat SpecFloat FloatOps Uint63.

Set Warnings "-register-all,-clear-no-such-hyp".
#[local] Open Scope Z_scope.
#[local] Open Scope stdpp_scope.

(** ** JavaScript values *)

Module Js.

(** Numbers reaching this code from the GitHub payloads (ids, run
    numbers, counts) are integers; the one place where the program does
    fractional arithmetic, the pass rate, has its own number interface
    below. *)
Inductive JsVal : Type :=
| JUndefined
| JNull
| JBool (b : bool)
| JNum (n : Z)
| JStr (s : string)
| JArr (l : list JsVal)
| JObj (o : gmap string JsVal).

Abbreviation Obj := (gmap string JsVal).

Inductive JsError : Type := TypeError | FetchError.

(** Outcome of an evaluation that may throw. *)
Inductive Exc (A : Type) : Type :=
| Ok (a : A)
| Throw (e : JsError).
Arguments Ok {A} a.
Arguments Throw {A} e.

#[export] Instance Exc_ret : MRet Exc := λ A a, Ok a.
#[export] Instance Exc_bind : MBind Exc := λ A B f x,
  match x with
  | Ok a => f a
  | Throw e => Throw e
  end.

(** [try { body } catch (_) { handler }] *)
Definition try_catch {A} (body : Exc A) (handler : JsError → Exc A) : Exc A :=
  match body with
  | Ok a => Ok a
  | Throw e => handler e
  end.

Fixpoint mapM {A B} (f : A → Exc B) (l : list A) : Exc (list B) :=
  match l with
  | [] => Ok []
  | x :: xs =>
      match f x with
      | Throw e => Throw e
      | Ok y =>
          match mapM f xs with
          | Throw e => Throw e
          | Ok ys => Ok (y :: ys)
          end
      end
  end.

(** ToBoolean *)
Definition truthy (v : JsVal) : bool :=
  match v with
  | JUndefined | JNull => false
  | JBool b => b
  | JNum n => negb (n =? 0)
  | JStr s => negb (String.eqb s "")
  | JArr _ | JObj _ => true
  end.

(** [a || b] and [a && b] on already evaluated operands. *)
Definition or (a b : JsVal) : JsVal := if truthy a then a else b.
Definition and (a b : JsVal) : JsVal := if truthy a then b else a.

(** [o.k] on an object: a missing property reads as [undefined]. *)
Definition getp (o : Obj) (k : string) : JsVal := default JUndefined (o !! k).

(** The named properties of an arbitrary value, as [v.k] sees them for
    the names this program reads (none of which is [length] or a
    prototype method): [null] and [undefined] throw, an object gives
    its own properties, every other value has none of them. *)
Definition props (v : JsVal) : Exc Obj :=
  match v with
  | JUndefined | JNull => Throw TypeError
  | JObj o => Ok o
  | _ => Ok ∅
  end.

(** [v.k] *)
Definition member (v : JsVal) (k : string) : Exc JsVal :=
  o ← props v; Ok (getp o k).

(** [v?.k] *)
Definition opt_member (v : JsVal) (k : string) : JsVal :=
  match v with
  | JObj o => getp o k
  | _ => JUndefined
  end.

(** [v === "s"] against a string literal *)
Definition is_str (v : JsVal) (s : string) : bool :=
  match v with
  | JStr t => String.eqb t s
  | _ => false
  end.

(** [v.map(f)], the callback receiving the element and its index: only
    arrays have [map]; JSON data holds no functions, so every other
    receiver throws a TypeError. *)
Definition array_map {B} (f : nat → JsVal → Exc B) (v : JsVal) : Exc (list B) :=
  match v with
  | JArr l => mapM (λ ix, f ix.1 ix.2) (zip (seq 0 (length l)) l)
  | _ => Throw TypeError
  end.

(** An object literal [{ k1: v1, k2: v2, ... }] with distinct keys. *)
Definition obj (fields : list (string * JsVal)) : Obj := list_to_map fields.

(** ToString, on the part of its domain this development needs: a
    number is an integer of magnitude below 1e21, which is printed as a
    plain decimal numeral (from 1e21 on JavaScript writes an exponent),
    and an object has no own [toString] or [valueOf] property (with one
    the conversion can throw).  It is used in two places only: where a
    value is matched against a word of the patterns, which a numeral
    in either notation cannot match, and to print the small integers
    of a duration or an age.  It is not used to turn a name into a
    property key. *)
Fixpoint toString (v : JsVal) : string :=
  match v with
  | JUndefined => "undefined"
  | JNull => "null"
  | JBool true => "true"
  | JBool false => "false"
  | JNum n => NilZero.string_of_int (Z.to_int n)
  | JStr s => s
  | JObj _ => "[object Object]"
  | JArr l =>
      String.concat ","
        (map (λ x, match x with
                   | JUndefined | JNull => ""
                   | _ => toString x
                   end) l)
  end.

End Js.

Export Js.

(** ** JavaScript strings

    Strings are sequences of 8-bit code units (U+0000 to U+00FF). *)

Module Str.

Definition code (c : ascii) : N := Ascii.N_of_ascii c.

(** WhiteSpace and LineTerminator code units below U+0100, as removed by
    [String.prototype.trim]: TAB, LF, VT, FF, CR, SP and NBSP. *)
Definition is_ws (c : ascii) : bool :=
  let n := code c in
  ((9 <=? n) && (n <=? 13) || (n =? 32) || (n =? 160))%N.

Fixpoint trimStart (s : string) : string :=
  match s with
  | "" => ""
  | String c s' => if is_ws c then trimStart s' else s
  end.

Fixpoint trimEnd (s : string) : string :=
  match s with
  | "" => ""
  | String c s' =>
      match trimEnd s' with
      | "" => if is_ws c then "" else String c ""
      | t => String c t
      end
  end.

(** [s.trim()] *)
Definition trim (s : string) : string := trimEnd (trimStart s).

(** [s.toLowerCase()] on one code unit: A-Z, and the Latin-1 capitals
    U+00C0-U+00DE except the multiplication sign U+00D7. *)
Definition lower_char (c : ascii) : ascii :=
  let n := code c in
  if ((65 <=? n) && (n <=? 90) || (192 <=? n) && (n <=? 222) && negb (n =? 215))%N
  then Ascii.ascii_of_N (n + 32) else c.

Fixpoint toLowerCase (s : string) : string :=
  match s with
  | "" => ""
  | String c s' => String (lower_char c) (toLowerCase s')
  end.

(** Case folding of a regular expression with the [i] flag and no [u]
    flag, for a pattern made of ASCII letters: only A-Z and a-z are
    identified. *)
Definition fold_char (c : ascii) : ascii :=
  let n := code c in
  if ((65 <=? n) && (n <=? 90))%N then Ascii.ascii_of_N (n + 32) else c.

Fixpoint foldCase (s : string) : string :=
  match s with
  | "" => ""
  | String c s' => String (fold_char c) (foldCase s')
  end.

(** [s.includes(needle)] *)
Fixpoint includes (s needle : string) : bool :=
  String.prefix needle s ||
  match s with
  | "" => false
  | String _ s' => includes s' needle
  end.

(** [s.split(sep)] for a one-character separator: never empty. *)
Fixpoint split (sep : ascii) (s : string) : list string :=
  match s with
  | "" => [""]
  | String c s' =>
      let ps := split sep s' in
      if Ascii.eqb c sep then "" :: ps
      else String c (hd "" ps) :: tl ps
  end.

(** [parts.join(sep)] *)
Fixpoint join (sep : ascii) (parts : list string) : string :=
  match parts with
  | [] => ""
  | [p] => p
  | p :: ps => p +:+ String sep (join sep ps)
  end.

(** The character [c] does not occur in [s]. *)
Fixpoint free_of (c : ascii) (s : string) : bool :=
  match s with
  | "" => true
  | String d s' => negb (Ascii.eqb d c) && free_of c s'
  end.

(** The number of occurrences of [c] in [s]. *)
Fixpoint count (c : ascii) (s : string) : nat :=
  match s with
  | "" => 0%nat
  | String d s' => ((if Ascii.eqb d c then 1 else 0) + count c s')%nat
  end.

(** Code units below U+0080. *)
Definition is_ascii7 (c : ascii) : bool :=
  match c with Ascii _ _ _ _ _ _ _ b7 => negb b7 end.

Fixpoint ascii7 (s : string) : bool :=
  match s with
  | "" => true
  | String c s' => is_ascii7 c && ascii7 s'
  end.

(** Decimal numeral of a natural number, as [String(n)] prints it. *)
Definition of_nat (n : nat) : string := NilZero.string_of_uint (Nat.to_uint n).

End Str.

(** ** dashboard/repo-detail.js *)

Module Detail.

(** [const [k, v] = part.split('=')]: the first two pieces; a missing
    second piece is [undefined], modelled by [None]. *)
Definition destructure2 (pieces : list string) : option string * option string :=
  (pieces !! 0%nat, pieces !! 1%nat).

(** [obj[key] = value] on an object created by [{}], for a value that
    is a string.  The name [__proto__] is the accessor of
    [Object.prototype]: its setter ignores a string and nothing is
    stored.  Under every other name the value becomes an own
    property. *)
Definition assign (obj : Obj) (key : string) (value : JsVal) : Obj :=
  if String.eqb key "__proto__" then obj else <[key := value]> obj.

(** The body of the [forEach] callback of [parseKeyVal]:
    [if (k && v !== undefined) obj[k.trim()] = v.trim();] *)
Definition parseKeyVal_step (obj : Obj) (part : string) : Obj :=
  match destructure2 (Str.split "="%char part) with
  | (Some k, Some v) =>
      if truthy (JStr k) then assign obj (Str.trim k) (JStr (Str.trim v)) else obj
  | _ => obj
  end.

(** [(str || '').split('|')]: [split] exists on strings only. *)
Definition split_bar (v : JsVal) : Exc (list string) :=
  match v with
  | JStr s => Ok (Str.split "|"%char s)
  | _ => Throw TypeError
  end.

(** [function parseKeyVal(str)] *)
Definition parseKeyVal (str : JsVal) : Exc Obj :=
  parts ← split_bar (or str (JStr ""));
  Ok (foldl parseKeyVal_step ∅ parts).

(** [const ciRuns = staticData.runs.filter(r => { ... })] in
    [loadDetail]: the lower-cased name; [toLowerCase] exists on strings
    only. *)
Definition lower_name (name : JsVal) : Exc string :=
  match or name (JStr "") with
  | JStr s => Ok (Str.toLowerCase s)
  | _ => Throw TypeError
  end.

(** The callback of that filter: [true] keeps the run. *)
Definition keepCiRun (r : Obj) : Exc bool :=
  name ← lower_name (getp r "name");
  if Str.includes name "release" then Ok false
  else if Str.includes name "copilot" then Ok false
  else if is_str (getp r "event") "dynamic" then Ok false
  else Ok true.

(** [/pat/i.test(v)] for a lower-case ASCII pattern. *)
Definition test_i (pat : string) (v : JsVal) : bool :=
  Str.includes (Str.foldCase (toString v)) pat.

(** [jobs.find(j => /pat/i.test(j.name))] *)
Definition findJob (pat : string) (jobs : list Obj) : option Obj :=
  List.find (λ j, test_i pat (getp j "name")) jobs.

(** The three lookups at the head of [renderDetail]. *)
Definition lintJob := findJob "lint".
Definition testJob := findJob "test".
Definition secJob := findJob "security".

(** [lintJob?.conclusion || 'unknown'] *)
Definition jobConclusion (j : option Obj) : JsVal :=
  or (from_option (λ o, getp o "conclusion") JUndefined j) (JStr "unknown").

End Detail.

(** ** generate-dashboard-data.sh: the jq program building RUNS *)

Module Generator.

(** [.k] on an object: a missing key reads as [null]. *)
Definition field (o : Obj) (k : string) : JsVal := default JNull (o !! k).

(** [a // b]: [b] when [a] is [null] or [false]. *)
Definition alt (a b : JsVal) : JsVal :=
  match a with
  | JNull | JUndefined | JBool false => b
  | _ => a
  end.

(** [select((.name // "" | ascii_downcase | contains("copilot") | not)
    and (.event != "dynamic"))]: [ascii_downcase] fails on anything but
    a string. [true] keeps the run. *)
Definition selectRun (run : Obj) : Exc bool :=
  match alt (field run "name") (JStr "") with
  | JStr s =>
      Ok (negb (Str.includes (Str.foldCase s) "copilot")
          && negb (is_str (field run "event") "dynamic"))
  | _ => Throw TypeError
  end.

(** [actor: (.actor // .triggering_actor // null
      | if . then {login: .login, avatar_url: .avatar_url} else null end)] *)
Definition actor (run : Obj) : Exc JsVal :=
  match alt (field run "actor") (alt (field run "triggering_actor") JNull) with
  | JNull | JUndefined | JBool false => Ok JNull
  | JObj a => Ok (JObj (obj [("login", field a "login");
                             ("avatar_url", field a "avatar_url")]))
  | _ => Throw TypeError
  end.

End Generator.

(** ** Numbers of the pass rate

    [(successful / totalRuns) * 100] is arithmetic on IEEE-754 doubles and
    [toFixed(1)] rounds the exact value of the double it is given.  The
    program is written once over an interface of the operations it uses;
    [num_val] gives the exact rational value of a number. *)

Class JsNumber : Type := {
  num : Type;
  num_of_nat : nat → num;
  num_div : num → num → num;
  num_mul : num → num → num;
  num_val : num → Q
}.

Module Num.

(** Unit roundoff of binary64. *)
Definition u : Q := 1 # (2 ^ 53).

(** Bounds of the range of normal binary64 numbers used below. *)
Definition tiny : Q := 1 # (2 ^ 1022).
Definition huge : Q := inject_Z (2 ^ 1023).

Definition in_range (q : Q) : Prop :=
  (q == 0 ∨ (tiny <= Qabs q ∧ Qabs q <= huge))%Q.

(** What IEEE-754 round-to-nearest guarantees of the three operations:
    integers up to 2^53 are represented exactly, and a quotient or a
    product whose exact value is zero or lies in the normal range is
    returned with a relative error of at most [u]. *)
Class Binary64 (N : JsNumber) : Prop := {
  of_nat_exact : ∀ n : nat,
    (Z.of_nat n <= 2 ^ 53)%Z → (num_val (num_of_nat n) == inject_Z (Z.of_nat n))%Q;
  div_rounded : ∀ a b : num,
    (¬ num_val b == 0)%Q → in_range (num_val a / num_val b) →
    (Qabs (num_val (num_div a b) - num_val a / num_val b)
     <= u * Qabs (num_val a / num_val b))%Q;
  mul_rounded : ∀ a b : num,
    in_range (num_val a * num_val b) →
    (Qabs (num_val (num_mul a b) - num_val a * num_val b)
     <= u * Qabs (num_val a * num_val b))%Q
}.

(** Exact rational arithmetic: the idealised numbers. *)
Definition exact : JsNumber := {|
  num := Q;
  num_of_nat := λ n, inject_Z (Z.of_nat n);
  num_div := Qdiv;
  num_mul := Qmult;
  num_val := λ q, q
|}.

(** The exact value of a finite double. *)
Definition float_val (x : PrimFloat.float) : Q :=
  match FloatOps.Prim2SF x with
  | SpecFloat.S754_finite negative mantissa exponent =>
      ((if negative then -1 else 1) * inject_Z (Z.pos mantissa) * 2 ^ exponent)%Q
  | _ => 0%Q
  end.

(** The doubles of the machine. *)
Definition binary64 : JsNumber := {|
  num := PrimFloat.float;
  num_of_nat := λ n, PrimFloat.of_uint63 (Uint63.of_Z (Z.of_nat n));
  num_div := PrimFloat.div;
  num_mul := PrimFloat.mul;
  num_val := float_val
|}.

(** The digits of [x.toFixed(1)] for [0 <= x < 1e21]: the integer [n]
    for which [n / 10 - x] is as close to zero as possible, the larger
    one if there are two. *)
Definition tenths (x : Q) : Z := Qfloor (x * 10 + (1 # 2)).

(** [n] tenths printed with one fractional digit. *)
Definition show_tenths (n : Z) : string :=
  Str.of_nat (Z.to_nat (n / 10)) +:+ "." +:+ Str.of_nat (Z.to_nat (n mod 10)).

(** [x.toFixed(1)] *)
Definition toFixed1 `{JsNumber} (x : num) : string :=
  show_tenths (tenths (num_val x)).

End Num.

(** ** app.js (v2.0) *)

Module App.

(** [new Date().toISOString()]: a string that is never empty. *)
Record Iso := { iso_head : ascii; iso_tail : string }.
Definition iso (t : Iso) : JsVal := JStr (String (iso_head t) (iso_tail t)).

(** The two clock readings one call of [normalizeRun] can take. *)
Record Clock := { now_created : Iso; now_updated : Iso }.

(** [function normalizeRun(run)] on the properties of [run]. *)
Definition normalizeRun (clk : Clock) (run : Obj) : Obj :=
  obj [
    ("id",             getp run "id");
    ("name",           or (getp run "name") (or (getp run "workflow_name") (JStr "unknown")));
    ("status",         or (getp run "status") (JStr "completed"));
    ("conclusion",     or (getp run "conclusion") (JStr "unknown"));
    ("html_url",       or (getp run "html_url") (JStr "#"));
    ("created_at",     or (getp run "created_at") (or (getp run "updated_at") (iso (now_created clk))));
    ("updated_at",     or (getp run "updated_at") (or (getp run "created_at") (iso (now_updated clk))));
    ("head_branch",    or (getp run "head_branch") (JStr "main"));
    ("head_sha",       or (getp run "head_sha") (JStr ""));
    ("event",          or (getp run "event") (JStr "push"));
    ("run_number",     or (getp run "run_number") (JNum 0));
    ("actor",          or (getp run "actor") (or (getp run "triggering_actor") JNull));
    ("run_started_at", or (getp run "run_started_at") (getp run "created_at"))
  ].

(** [normalizeRun(run)] for an arbitrary argument: reading a property of
    [null] or [undefined] throws. *)
Definition normalizeRun_call (clk : Clock) (run : JsVal) : Exc Obj :=
  o ← props run; Ok (normalizeRun clk o).

(** An entry of [manifest.repos]. *)
Record Repo := { name : string; details : Obj }.

Definition repo_value (r : Repo) : JsVal :=
  JObj (<["name" := JStr (name r)]> (details r)).

(** manifest.json, read once by [init]. *)
Record Manifest := {
  owner : string;
  repos : list Repo;
  maxRunsPerRepo : option nat;
  dataPath : option string
}.

(** What [fetchRepoData] returns, and what [refresh] stores in
    [repoData]. *)
Record Snapshot := {
  runs : list Obj;
  conclusion : JsVal;
  totalCount : option JsVal;
  isStatic : bool;
  error : bool
}.

(** The world during one refresh cycle: what [fetchJSON(url)] does, and
    the clock readings available while the run at index [i] of the
    answer to [url] is normalised. *)
Record Env := {
  fetchJSON : string → Exc JsVal;
  clock : string → nat → Clock
}.

Definition GITHUB_API : string := "https://api.github.com".

(** [manifest.maxRunsPerRepo || 20] *)
Definition maxRuns (m : Manifest) : nat :=
  match maxRunsPerRepo m with
  | Some (S n) => S n
  | _ => 20
  end.

(** [manifest.dataPath || 'data'] *)
Definition dataDir (m : Manifest) : string :=
  match dataPath m with
  | Some (String c s) => String c s
  | _ => "data"
  end.

Definition apiUrl (m : Manifest) (repo : Repo) : string :=
  GITHUB_API +:+ "/repos/" +:+ owner m +:+ "/" +:+ name repo
  +:+ "/actions/runs?per_page=" +:+ Str.of_nat (maxRuns m) +:+ "&status=completed".

Definition staticUrl (m : Manifest) (repo : Repo) : string :=
  dataDir m +:+ "/" +:+ name repo +:+ ".json".

(** The body of the first [try] of [fetchRepoData]; [None] when it falls
    through to the code after the [try]. *)
Definition tryApi (env : Env) (m : Manifest) (repo : Repo) : Exc (option Snapshot) :=
  let url := apiUrl m repo in
  data ← fetchJSON env url;
  workflow_runs ← (if truthy data then member data "workflow_runs" else Ok data);
  if truthy workflow_runs then
    runs ← array_map (λ i r, normalizeRun_call (clock env url i) r) workflow_runs;
    let latestConclusion :=
      match runs with
      | r0 :: _ => getp r0 "conclusion"
      | [] => JStr "unknown"
      end in
    total_count ← member data "total_count";
    Ok (Some {| runs := runs;
                conclusion := latestConclusion;
                totalCount := Some (or total_count (JNum (Z.of_nat (length runs))));
                isStatic := false;
                error := false |})
  else Ok None.

(** The body of the second [try]. *)
Definition tryStatic (env : Env) (m : Manifest) (repo : Repo) : Exc (option Snapshot) :=
  let url := staticUrl m repo in
  staticData ← fetchJSON env url;
  raw ← (if truthy staticData then member staticData "runs" else Ok staticData);
  if truthy raw then
    runs ← array_map (λ i r, normalizeRun_call (clock env url i) r) raw;
    let first := match raw with JArr (r0 :: _) => r0 | _ => JUndefined end in
    Ok (Some {| runs := runs;
                conclusion := or (opt_member first "conclusion") (JStr "unknown");
                totalCount := Some (JNum (Z.of_nat (length runs)));
                isStatic := true;
                error := false |})
  else Ok None.

(** [async function fetchRepoData(repo)]: the outcome is the fate of the
    promise, [Ok None] being a promise fulfilled with [null]. *)
Definition fetchRepoData (env : Env) (m : Manifest) (repo : Repo) : Exc (option Snapshot) :=
  fromApi ← try_catch (tryApi env m repo) (λ _, Ok None);
  match fromApi with
  | Some s => Ok (Some s)
  | None =>
      fromStatic ← try_catch (tryStatic env m repo) (λ _, Ok None);
      match fromStatic with
      | Some s => Ok (Some s)
      | None => Ok None
      end
  end.

(** [{ runs: [], conclusion: 'unknown', error: true }] *)
Definition errorSnapshot : Snapshot :=
  {| runs := []; conclusion := JStr "unknown"; totalCount := None;
     isStatic := false; error := true |}.

(** The module-level variables [allRuns] and [repoData]. *)
Record State := { allRuns : list Obj; repoData : gmap string Snapshot }.

(** The callback of [results.forEach((result, idx) => ...)]. *)
Definition recordResult (st : State) (entry : Repo * Exc (option Snapshot)) : State :=
  let '(repo, result) := entry in
  let key := name repo in
  match result with
  | Ok (Some value) =>
      {| repoData := <[key := value]> (repoData st);
         allRuns := allRuns st ++ map (λ r, <["_repo" := repo_value repo]> r) (runs value) |}
  | _ =>
      {| repoData := <[key := errorSnapshot]> (repoData st);
         allRuns := allRuns st |}
  end.

(** [refresh], from [const repos = manifest.repos || []] to the end of
    [results.forEach]: every promise is awaited with
    [Promise.allSettled], then the results are recorded in manifest
    order.  On these types nothing in that part can throw, so the
    [catch] of [refresh] with its cache fallback is not entered.  The
    [isLoading] guard, the sort of [allRuns] by date, the cache write
    and the rendering that follow are not part of the model. *)
Definition refresh (env : Env) (m : Manifest) : State :=
  let results := map (fetchRepoData env m) (repos m) in
  foldl recordResult {| allRuns := []; repoData := ∅ |} (zip (repos m) results).

(** [r.conclusion === 'success'] *)
Definition isSuccess (r : Obj) : bool := is_str (getp r "conclusion") "success".

(** [successful] and [passRate] of [renderSummary]. *)
Definition successful (allRuns : list Obj) : nat := length (filter (λ r, isSuccess r = true) allRuns).

Definition passRate `{JsNumber} (allRuns : list Obj) : JsVal :=
  let totalRuns := length allRuns in
  if (0 <? totalRuns)%nat
  then JStr (Num.toFixed1
               (num_mul (num_div (num_of_nat (successful allRuns)) (num_of_nat totalRuns))
                        (num_of_nat 100)))
  else JNum 0.

(** The loop of [computeStreak]: [streak++] on a success, [break]
    otherwise. *)
Fixpoint streakLoop (streak : nat) (runs : list Obj) : nat :=
  match runs with
  | [] => streak
  | run :: rest => if isSuccess run then streakLoop (S streak) rest else streak
  end.

(** [function computeStreak()] over the global [allRuns]. *)
Definition computeStreak (allRuns : list Obj) : nat := streakLoop 0 allRuns.

End App.

(** ** The v3.0 engine: categorisation *)

Module Engine3.

(** [CATEGORIES]: key and patterns, in the order of the table. *)
Definition CATEGORIES : list (string * list string) :=
  [ ("lint",     ["lint"]);
    ("test",     ["test"]);
    ("security", ["security"; "scan"; "sast"; "trivy"; "vuln"]);
    ("release",  ["release"]) ].

(** [(name || '').toLowerCase()] *)
Definition lower (name : JsVal) : Exc string := Detail.lower_name name.

(** [pattern.test(lower)] for [/pat/i] *)
Definition test (pat lower : string) : bool := Str.includes (Str.foldCase lower) pat.

(** The two nested loops of [classifyName]: the key of the first
    category one of whose patterns matches, [None] for [null]. *)
Definition classifyLower (lower : string) : option string :=
  fst <$> List.find (λ cat, existsb (λ pat, test pat lower) cat.2) CATEGORIES.

(** [function classifyName(name)] *)
Definition classifyName (name : JsVal) : Exc (option string) :=
  l ← lower name; Ok (classifyLower l).

(** [function normalizeRun(run)] of this version. *)
Definition normalizeRun (clk : App.Clock) (run : Obj) : Obj :=
  obj [
    ("id",             getp run "id");
    ("name",           or (getp run "name") (or (getp run "workflow_name") (JStr "unknown")));
    ("status",         or (getp run "status") (JStr "completed"));
    ("conclusion",     or (getp run "conclusion")
                          (if is_str (getp run "status") "completed"
                           then JStr "unknown" else JStr "in_progress"));
    ("html_url",       or (getp run "html_url") (JStr "#"));
    ("created_at",     or (getp run "created_at") (App.iso (App.now_created clk)));
    ("updated_at",     or (getp run "updated_at") (or (getp run "created_at") (App.iso (App.now_updated clk))));
    ("head_branch",    or (getp run "head_branch") (JStr "main"));
    ("head_sha",       or (getp run "head_sha") (JStr ""));
    ("event",          or (getp run "event") (JStr "push"));
    ("run_number",     or (getp run "run_number") (JNum 0));
    ("actor",          or (getp run "actor") (or (getp run "triggering_actor") JNull));
    ("run_started_at", or (getp run "run_started_at") (getp run "created_at"))
  ].

End Engine3.

(** ** Reference definitions, written from the specification *)

Module Spec.

(** A segment of an annotation message: [key=value], or text without
    any [=]. *)
Inductive Segment : Type :=
| KeyVal (k v : string)
| Bare (s : string).

Definition is_keyval (seg : Segment) : bool :=
  match seg with KeyVal _ _ => true | Bare _ => false end.

Definition plain (s : string) : bool :=
  Str.free_of "="%char s && Str.free_of "|"%char s.

(** Keys are not empty, and neither delimiter occurs inside a key, a
    value or a bare segment. *)
Definition well_formed (seg : Segment) : bool :=
  match seg with
  | KeyVal k v => negb (String.eqb k "") && plain k && plain v
  | Bare s => plain s
  end.

Definition show (seg : Segment) : string :=
  match seg with
  | KeyVal k v => k +:+ "=" +:+ v
  | Bare s => s
  end.

(** The message [seg1|seg2|...]. *)
Definition message (segs : list Segment) : string :=
  Str.join "|"%char (show <$> segs).

(** The mapping from trimmed key to trimmed value, later segments
    overwriting earlier ones, bare segments contributing nothing. *)
Definition mapping (segs : list Segment) : Obj :=
  foldl (λ m seg, match seg with
                  | KeyVal k v => <[Str.trim k := JStr (Str.trim v)]> m
                  | Bare _ => m
                  end) ∅ segs.

(** The segments that can leave an entry: all but the [key=value]
    segments whose trimmed key is [__proto__]. *)
Definition storable (seg : Segment) : bool :=
  match seg with
  | KeyVal k _ => negb (String.eqb (Str.trim k) "__proto__")
  | Bare _ => true
  end.

Definition stored_segments (segs : list Segment) : list Segment :=
  List.filter storable segs.

(** The trimmed keys of the segments. *)
Definition keys (segs : list Segment) : list string :=
  omap (λ seg, match seg with
               | KeyVal k _ => Some (Str.trim k)
               | Bare _ => None
               end) segs.

(** The segments before the first one without [=]. *)
Fixpoint before_first_bare (segs : list Segment) : list Segment :=
  match segs with
  | KeyVal k v :: rest => KeyVal k v :: before_first_bare rest
  | _ => []
  end.

(** A valid [key=value|key=value] string: every segment is a well-formed
    [key=value]. *)
Definition valid (segs : list Segment) : bool :=
  forallb (λ seg, is_keyval seg && well_formed seg) segs.

(** [{login, avatar_url}] of an actor, [null] when there is none. *)
Definition only_login_avatar (actor : JsVal) : JsVal :=
  match actor with
  | JObj a => JObj (obj [("login", getp a "login"); ("avatar_url", getp a "avatar_url")])
  | _ => JNull
  end.

Definition absent (run : Obj) (k : string) : Prop := truthy (getp run k) = false.
Definition present (run : Obj) (k : string) : Prop := truthy (getp run k) = true.

(** The default policy of the normaliser, field by field; [out] is the
    normalised run. *)
Definition default_policy (run out : Obj) : Prop :=
  (absent run "name" → absent run "workflow_name" → getp out "name" = JStr "unknown")
  ∧ (absent run "status" → getp out "status" = JStr "completed")
  ∧ (absent run "conclusion" →
     getp out "conclusion"
     = if is_str (getp out "status") "completed" then JStr "unknown" else JStr "in_progress")
  ∧ (absent run "head_branch" → getp out "head_branch" = JStr "main")
  ∧ (absent run "event" → getp out "event" = JStr "push")
  ∧ (absent run "run_number" → getp out "run_number" = JNum 0)
  ∧ (absent run "updated_at" → present run "created_at" →
     getp out "updated_at" = getp run "created_at")
  ∧ (absent run "run_started_at" → present run "created_at" →
     getp out "run_started_at" = getp run "created_at")
  ∧ getp out "actor"
    = only_login_avatar (or (getp run "actor") (or (getp run "triggering_actor") JNull)).

(** The ingestion filter: a run is excluded when its name contains
    "copilot" in any letter case, or when its event is "dynamic". *)
Definition excluded (run : Obj) : bool :=
  Str.includes (Str.foldCase (toString (getp run "name"))) "copilot"
  || is_str (getp run "event") "dynamic".

(** The category of a job name by the patterns of the specification,
    each category on its own. *)
Definition contains_ci (name pat : string) : bool :=
  Str.includes (Str.foldCase name) pat.

Definition in_security (name : string) : bool :=
  existsb (contains_ci name) ["security"; "scan"; "sast"; "trivy"; "vuln"].
Definition in_test (name : string) : bool := contains_ci name "test".
Definition in_lint (name : string) : bool := contains_ci name "lint".
Definition in_release (name : string) : bool := contains_ci name "release".

(** The buckets of the four jobs of the categorisation scenario. *)
Definition scenario_buckets : list (option string) :=
  [Some "lint"; Some "test"; Some "security"; None].

(** What the dashboard holds for a repository once its promise has
    settled. *)
Definition stored (result : Exc (option App.Snapshot)) : App.Snapshot :=
  match result with
  | Ok (Some value) => value
  | _ => App.errorSnapshot
  end.

(** Two worlds answer a request in the same way. *)
Definition same_answer (env env' : App.Env) (url : string) : Prop :=
  App.fetchJSON env url = App.fetchJSON env' url
  ∧ ∀ i, App.clock env url i = App.clock env' url i.


(** The value of a decimal digit. *)
Definition digit (c : ascii) : option Z :=
  let n := Z.of_N (Ascii.N_of_ascii c) in
  if (48 <=? n) && (n <=? 57) then Some (n - 48) else None.

(** The digits up to the point, read from the left: the number they
    denote, and the text after the point. *)
Fixpoint read_whole (acc : Z) (s : string) : option (Z * string) :=
  match s with
  | "" => None
  | String c rest =>
      if Ascii.eqb c "."%char then Some (acc, rest)
      else d ← digit c; read_whole (10 * acc + d) rest
  end.

(** The number of tenths a text denotes when it is a numeral with one
    decimal: one or more digits without a leading zero (a single 0
    below one), a point, one digit.  No other text denotes anything, so
    a number of tenths has one numeral. *)
Definition read_fixed1 (txt : string) : option Z :=
  match txt with
  | "" => None
  | String c rest =>
      if Ascii.eqb c "."%char then None
      else if Ascii.eqb c "0"%char && negb (String.prefix "." rest) then None
      else
        match read_whole 0 txt with
        | Some (whole, String d "") => f ← digit d; Some (10 * whole + f)
        | _ => None
        end
  end.

(** The first [success] prefix: [runs = streak ++ rest], every run of
    [streak] a success and [rest] empty or headed by another outcome. *)
Definition is_streak (runs streak rest : list Obj) : Prop :=
  runs = streak ++ rest
  ∧ Forall (λ r, getp r "conclusion" = JStr "success") streak
  ∧ match rest with
    | [] => True
    | r :: _ => getp r "conclusion" ≠ JStr "success"
    end.

End Spec.

(** ** Sample data *)

Module Sample.

Definition stamp : App.Iso :=
  {| App.iso_head := "2"; App.iso_tail := "026-11-03T09:30:00.000Z" |}.

Definition later : App.Iso :=
  {| App.iso_head := "2"; App.iso_tail := "026-11-03T09:35:00.000Z" |}.

Definition clock : App.Clock := {| App.now_created := stamp; App.now_updated := stamp |}.
Definition clock' : App.Clock := {| App.now_created := later; App.now_updated := later |}.

(** An actor as the GitHub API sends it (abridged). *)
Definition octocat : JsVal :=
  JObj (obj [("login", JStr "octocat");
             ("id", JNum 583231);
             ("avatar_url", JStr "https://avatars.githubusercontent.com/u/583231");
             ("type", JStr "User")]).

(** A run still in progress: no conclusion yet. *)
Definition running : Obj :=
  obj [("id", JNum 101); ("name", JStr "CI"); ("status", JStr "in_progress");
       ("conclusion", JNull); ("created_at", JStr "2026-11-03T09:00:00Z");
       ("actor", octocat)].

(** A run object carrying neither [created_at] nor [run_started_at]. *)
Definition undated : Obj :=
  obj [("id", JNum 7); ("name", JStr "CI"); ("conclusion", JStr "success")].

Definition dated : Obj :=
  obj [("id", JNum 8); ("created_at", JStr "2026-11-03T09:00:00Z")].

(** Runs of the aggregate list, by conclusion. *)
Definition concluded (c : string) : Obj := obj [("conclusion", JStr c)].
Definition success : Obj := concluded "success".
Definition failure : Obj := concluded "failure".

(** A run of GitHub's Copilot agent, as the runs API lists it. *)
Definition copilot_run : Obj :=
  obj [("id", JNum 202); ("name", JStr "Copilot code review");
       ("status", JStr "completed"); ("conclusion", JStr "success");
       ("event", JStr "dynamic"); ("created_at", JStr "2026-11-03T08:00:00Z")].

Definition ci_run : Obj :=
  obj [("id", JNum 201); ("name", JStr "CI");
       ("status", JStr "completed"); ("conclusion", JStr "failure");
       ("event", JStr "push"); ("created_at", JStr "2026-11-03T07:00:00Z")].

Definition alpha : App.Repo := {| App.name := "alpha"; App.details := ∅ |}.
Definition beta : App.Repo := {| App.name := "beta"; App.details := ∅ |}.

Definition manifest : App.Manifest :=
  {| App.owner := "acme"; App.repos := [alpha; beta];
     App.maxRunsPerRepo := None; App.dataPath := None |}.

Definition beta_api : string :=
  "https://api.github.com/repos/acme/beta/actions/runs?per_page=20&status=completed".

(** Every request fails, except the live API request for [beta], which
    answers with two runs. *)
Definition world : App.Env :=
  {| App.fetchJSON := λ url,
       if String.eqb url beta_api
       then Ok (JObj (obj [("total_count", JNum 2);
                           ("workflow_runs", JArr [JObj copilot_run; JObj ci_run])]))
       else Throw FetchError;
     App.clock := λ _ _, clock |}.

(** The jobs of the categorisation scenario. *)
Definition job (n : string) : Obj := obj [("name", JStr n); ("conclusion", JStr "success")].
Definition jobs : list Obj :=
  [job "Run Lint"; job "Unit Test Suite"; job "Trivy Scan"; job "Deploy Release"].

End Sample.

(** ** app.js: the remaining counts of [renderSummary] *)

Module Summary.

(** [r.conclusion === 'failure'] *)
Definition isFailure (r : Obj) : bool := is_str (getp r "conclusion") "failure".

(** [allRuns.filter(r => r.conclusion === 'failure').length] *)
Definition failed (allRuns : list Obj) : nat :=
  length (filter (λ r, isFailure r = true) allRuns).

(** [repoData[r.name]?.conclusion === 'success'] *)
Definition isHealthy (repoData : gmap string App.Snapshot) (repo : App.Repo) : bool :=
  is_str (from_option App.conclusion JUndefined (repoData !! App.name repo)) "success".

(** [repos.filter(r => repoData[r.name]?.conclusion === 'success').length] *)
Definition healthyRepos (m : App.Manifest) (repoData : gmap string App.Snapshot) : nat :=
  length (filter (λ r, isHealthy repoData r = true) (App.repos m)).

(** The detail line of the "Healthy Repos" card. *)
Definition healthDetail (m : App.Manifest) (repoData : gmap string App.Snapshot) : string :=
  if (healthyRepos m repoData =? length (App.repos m))%nat
  then "all passing"
  else Str.of_nat (length (App.repos m) - healthyRepos m repoData) +:+ " need attention".

End Summary.

(** ** app.js: durations and relative times

    Time values are integers (milliseconds since the epoch); [None] is
    the NaN of an invalid date.  The arithmetic of the two functions is
    integer arithmetic on doubles, exact below 2^53. *)

Module Dates.

(** What the page gets from [Date]: the time value of [new Date(v)],
    the reading of [Date.now()], and the text of
    [new Date(v).toLocaleDateString('en-US', {month: 'short', day: 'numeric'})]. *)
Record Calendar := {
  timeValue : JsVal → option Z;
  now : Z;
  localeDate : JsVal → string
}.

(** [`${n}`] for a number that is an integer or NaN. *)
Definition show (n : option Z) : string :=
  match n with
  | Some z => toString (JNum z)
  | None => "NaN"
  end.

(** [function computeDuration(start, end)]; [None] is the placeholder
    '—' (U+2014) the function returns when there is no duration. *)
Definition computeDuration (cal : Calendar) (start end_ : JsVal) : option string :=
  if negb (truthy start) || negb (truthy end_) then None
  else
    match timeValue cal end_, timeValue cal start with
    | Some te, Some ts =>
        let ms := te - ts in
        if ms <? 0 then None
        else
          let secs := ms / 1000 in
          if secs <? 60 then Some (show (Some secs) +:+ "s")
          else
            let mins := secs / 60 in
            let remSecs := secs mod 60 in
            if mins <? 60 then Some (show (Some mins) +:+ "m " +:+ show (Some remSecs) +:+ "s")
            else
              let hrs := mins / 60 in
              let remMins := mins mod 60 in
              Some (show (Some hrs) +:+ "h " +:+ show (Some remMins) +:+ "m")
    | _, _ =>
        (* ms is NaN: every comparison is false *)
        Some (show None +:+ "h " +:+ show None +:+ "m")
    end.

Definition MIN : Z := 60 * 1000.
Definition HOUR : Z := 60 * MIN.
Definition DAY : Z := 24 * HOUR.

(** [function relativeTime(dateStr)]; [None] is the placeholder '—'. *)
Definition relativeTime (cal : Calendar) (dateStr : JsVal) : option string :=
  if negb (truthy dateStr) then None
  else
    match timeValue cal dateStr with
    | Some then_ =>
        let diff := now cal - then_ in
        if diff <? MIN then Some "just now"
        else if diff <? HOUR then Some (show (Some (diff / MIN)) +:+ "m ago")
        else if diff <? DAY then Some (show (Some (diff / HOUR)) +:+ "h ago")
        else if diff <? 7 * DAY then Some (show (Some (diff / DAY)) +:+ "d ago")
        else Some (localeDate cal dateStr)
    | None => Some (localeDate cal dateStr)
    end.

End Dates.

(** ** Shapes kept by the data *)

Module Shape.

(** The fields of a run that are never empty once it is normalised. *)
Definition always_set : list string :=
  ["name"; "status"; "conclusion"; "html_url"; "created_at"; "updated_at";
   "head_branch"; "event"].

Definition populated (out : Obj) : Prop :=
  Forall (λ k, truthy (getp out k) = true) always_set.

(** The object is a result of [normalizeRun]. *)
Definition normalised (out : Obj) : Prop :=
  ∃ clk o, out = App.normalizeRun clk o.

(** The conclusion of the first run, "unknown" without runs. *)
Definition head_conclusion (runs : list Obj) : JsVal :=
  match runs with
  | r :: _ => getp r "conclusion"
  | [] => JStr "unknown"
  end.

Definition snapshot_ok (s : App.Snapshot) : Prop :=
  App.error s = false
  ∧ App.conclusion s = head_conclusion (App.runs s)
  ∧ is_Some (App.totalCount s)
  ∧ Forall normalised (App.runs s).

(** A string that neither begins nor ends with white space. *)
Definition starts_ws (s : string) : bool :=
  match s with
  | String c _ => Str.is_ws c
  | "" => false
  end.

Fixpoint ends_ws (s : string) : bool :=
  match s with
  | "" => false
  | String c "" => Str.is_ws c
  | String _ s' => ends_ws s'
  end.

Definition trimmed (s : string) : bool := negb (starts_ws s) && negb (ends_ws s).

(** A text as [parseKeyVal] stores it: trimmed and without the two
    separators. *)
Definition clean (t : string) : bool :=
  trimmed t && Str.free_of "|"%char t && Str.free_of "="%char t.

(** The runs one settled promise adds to [allRuns]. *)
Definition contribution (repo : App.Repo) (result : Exc (option App.Snapshot)) : list Obj :=
  match result with
  | Ok (Some value) => (λ r, <["_repo" := App.repo_value repo]> r) <$> App.runs value
  | _ => []
  end.

End Shape.

(** ** app.js: the insight panels

    The tallies are objects created by [{}] and indexed by names taken
    from the data, so the properties inherited from [Object.prototype]
    matter here: [counts[name]] finds the inherited value for a name such
    as "constructor" or "__proto__".  An object is the list of its own
    properties in creation order.  The names are modelled when they are
    strings; a panel fed a name of another type has no model ([None]). *)

Module Insights.

(** The property names of [Object.prototype] in the host whose value
    is truthy (its methods, and [__proto__]), and those among them that
    are accessors, so that an assignment through an object creates no
    own property ([__proto__], whose setter ignores a number). *)
Record Host := { inherited : gset string; setters : gset string }.

(** [o[k]] among the own properties. *)
Fixpoint own {V} (o : list (string * V)) (k : string) : option V :=
  match o with
  | [] => None
  | (k', v) :: o' => if String.eqb k' k then Some v else own o' k
  end.

(** [o[k] = v]: an existing property keeps its place, a new one is
    created last. *)
Fixpoint put {V} (k : string) (v : V) (o : list (string * V)) : list (string * V) :=
  match o with
  | [] => [(k, v)]
  | (k', v') :: o' =>
      if String.eqb k' k then (k', v) :: o' else (k', v') :: put k v o'
  end.

(** A property name that is an array index: the canonical decimal
    numeral of an integer below 2^32 - 1. *)
Definition index_of (k : string) : option N :=
  match NilZero.uint_of_string k with
  | Some d =>
      let n := N.of_uint d in
      if String.eqb (NilZero.string_of_uint (N.to_uint n)) k && (n <=? 4294967294)%N
      then Some n else None
  | None => None
  end.

(** A stable sort: [x] goes before the first [y] with [le x y]. *)
Fixpoint insert_by {A} (le : A → A → bool) (x : A) (l : list A) : list A :=
  match l with
  | [] => [x]
  | y :: l' => if le x y then x :: l else y :: insert_by le x l'
  end.

Definition sort_by {A} (le : A → A → bool) (l : list A) : list A :=
  foldr (insert_by le) [] l.

(** [Object.entries(o)]: array indices in ascending order, then the
    other names in creation order. *)
Definition entries {V} (o : list (string * V)) : list (string * V) :=
  sort_by (λ a b, (default 0 (index_of a.1) <=? default 0 (index_of b.1))%N)
          (List.filter (λ e, bool_decide (is_Some (index_of e.1))) o)
  ++ List.filter (λ e, negb (bool_decide (is_Some (index_of e.1)))) o.

(** [rows.sort((a, b) => w(b) - w(a))]: descending, ties in the order
    they had (Array.prototype.sort is stable). *)
Definition sort_desc {A} (w : A → nat) (l : list A) : list A :=
  sort_by (λ x y, (w y <=? w x)%nat) l.

(** [{ total, success }] *)
Record Tally := { total : nat; success : nat }.

(** [if (!counts[name]) counts[name] = { total: 0, success: 0 };
     counts[name].total++;
     if (run.conclusion === 'success') counts[name].success++;]
    on the value read at [name]. *)
Definition bump (ok : bool) (c : option Tally) : Tally :=
  let c0 := default {| total := 0; success := 0 |} c in
  {| total := S (total c0); success := if ok then S (success c0) else success c0 |}.

(** The property key of a name.  Only strings are modelled: the key of
    a number (written with an exponent from 1e21 on) and the key of an
    array or an object (whose conversion to a string can throw) are left
    out, [None]. *)
Definition key_of (v : JsVal) : option string :=
  match v with
  | JStr s => Some s
  | _ => None
  end.

(** [if (!counts[name]) counts[name] = { total: 0, success: 0 };
     counts[name].total++;
     if (run.conclusion === 'success') counts[name].success++;]
    for a property key [name].  Under an inherited name [counts[name]]
    is the inherited function or object: it is truthy, the increments go
    to it, and [counts] gets no property. *)
Definition count_at (h : Host) (name : string) (ok : bool)
    (counts : list (string * Tally)) : list (string * Tally) :=
  if decide (name ∈ inherited h) then counts
  else put name (bump ok (own counts name)) counts.

(** The callback of [allRuns.forEach] in [renderLangBreakdown] and
    [renderWorkflowBreakdown], for the name [key run]; [None] when that
    name is not a string. *)
Definition count_step (h : Host) (key : Obj → option string)
    (counts : list (string * Tally)) (run : Obj) : option (list (string * Tally)) :=
  name ← key run; Some (count_at h name (App.isSuccess run) counts).

(** [allRuns.forEach(...)] on the empty tally. *)
Definition tally (h : Host) (key : Obj → option string) (allRuns : list Obj) :
    option (list (string * Tally)) :=
  foldl (λ acc run, counts ← acc; count_step h key counts run) (Some []) allRuns.

(** [run.name || 'Unknown'] as a property name. *)
Definition wfName (run : Obj) : option string :=
  key_of (or (getp run "name") (JStr "Unknown")).

(** [const repo = run._repo || {}; repo.language || 'Unknown'] as a
    property name; the left operand of [.language] is truthy, so reading
    it never throws. *)
Definition langName (run : Obj) : option string :=
  let repo := or (getp run "_repo") (JObj ∅) in
  key_of (or (opt_member repo "language") (JStr "Unknown")).

(** The run is counted in a row: its name is a string that is not
    inherited. *)
Definition counted (h : Host) (key : Obj → option string) (run : Obj) : bool :=
  match key run with
  | Some name => bool_decide (name ∉ inherited h)
  | None => false
  end.

(** [Math.max(...Object.values(counts).map(c => c.total), 1)] *)
Definition maxTotal (counts : list (string * Tally)) : nat :=
  foldr Nat.max 1%nat ((λ e, total e.2) <$> entries counts).

(** The rows of [renderWorkflowBreakdown] and of [renderLangBreakdown],
    in the order they are written. *)
Definition workflowRows (h : Host) (allRuns : list Obj) : option (list (string * Tally)) :=
  counts ← tally h wfName allRuns;
  Some (sort_desc (λ e, total e.2) (entries counts)).

Definition langRows (h : Host) (allRuns : list Obj) : option (list (string * Tally)) :=
  counts ← tally h langName allRuns;
  Some (sort_desc (λ e, total e.2) (entries counts)).

(** [{ count, avatar }] *)
Record Author := { count : nat; avatar : JsVal }.

(** [run.actor?.login] *)
Definition loginOf (run : Obj) : JsVal := opt_member (getp run "actor") "login".

(** [if (!authors[login]) authors[login] = { count: 0, avatar: run.actor.avatar_url || '' };
     authors[login].count++;]
    for a property key that is not inherited. *)
Definition credit (key : string) (run : Obj) (authors : list (string * Author)) :
    list (string * Author) :=
  match own authors key with
  | Some a => put key {| count := S (count a); avatar := avatar a |} authors
  | None =>
      put key {| count := 1;
                 avatar := or (opt_member (getp run "actor") "avatar_url") (JStr "") |}
          authors
  end.

(** The callback of [allRuns.forEach] in [renderAuthorBreakdown];
    [None] when the login is truthy and not a string.  Under an
    inherited name the increment goes to the inherited value. *)
Definition authorStep (h : Host) (authors : list (string * Author)) (run : Obj) :
    option (list (string * Author)) :=
  let login := loginOf run in
  if negb (truthy login) then Some authors
  else
    key ← key_of login;
    Some (if decide (key ∈ inherited h) then authors else credit key run authors).

(** The rows of [renderAuthorBreakdown]; without rows the panel reads
    "No contributor data". *)
Definition authorRows (h : Host) (allRuns : list Obj) : option (list (string * Author)) :=
  authors ← foldl (λ acc run, authors ← acc; authorStep h authors run) (Some []) allRuns;
  Some (take 5 (sort_desc (λ e, count e.2) (entries authors))).

(** The name under which [renderAuthorBreakdown] counts a run, if it
    counts it. *)
Definition credited (h : Host) (run : Obj) : option string :=
  let login := loginOf run in
  if truthy login
  then key ← key_of login; if decide (key ∈ inherited h) then None else Some key
  else None.

(** [run.head_branch || 'unknown'] as a property name. *)
Definition branchName (run : Obj) : option string :=
  key_of (or (getp run "head_branch") (JStr "unknown")).

(** [if (!branches[branch]) branches[branch] = 0; branches[branch]++;]
    for a property key [branch].  The counts are numbers, [None] being
    NaN.  Under an inherited name the value read is a function or an
    object: it is truthy, [++] turns it into NaN and stores that in
    [branches], unless the name is an accessor.  A stored NaN is falsy
    and is replaced by 0 at the next run of that branch. *)
Definition branch_at (h : Host) (branch : string) (branches : list (string * option nat)) :
    list (string * option nat) :=
  match own branches branch with
  | Some (Some (S n)) => put branch (Some (S (S n))) branches
  | Some _ => put branch (Some 1%nat) branches
  | None =>
      if decide (branch ∈ inherited h)
      then if decide (branch ∈ setters h) then branches else put branch None branches
      else put branch (Some 1%nat) branches
  end.

(** The callback of [allRuns.forEach] in [renderBranchBreakdown];
    [None] when the branch name is not a string. *)
Definition branchStep (h : Host) (branches : list (string * option nat)) (run : Obj) :
    option (list (string * option nat)) :=
  branch ← branchName run; Some (branch_at h branch branches).

(** The counts as numbers, when none of them is NaN. *)
Fixpoint numbers (es : list (string * option nat)) : option (list (string * nat)) :=
  match es with
  | [] => Some []
  | (k, Some n) :: es' => option_map (cons (k, n)) (numbers es')
  | (_, None) :: _ => None
  end.

(** The rows of [renderBranchBreakdown].  [None]: a branch name is not
    a string, or one of the counts is NaN; the comparator
    [(a, b) => b[1] - a[1]] then answers NaN, what [sort] makes of it
    depends on the host, and the rows are not modelled. *)
Definition branchRows (h : Host) (allRuns : list Obj) : option (list (string * nat)) :=
  branches ← foldl (λ acc run, branches ← acc; branchStep h branches run) (Some []) allRuns;
  es ← numbers (entries branches);
  Some (take 6 (sort_desc snd es)).

End Insights.

(** ** app.js: the times of a table row and of a timeline item *)

Module Rows.

(** [run.run_started_at || run.created_at] *)
Definition start (run : Obj) : JsVal :=
  or (getp run "run_started_at") (getp run "created_at").

(** [computeDuration(run.run_started_at || run.created_at, run.updated_at)]
    in [renderRunTable] and [renderTimeline]. *)
Definition duration (cal : Dates.Calendar) (run : Obj) : option string :=
  Dates.computeDuration cal (start run) (getp run "updated_at").

(** [relativeTime(run.created_at)] *)
Definition timeAgo (cal : Dates.Calendar) (run : Obj) : option string :=
  Dates.relativeTime cal (getp run "created_at").

End Rows.

(** ** dashboard/repo-detail.js: [loadDetail]

    The page is given by the answers of [fetchJSON] and by the value of
    the [repo] parameter of its address.  Two things are left to the
    world: which names find a method on the prototype of a value (they
    matter where the page indexes a value by the repository name), and
    the rest of [renderDetail] besides its reads of the statistics: the
    conversions of values to text and the writes to the document, which
    come last and may throw. *)

Module DetailPage.

Record World := {
  fetchJSON : string → Exc JsVal;
  methods : JsVal → gset string;
  paint : JsVal → JsVal → list JsVal → JsVal → list JsVal → Exc ()
}.

Definition DATA_PATH : string := "data".

Definition manifestUrl : string := "manifest.json".
Definition combinedUrl : string := DATA_PATH +:+ "/dashboard-data.json".
Definition repoUrl (repoName : string) : string := DATA_PATH +:+ "/" +:+ repoName +:+ ".json".

(** [a === b] for two values read from parsed JSON at different places:
    two objects or two arrays are never the same object. *)
Definition strict_eq (a b : JsVal) : bool :=
  match a, b with
  | JUndefined, JUndefined | JNull, JNull => true
  | JBool x, JBool y => Bool.eqb x y
  | JNum x, JNum y => x =? y
  | JStr x, JStr y => String.eqb x y
  | _, _ => false
  end.

(** The receiver of [.find] and [.filter]: only arrays have them. *)
Definition elements (v : JsVal) : Exc (list JsVal) :=
  match v with
  | JArr l => Ok l
  | _ => Throw TypeError
  end.

(** [arr.find(f)]: the elements after the first hit are not visited. *)
Fixpoint findM {A} (f : A → Exc bool) (l : list A) : Exc (option A) :=
  match l with
  | [] => Ok None
  | x :: l' => b ← f x; if b : bool then Ok (Some x) else findM f l'
  end.

(** [arr.filter(f)] *)
Fixpoint filterM {A} (f : A → Exc bool) (l : list A) : Exc (list A) :=
  match l with
  | [] => Ok []
  | x :: l' => b ← f x; rest ← filterM f l'; Ok (if b : bool then x :: rest else rest)
  end.

(** A method found on a prototype: a function is truthy and has none of
    the properties this page reads. *)
Definition a_function : JsVal := JObj ∅.

(** [v[k]] for a key computed at run time and [v] neither [null] nor
    [undefined]: own properties (elements, characters, [length]) first,
    then the prototype. *)
Definition computed (w : World) (v : JsVal) (k : string) : JsVal :=
  let inherited := if decide (k ∈ methods w v) then a_function else JUndefined in
  match v with
  | JObj o => default inherited (o !! k)
  | JArr l =>
      if String.eqb k "length" then JNum (Z.of_nat (length l))
      else match Insights.index_of k with
           | Some i => default JUndefined (l !! N.to_nat i)
           | None => inherited
           end
  | JStr s =>
      if String.eqb k "length" then JNum (Z.of_nat (String.length s))
      else match Insights.index_of k with
           | Some i => from_option (λ c, JStr (String c "")) JUndefined
                                   (String.get (N.to_nat i) s)
           | None => inherited
           end
  | _ => inherited
  end.

(** [v.length] *)
Definition lengthOf (v : JsVal) : JsVal :=
  match v with
  | JArr l => JNum (Z.of_nat (length l))
  | JStr s => JNum (Z.of_nat (String.length s))
  | JObj o => getp o "length"
  | _ => JUndefined
  end.

(** The first [try]: [combined?.repos?.[repoName]], kept when truthy;
    [null] otherwise. *)
Definition fromCombined (w : World) (repoName : string) : JsVal :=
  match fetchJSON w combinedUrl with
  | Ok combined =>
      let entry :=
        match opt_member combined "repos" with
        | JUndefined | JNull => JUndefined
        | repos => computed w repos repoName
        end in
      if truthy entry then entry else JNull
  | Throw _ => JNull
  end.

(** [staticData] after the two [try] blocks. *)
Definition staticDataOf (w : World) (repoName : string) : JsVal :=
  let staticData := fromCombined w repoName in
  if negb (truthy staticData)
  then match fetchJSON w (repoUrl repoName) with
       | Ok v => v
       | Throw _ => JNull
       end
  else staticData.

(** What the page shows in the end. *)
Inductive Outcome :=
| NoRepo
| NoData
| NoCiRuns
| Failed
| Rendered (repo latestRun : JsVal) (jobs : list JsVal) (stats : JsVal)
           (recentRuns : list JsVal).

(** [staticData.ciStats || { lint: {}, test: {}, security: {} }] *)
Definition statsOf (staticData : JsVal) : JsVal :=
  or (opt_member staticData "ciStats")
     (JObj (obj [("lint", JObj ∅); ("test", JObj ∅); ("security", JObj ∅)])).

(** The callback of the [ciRuns] filter on an element of
    [staticData.runs]. *)
Definition keepRun (r : JsVal) : Exc bool := o ← props r; Detail.keepCiRun o.

(** [function renderDetail(repo, latestRun, jobs, stats, recentRuns)]:
    [stats.lint.errors], [stats.test.total] and [stats.security.sast]
    are read before anything is written; whichever part throws, nothing
    has been written and the exception reaches [loadDetail]. *)
Definition renderDetail (w : World) (repo latestRun : JsVal) (jobs : list JsVal)
    (stats : JsVal) (recentRuns : list JsVal) : Exc Outcome :=
  _ ← props (opt_member stats "lint");
  _ ← props (opt_member stats "test");
  _ ← props (opt_member stats "security");
  _ ← paint w repo latestRun jobs stats recentRuns;
  Ok (Rendered repo latestRun jobs stats recentRuns).

(** The body of the [try] of [loadDetail]. *)
Definition body (w : World) (repoName : string) : Exc Outcome :=
  manifest ← fetchJSON w manifestUrl;
  repos ← member manifest "repos";
  list ← elements (or repos (JArr []));
  repoConfig ← findM (λ r, name ← member r "name"; Ok (is_str name repoName)) list;
  match repoConfig with
  | None => Ok Failed (* throw new Error('Repo not found in manifest') *)
  | Some repoConfig =>
      let staticData := staticDataOf w repoName in
      let runs := opt_member staticData "runs" in
      if negb (truthy staticData) || negb (truthy runs) || strict_eq (lengthOf runs) (JNum 0)
      then Ok NoData
      else
        rs ← elements runs;
        ciRuns ← filterM keepRun rs;
        match ciRuns with
        | [] => Ok NoCiRuns
        | latestRun :: _ =>
            if negb (truthy latestRun) then Ok NoCiRuns
            else
              js ← elements (or (opt_member staticData "jobs") (JArr []));
              jobs ← filterM (λ j, run_id ← member j "run_id";
                                   Ok (strict_eq run_id (opt_member latestRun "id"))) js;
              renderDetail w repoConfig latestRun jobs (statsOf staticData) (take 10 ciRuns)
        end
  end.

(** [async function loadDetail()], for the value of
    [params.get('repo')]. *)
Definition loadDetail (w : World) (param : option string) : Outcome :=
  match param with
  | None | Some "" => NoRepo
  | Some repoName =>
      match body w repoName with
      | Ok outcome => outcome
      | Throw _ => Failed
      end
  end.

End DetailPage.

(** ** Sample data for the insight panels and the detail page *)

Module Fixtures.

(** The property names of [Object.prototype] in a browser. *)
Definition browser : Insights.Host :=
  {| Insights.inherited :=
       list_to_set
         ["constructor"; "hasOwnProperty"; "isPrototypeOf"; "propertyIsEnumerable";
          "toLocaleString"; "toString"; "valueOf"; "__proto__";
          "__defineGetter__"; "__defineSetter__"; "__lookupGetter__"; "__lookupSetter__"];
     Insights.setters := {["__proto__"]} |}.

Definition by_ (login avatar_url : string) : JsVal :=
  JObj (obj [("login", JStr login); ("avatar_url", JStr avatar_url)]).

Definition run_of (name conclusion language : string) (actor : JsVal) : Obj :=
  obj [("name", JStr name); ("conclusion", JStr conclusion); ("actor", actor);
       ("_repo", JObj (obj [("name", JStr "alpha"); ("language", JStr language)]))].

Definition runs : list Obj :=
  [run_of "CI" "success" "Go" (by_ "octocat" "a.png");
   run_of "constructor" "success" "Go" (by_ "constructor" "c.png");
   run_of "Release" "failure" "Rust" JNull;
   run_of "CI" "failure" "Go" (by_ "octocat" "b.png")].

Definition pushes : list Obj :=
  [obj [("head_branch", JStr "main")]; obj [("head_branch", JStr "dev")];
   obj [("head_branch", JStr "42")]; obj [("head_branch", JStr "main")]].

(** A detail page without the combined file. *)
Definition alpha_json : JsVal :=
  JObj (obj [
    ("runs", JArr [
       JObj (obj [("id", JNum 13); ("name", JStr "Release"); ("event", JStr "push")]);
       JObj (obj [("id", JNum 12); ("name", JStr "CI"); ("event", JStr "push")]);
       JObj (obj [("id", JNum 11); ("name", JStr "CI"); ("event", JStr "push")])]);
    ("jobs", JArr [
       JObj (obj [("id", JNum 121); ("name", JStr "Lint"); ("run_id", JNum 12)]);
       JObj (obj [("id", JNum 111); ("name", JStr "Lint"); ("run_id", JNum 11)])]);
    ("ciStats", JObj (obj [("lint", JObj (obj [("errors", JStr "3")]));
                           ("test", JObj ∅); ("security", JObj ∅)]))]).

Definition page : DetailPage.World :=
  {| DetailPage.fetchJSON url :=
       if String.eqb url "manifest.json"
       then Ok (JObj (obj [("owner", JStr "octo");
                           ("repos", JArr [JObj (obj [("name", JStr "alpha")])])]))
       else if String.eqb url "data/alpha.json" then Ok alpha_json
       else Throw FetchError;
     DetailPage.methods _ := Insights.inherited browser;
     DetailPage.paint _ _ _ _ _ := Ok () |}.

(** The same page with a combined file that lists the repository
    without runs. *)
Definition page_combined : DetailPage.World :=
  {| DetailPage.fetchJSON url :=
       if String.eqb url "data/dashboard-data.json"
       then Ok (JObj (obj [("repos", JObj (obj [("alpha", JObj (obj [("runs", JArr [])]))]))]))
       else DetailPage.fetchJSON page url;
     DetailPage.methods := DetailPage.methods page;
     DetailPage.paint := DetailPage.paint page |}.

End Fixtures.

(** ** generate-dashboard-data.sh: from RUNS to the latest CI run *)

Module Pipeline.

(** The object the jq program builds for a run it keeps. *)
Definition project (run : Obj) : Exc Obj :=
  a ← Generator.actor run;
  Ok (obj [
    ("id",             Generator.field run "id");
    ("name",           Generator.alt (Generator.field run "name")
                         (Generator.alt (Generator.field run "workflow_name") (JStr "unknown")));
    ("status",         Generator.field run "status");
    ("conclusion",     Generator.field run "conclusion");
    ("html_url",       Generator.field run "html_url");
    ("created_at",     Generator.field run "created_at");
    ("updated_at",     Generator.field run "updated_at");
    ("head_branch",    Generator.field run "head_branch");
    ("head_sha",       Generator.field run "head_sha");
    ("event",          Generator.field run "event");
    ("run_number",     Generator.field run "run_number");
    ("run_started_at", Generator.alt (Generator.field run "run_started_at")
                         (Generator.field run "created_at"));
    ("actor",          a)
  ]).

(** RUNS: [[.workflow_runs[] | select(...) | {...}]], the runs being
    objects; an error on any run aborts the program. *)
Fixpoint RUNS (workflow_runs : list Obj) : Exc (list Obj) :=
  match workflow_runs with
  | [] => Ok []
  | run :: rest =>
      keep ← Generator.selectRun run;
      if keep : bool
      then r ← project run; rs ← RUNS rest; Ok (r :: rs)
      else RUNS rest
  end.

(** [select(.name | ascii_downcase | contains("release") | not)] *)
Definition notRelease (run : Obj) : Exc bool :=
  match Generator.field run "name" with
  | JStr s => Ok (negb (Str.includes (Str.foldCase s) "release"))
  | _ => Throw TypeError
  end.

(** [[.[] | select(...)]] on RUNS *)
Definition ciRuns (runs : list Obj) : Exc (list Obj) :=
  DetailPage.filterM notRelease runs.

(** [.[0].id // empty]: [None] when nothing is printed. *)
Definition firstId (ci : list Obj) : option JsVal :=
  match ci with
  | [] => None
  | r :: _ =>
      match Generator.field r "id" with
      | JNull | JUndefined | JBool false => None
      | v => Some v
      end
  end.

(** LATEST_CI_RUN_ID, the run whose annotations become [ciStats]. *)
Definition LATEST_CI_RUN_ID (runs : list Obj) : Exc (option JsVal) :=
  ci ← ciRuns runs; Ok (firstId ci).

(** CI_RUN_IDS, the runs whose jobs are stored: [.[0:3] | .[].id]. *)
Definition CI_RUN_IDS (runs : list Obj) : Exc (list JsVal) :=
  ci ← ciRuns runs; Ok ((λ r, Generator.field r "id") <$> take 3 ci).

End Pipeline.

(** ** Sample data for the generator *)

Module Listing.

Definition api_runs : list Obj :=
  [obj [("id", JNum 14); ("name", JStr "Copilot code review"); ("event", JStr "dynamic")];
   obj [("id", JNum 13); ("name", JStr "Release"); ("event", JStr "push")];
   obj [("id", JNum 12); ("name", JStr "CI"); ("event", JStr "push");
        ("created_at", JStr "2026-11-03T07:00:00Z")]].

Definition generated : list Obj :=
  match Pipeline.RUNS api_runs with
  | Ok runs => runs
  | Throw _ => []
  end.

End Listing.

(** ** dashboard/app.js (the first dashboard): [timeAgo] *)

Module DashboardV1.

(** [function timeAgo(dateStr)]; the divisions are exact on doubles for
    ages below 2^53 ms; an invalid date gives NaN, for which every
    comparison is false. *)
Definition timeAgo (cal : Dates.Calendar) (dateStr : JsVal) : string :=
  match Dates.timeValue cal dateStr with
  | Some t =>
      let seconds := (Dates.now cal - t) / 1000 in
      if seconds <? 60 then Dates.show (Some seconds) +:+ "s ago"
      else
        let minutes := seconds / 60 in
        if minutes <? 60 then Dates.show (Some minutes) +:+ "m ago"
        else
          let hours := minutes / 60 in
          if hours <? 24 then Dates.show (Some hours) +:+ "h ago"
          else
            let days := hours / 24 in
            Dates.show (Some days) +:+ "d ago"
  | None => Dates.show None +:+ "d ago"
  end.

End DashboardV1.

(** * Properties *)

(** Boolean conjunctions among the hypotheses are taken apart. *)
Ltac bool_hyps :=
  repeat match goal with
         | H : _ && _ = true |- _ => apply andb_true_iff in H as [? ?]
         | H : negb _ = true |- _ => apply negb_true_iff in H
         | H : negb _ = false |- _ => apply negb_false_iff in H
         end.

(** ** Strings *)

Section Strings.

Implicit Types (s t : string) (c : ascii).

Lemma split_nonempty c s : Str.split c s ≠ [].
Proof. destruct s as [|d s]; simpl; [done|]. by destruct (Ascii.eqb d c). Qed.

Lemma split_free c s : Str.free_of c s = true → Str.split c s = [s].
Proof.
  induction s as [|d s IH]; simpl; [done|].
  intros [Hd Hs]%andb_true_iff. apply negb_true_iff in Hd. rewrite Hd.
  by rewrite (IH Hs).
Qed.

Lemma split_app c s t :
  Str.free_of c s = true →
  Str.split c (s +:+ String c t) = s :: Str.split c t.
Proof.
  induction s as [|d s IH]; simpl.
  - intros _. by rewrite Ascii.eqb_refl.
  - intros [Hd Hs]%andb_true_iff. apply negb_true_iff in Hd.
    change (String d s +:+ String c t) with (String d (s +:+ String c t)).
    simpl. rewrite Hd, (IH Hs). done.
Qed.

Lemma split_join c (parts : list string) :
  parts ≠ [] →
  Forall (λ p, Str.free_of c p = true) parts →
  Str.split c (Str.join c parts) = parts.
Proof.
  induction parts as [|p ps IH]; [done|]. intros _ Hall.
  apply Forall_cons in Hall as [Hp Hps].
  destruct ps as [|q ps]; simpl.
  - by apply split_free.
  - rewrite split_app by done. f_equal. by apply IH.
Qed.

Lemma free_of_app c s t :
  Str.free_of c (s +:+ t) = Str.free_of c s && Str.free_of c t.
Proof.
  induction s as [|d s IH]; [done|].
  change (String d s +:+ t) with (String d (s +:+ t)). simpl.
  by rewrite IH, andb_assoc.
Qed.

Lemma eqb_empty_false s : String.eqb s "" = false ↔ s ≠ "".
Proof. by destruct s. Qed.

(** A string with an occurrence of [c] splits at the first one. *)
Lemma first_occurrence c s :
  (1 ≤ Str.count c s)%nat →
  ∃ before after,
    s = before +:+ String c after
    ∧ Str.free_of c before = true
    ∧ Str.count c s = S (Str.count c after).
Proof.
  induction s as [|d s IH]; simpl; [lia|].
  destruct (Ascii.eqb d c) eqn:Hd.
  - intros _. apply Ascii.eqb_eq in Hd as ->. by exists "", s.
  - intros Hs. destruct (IH Hs) as (before & after & -> & Hfree & Hcount).
    exists (String d before), after. simpl. by rewrite Hd, Hfree.
Qed.

Example split_trailing : Str.split "|"%char "a|b|" = ["a"; "b"; ""].
Proof. reflexivity. Qed.

Example split_empty : Str.split "|"%char "" = [""].
Proof. reflexivity. Qed.

Example trim_both_ends :
  Str.trim (String "009"%char "  passed = 48 " +:+ String "010"%char "") = "passed = 48".
Proof. reflexivity. Qed.

Example trim_blank : Str.trim "   " = "".
Proof. reflexivity. Qed.

Example toLowerCase_mixed : Str.toLowerCase "Copilot REVIEW-7" = "copilot review-7".
Proof. reflexivity. Qed.

Example includes_inside :
  Str.includes "unit test suite" "test" = true ∧ Str.includes "deploy" "test" = false.
Proof. split; reflexivity. Qed.

End Strings.

(** ** The annotation parser *)

Section Parser.

Implicit Types (k v s : string) (m : Obj) (segs : list Spec.Segment).

Lemma step_bare m s :
  Str.free_of "="%char s = true → Detail.parseKeyVal_step m s = m.
Proof. intros Hs. unfold Detail.parseKeyVal_step. by rewrite split_free. Qed.

(** A segment with at least one [=]: the key is the text before the
    first [=], the value the text up to the second [=] if there is
    one. *)
Lemma step_keyed m k rest :
  Str.free_of "="%char k = true →
  Detail.parseKeyVal_step m (k +:+ String "="%char rest)
  = if String.eqb k "" then m
    else Detail.assign m (Str.trim k) (JStr (Str.trim (hd "" (Str.split "="%char rest)))).
Proof.
  intros Hk. unfold Detail.parseKeyVal_step. rewrite split_app by done.
  pose proof (split_nonempty "="%char rest) as Hne.
  destruct (Str.split "="%char rest) as [|v vs]; [done|]. simpl.
  by destruct (String.eqb k "").
Qed.

Lemma step_keyval m k v :
  Spec.well_formed (Spec.KeyVal k v) = true →
  Detail.parseKeyVal_step m (Spec.show (Spec.KeyVal k v))
  = Detail.assign m (Str.trim k) (JStr (Str.trim v)).
Proof.
  simpl. unfold Spec.plain. intros Hwf. bool_hyps.
  change (k +:+ "=" +:+ v) with (k +:+ String "="%char v).
  rewrite step_keyed by done.
  destruct (String.eqb k "") eqn:Hk; [done|]. by rewrite split_free.
Qed.

Lemma step_show m seg :
  Spec.well_formed seg = true →
  Detail.parseKeyVal_step m (Spec.show seg)
  = match seg with
    | Spec.KeyVal k v => Detail.assign m (Str.trim k) (JStr (Str.trim v))
    | Spec.Bare _ => m
    end.
Proof.
  destruct seg as [k v|s]; intros Hwf.
  - by apply step_keyval.
  - simpl in *. apply step_bare. unfold Spec.plain in Hwf. by bool_hyps.
Qed.

Lemma show_free_of_bar seg :
  Spec.well_formed seg = true → Str.free_of "|"%char (Spec.show seg) = true.
Proof.
  destruct seg as [k v|s]; simpl; unfold Spec.plain; intros Hwf.
  - bool_hyps.
    change (k +:+ "=" +:+ v) with (k +:+ String "="%char v).
    rewrite free_of_app. simpl.
    by repeat (apply andb_true_iff; split).
  - by bool_hyps.
Qed.

Abbreviation put := (λ (m : Obj) (seg : Spec.Segment),
  match seg with
  | Spec.KeyVal k v => <[Str.trim k := JStr (Str.trim v)]> m
  | Spec.Bare _ => m
  end).

(** The steps of the parser on well-formed segments are the entries of
    the segments that can leave one. *)
Lemma foldl_steps m segs :
  forallb Spec.well_formed segs = true →
  foldl Detail.parseKeyVal_step m (Spec.show <$> segs)
  = foldl put m (Spec.stored_segments segs).
Proof.
  revert m. induction segs as [|seg segs IH]; intros m Hwf; [done|].
  simpl in Hwf. bool_hyps.
  rewrite fmap_cons. cbn [foldl]. rewrite step_show by done.
  unfold Spec.stored_segments. cbn [List.filter]. fold (Spec.stored_segments segs).
  destruct seg as [k v|s]; cbn [Spec.storable].
  - unfold Detail.assign. destruct (String.eqb (Str.trim k) "__proto__"); cbn [negb foldl];
      by apply IH.
  - cbn [foldl]. by apply IH.
Qed.

(** On a string the parser folds its step over the [|]-separated
    parts. *)
Lemma parseKeyVal_string s :
  Detail.parseKeyVal (JStr s)
  = Ok (foldl Detail.parseKeyVal_step ∅ (Str.split "|"%char s)).
Proof. by destruct s. Qed.

Lemma parseKeyVal_falsy (x : JsVal) :
  truthy x = false → Detail.parseKeyVal x = Ok ∅.
Proof. intros Hx. unfold Detail.parseKeyVal, or. by rewrite Hx. Qed.

Lemma parseKeyVal_not_a_string (x : JsVal) :
  truthy x = true → (∀ s, x ≠ JStr s) → Detail.parseKeyVal x = Throw TypeError.
Proof.
  intros Hx Hs. unfold Detail.parseKeyVal, or. rewrite Hx.
  destruct x; try done. by destruct (Hs s).
Qed.

(** The parser on a message made of well-formed segments. *)
Lemma parseKeyVal_message segs :
  forallb Spec.well_formed segs = true →
  Detail.parseKeyVal (JStr (Spec.message segs))
  = Ok (Spec.mapping (Spec.stored_segments segs)).
Proof.
  intros Hwf. rewrite parseKeyVal_string. f_equal.
  unfold Spec.message, Spec.mapping.
  destruct segs as [|seg segs]; [done|].
  rewrite split_join.
  - by apply (foldl_steps ∅ (seg :: segs)).
  - done.
  - apply Forall_fmap, Forall_forall. intros x Hx.
    apply show_free_of_bar. rewrite forallb_forall in Hwf.
    apply Hwf. by apply list_elem_of_In.
Qed.

Lemma stored_segments_all segs :
  Forall (λ seg, ∀ k v, seg = Spec.KeyVal k v → Str.trim k ≠ "__proto__") segs →
  Spec.stored_segments segs = segs.
Proof.
  induction segs as [|seg segs IH]; [done|].
  intros [Hseg Hsegs]%Forall_cons. unfold Spec.stored_segments. cbn [List.filter].
  fold (Spec.stored_segments segs). rewrite (IH Hsegs).
  destruct seg as [k v|s]; [|done]. cbn [Spec.storable].
  specialize (Hseg k v eq_refl). apply String.eqb_neq in Hseg. by rewrite Hseg.
Qed.

Lemma stored_segments_app segs1 segs2 :
  Spec.stored_segments (segs1 ++ segs2)
  = Spec.stored_segments segs1 ++ Spec.stored_segments segs2.
Proof. apply List.filter_app. Qed.

Lemma keys_stored_segments segs :
  list_to_set (Spec.keys (Spec.stored_segments segs))
  = (list_to_set (Spec.keys segs) ∖ {["__proto__"]} : gset string).
Proof.
  induction segs as [|[k v|s] segs IH]; [set_solver| |done].
  unfold Spec.stored_segments. cbn [List.filter Spec.storable].
  fold (Spec.stored_segments segs).
  destruct (String.eqb (Str.trim k) "__proto__") eqn:Hk; cbn [negb].
  - apply String.eqb_eq in Hk. simpl. rewrite IH, Hk. set_solver.
  - apply String.eqb_neq in Hk. simpl. rewrite IH. set_solver.
Qed.

Lemma dom_foldl_put m segs :
  dom (foldl put m segs) = dom m ∪ list_to_set (Spec.keys segs).
Proof.
  revert m. induction segs as [|[k v|s] segs IH]; intros m; simpl.
  - set_solver.
  - rewrite IH, dom_insert_L. set_solver.
  - apply IH.
Qed.

(** Segments with other keys leave the entry of a key alone. *)
Lemma lookup_foldl_put_other m segs key :
  Forall (λ seg, ∀ k v, seg = Spec.KeyVal k v → Str.trim k ≠ key) segs →
  foldl put m segs !! key = m !! key.
Proof.
  revert m. induction segs as [|seg segs IH]; intros m Hall; [done|].
  apply Forall_cons in Hall as [Hseg Hsegs]. simpl. rewrite IH by done.
  destruct seg as [k v|s]; [|done].
  apply lookup_insert_ne. by eapply Hseg.
Qed.

Lemma lookup_foldl_put_last m pre k v post :
  Forall (λ seg, ∀ k' v', seg = Spec.KeyVal k' v' → Str.trim k' ≠ Str.trim k) post →
  foldl put m (pre ++ Spec.KeyVal k v :: post) !! Str.trim k = Some (JStr (Str.trim v)).
Proof.
  intros Hpost. rewrite foldl_app. simpl.
  rewrite lookup_foldl_put_other by done. apply lookup_insert_eq.
Qed.

Lemma stored_segments_Forall (P : Spec.Segment → Prop) segs :
  Forall P segs → Forall P (Spec.stored_segments segs).
Proof.
  intros Hall. apply Forall_forall. intros seg Hin.
  apply list_elem_of_In, List.filter_In in Hin as [Hin _].
  rewrite Forall_forall in Hall. by apply Hall, list_elem_of_In.
Qed.

Lemma valid_well_formed segs :
  Spec.valid segs = true → forallb Spec.well_formed segs = true.
Proof.
  unfold Spec.valid. rewrite !forallb_forall. intros H x Hx.
  specialize (H x Hx). by bool_hyps.
Qed.

Lemma valid_before_first_bare segs :
  Spec.valid segs = true → Spec.before_first_bare segs = segs.
Proof.
  induction segs as [|[k v|s] segs IH]; simpl; [done| |done].
  intros H. bool_hyps. f_equal. by apply IH.
Qed.

End Parser.

(** C2 as written does not hold: [parseKeyVal] is not total on every
    input.  The guard [str || ''] replaces falsy arguments only; a truthy
    argument that is not a string, such as the number 42, has no [split]
    method and the call throws a TypeError. *)
Lemma parseKeyVal_throws_on_number :
  ¬ ∃ m, Detail.parseKeyVal (JNum 42) = Ok m.
Proof. intros [m Hm]. vm_compute in Hm. discriminate Hm. Qed.

(** C2, amended.  For a message [seg1|seg2|...] whose segments are
    [key=value] with a non-empty key, or text without [=] (whitespace
    around the delimiters belongs to the keys, values and texts),
    [parseKeyVal] returns the mapping from trimmed key to trimmed value
    of the segments whose trimmed key is not [__proto__] (such a segment
    stores nothing), so the mapping of all segments when no key is
    [__proto__]; segments without [=] are skipped; a falsy argument (the
    empty string, [null], [undefined]) gives the empty mapping; on every
    string and every falsy argument the function returns without
    throwing; on every truthy argument that is not a string it throws a
    TypeError.  "errors=3|files=12" gives {errors: "3", files: "12"} and
    "bad" gives {}. *)
Theorem parseKeyVal_contract (segs : list Spec.Segment) :
  forallb Spec.well_formed segs = true →
  Detail.parseKeyVal (JStr (Spec.message segs))
  = Ok (Spec.mapping (Spec.stored_segments segs))
  ∧ (Forall (λ seg, ∀ k v, seg = Spec.KeyVal k v → Str.trim k ≠ "__proto__") segs →
     Detail.parseKeyVal (JStr (Spec.message segs)) = Ok (Spec.mapping segs))
  ∧ (∀ s : string, ∃ m, Detail.parseKeyVal (JStr s) = Ok m)
  ∧ (∀ x : JsVal, truthy x = false → Detail.parseKeyVal x = Ok ∅)
  ∧ (∀ x : JsVal, truthy x = true → (∀ s, x ≠ JStr s) →
     Detail.parseKeyVal x = Throw TypeError)
  ∧ Detail.parseKeyVal (JStr "errors=3|files=12")
    = Ok (<["errors" := JStr "3"]> (<["files" := JStr "12"]> ∅))
  ∧ Detail.parseKeyVal (JStr "bad") = Ok ∅.
Proof.
  intros Hwf. split; [by apply parseKeyVal_message|].
  split; [intros Hall; rewrite parseKeyVal_message by done;
          by rewrite stored_segments_all|].
  split; [intros s; rewrite parseKeyVal_string; eauto|].
  split; [apply parseKeyVal_falsy|].
  split; [apply parseKeyVal_not_a_string|].
  split; by vm_compute.
Qed.

Lemma parseKeyVal_contract_witness :
  Detail.parseKeyVal (JStr " errors = 3 |junk|__proto__=x| errors =4")
  = Ok (<["errors" := JStr "4"]> ∅).
Proof.
  pose proof (parseKeyVal_contract
                [Spec.KeyVal " errors " " 3 "; Spec.Bare "junk";
                 Spec.KeyVal "__proto__" "x"; Spec.KeyVal " errors " "4"]
                eq_refl) as [H _].
  vm_compute in H. vm_compute. exact H.
Defined.

Example parseKeyVal_proto_key :
  Detail.parseKeyVal (JStr "__proto__=x|a=1") = Ok (<["a" := JStr "1"]> ∅).
Proof. by vm_compute. Qed.

(** C9 as written does not hold: the parser does not stop at the first
    segment without [=].  In "a=1|bad|b=2" the key before that segment
    is [a], and the parser returns the keys [a] and [b]. *)
Lemma parseKeyVal_goes_on_after_bare :
  ¬ ∀ segs : list Spec.Segment,
      forallb Spec.well_formed segs = true →
      ∃ m : Obj,
        Detail.parseKeyVal (JStr (Spec.message segs)) = Ok m
        ∧ dom m = list_to_set (Spec.keys (Spec.before_first_bare segs)).
Proof.
  intros H.
  destruct (H [Spec.KeyVal "a" "1"; Spec.Bare "bad"; Spec.KeyVal "b" "2"] eq_refl)
    as (m & Hm & Hdom).
  vm_compute in Hm. injection Hm as <-.
  assert (Hb : "b" ∈ dom (<["a" := JStr "1"]> (<["b" := JStr "2"]> (∅ : Obj))))
    by set_solver.
  assert (Hdom' : dom (<["a" := JStr "1"]> (<["b" := JStr "2"]> (∅ : Obj)))
                  = list_to_set (Spec.keys (Spec.before_first_bare
                      [Spec.KeyVal "a" "1"; Spec.Bare "bad"; Spec.KeyVal "b" "2"])))
    by exact Hdom.
  rewrite Hdom' in Hb. simpl in Hb. set_solver.
Qed.

(** C9, amended.  For a message whose segments are [key=value] with a
    non-empty key, or text without [=], the parser returns a mapping
    whose key set is the set of the (trimmed) keys of all the
    [key=value] segments, before and after any segment without [=],
    except the key [__proto__], which is never stored; and the entry of
    a key holds the (trimmed) value of the last segment with that
    key. *)
Theorem parseKeyVal_keys_last_wins (segs : list Spec.Segment) :
  forallb Spec.well_formed segs = true →
  ∃ m : Obj,
    Detail.parseKeyVal (JStr (Spec.message segs)) = Ok m
    ∧ dom m = list_to_set (Spec.keys segs) ∖ {["__proto__"]}
    ∧ ∀ pre k v post,
        segs = pre ++ Spec.KeyVal k v :: post →
        Str.trim k ≠ "__proto__" →
        Forall (λ seg, ∀ k' v', seg = Spec.KeyVal k' v' → Str.trim k' ≠ Str.trim k) post →
        m !! Str.trim k = Some (JStr (Str.trim v)).
Proof.
  intros Hwf. exists (Spec.mapping (Spec.stored_segments segs)).
  split; [by apply parseKeyVal_message|].
  split.
  - unfold Spec.mapping. rewrite dom_foldl_put, keys_stored_segments. set_solver.
  - intros pre k v post -> Hk Hpost. rewrite stored_segments_app.
    unfold Spec.stored_segments at 2. cbn [List.filter Spec.storable].
    apply String.eqb_neq in Hk. rewrite Hk. cbn [negb].
    apply lookup_foldl_put_last. by apply stored_segments_Forall.
Qed.

Lemma parseKeyVal_keys_last_wins_witness :
  ∃ m : Obj,
    Detail.parseKeyVal (JStr "a=1|bad|b=2|a=3") = Ok m
    ∧ dom m = ({["a"; "b"]} : gset string)
    ∧ m !! "a" = Some (JStr "3").
Proof.
  destruct (parseKeyVal_keys_last_wins
              [Spec.KeyVal "a" "1"; Spec.Bare "bad"; Spec.KeyVal "b" "2"; Spec.KeyVal "a" "3"]
              eq_refl)
    as (m & Hm & Hdom & Hlast).
  exists m. split; [exact Hm|]. split.
  - rewrite Hdom. vm_compute. reflexivity.
  - apply (Hlast [Spec.KeyVal "a" "1"; Spec.Bare "bad"; Spec.KeyVal "b" "2"] "a" "3" []);
      [reflexivity|discriminate|constructor].
Defined.

(** On a valid string, one without a segment lacking [=], the keys
    before the first such segment are all the keys. *)
Lemma parseKeyVal_keys_of_valid (segs : list Spec.Segment) :
  Spec.valid segs = true →
  ∃ m : Obj,
    Detail.parseKeyVal (JStr (Spec.message segs)) = Ok m
    ∧ dom m = list_to_set (Spec.keys (Spec.before_first_bare segs)) ∖ {["__proto__"]}.
Proof.
  intros Hvalid. exists (Spec.mapping (Spec.stored_segments segs)).
  split; [by apply parseKeyVal_message, valid_well_formed|].
  rewrite valid_before_first_bare by done. unfold Spec.mapping.
  rewrite dom_foldl_put, keys_stored_segments. set_solver.
Qed.

(** C10 as written does not hold for every segment with two or more
    [=]: "=b=c" has two, its key is empty, and nothing is kept. *)
Lemma parseKeyVal_empty_key_dropped :
  Str.count "="%char "=b=c" = 2%nat
  ∧ Detail.parseKeyVal (JStr "=b=c") = Ok ∅
  ∧ ∀ m : Obj, Detail.parseKeyVal_step m "=b=c" = m.
Proof. split; [reflexivity|]. split; [by vm_compute|]. intros m. reflexivity. Qed.

(** C10, amended.  Every segment with two or more [=] is [k=v=rest]
    with no [=] in [k] and [v].  When [k] is not empty and its trimmed
    text is not [__proto__], the parser stores the trimmed text [v]
    between the first and the second [=] as the value of the trimmed
    key [k]; when [k] is empty or is [__proto__] it stores nothing.  In
    both cases [rest] is dropped without an error.  parseKeyVal("a=b=c")
    is {a: "b"}. *)
Theorem parseKeyVal_second_equals (part : string) :
  (2 ≤ Str.count "="%char part)%nat →
  ∃ k v rest : string,
    part = k +:+ "=" +:+ v +:+ "=" +:+ rest
    ∧ Str.free_of "="%char k = true
    ∧ Str.free_of "="%char v = true
    ∧ (∀ m : Obj,
         Detail.parseKeyVal_step m part
         = if String.eqb k "" || String.eqb (Str.trim k) "__proto__" then m
           else <[Str.trim k := JStr (Str.trim v)]> m)
    ∧ (Str.free_of "|"%char part = true →
       Detail.parseKeyVal (JStr part)
       = Ok (if String.eqb k "" || String.eqb (Str.trim k) "__proto__" then ∅
             else {[Str.trim k := JStr (Str.trim v)]}))
    ∧ Detail.parseKeyVal (JStr "a=b=c") = Ok {["a" := JStr "b"]}.
Proof.
  intros Htwo.
  destruct (first_occurrence "="%char part) as (k & tail & -> & Hk & Hcount); [lia|].
  destruct (first_occurrence "="%char tail) as (v & rest & -> & Hv & _); [lia|].
  exists k, v, rest.
  assert (Hstep : ∀ m : Obj,
    Detail.parseKeyVal_step m (k +:+ String "="%char (v +:+ String "="%char rest))
    = if String.eqb k "" || String.eqb (Str.trim k) "__proto__" then m
      else <[Str.trim k := JStr (Str.trim v)]> m).
  { intros m. rewrite step_keyed by done. rewrite split_app by done.
    unfold Detail.assign. cbn [hd].
    by destruct (String.eqb k ""), (String.eqb (Str.trim k) "__proto__"). }
  split; [done|]. split; [done|]. split; [done|]. split; [exact Hstep|].
  split; [|by vm_compute].
  intros Hbar. rewrite parseKeyVal_string, split_free by done. simpl.
  rewrite Hstep. by destruct (String.eqb k "" || String.eqb (Str.trim k) "__proto__").
Qed.

Lemma parseKeyVal_second_equals_witness :
  ∃ k v rest : string,
    "cov= 87% =x=y" = k +:+ "=" +:+ v +:+ "=" +:+ rest
    ∧ Detail.parseKeyVal (JStr "cov= 87% =x=y")
      = Ok (if String.eqb k "" || String.eqb (Str.trim k) "__proto__" then ∅
            else {[Str.trim k := JStr (Str.trim v)]}).
Proof.
  destruct (parseKeyVal_second_equals "cov= 87% =x=y" ltac:(vm_compute; lia))
    as (k & v & rest & Hpart & _ & _ & _ & Hwhole & _).
  exists k, v, rest. split; [exact Hpart|]. apply Hwhole. reflexivity.
Defined.

Example parseKeyVal_second_equals_coverage :
  Detail.parseKeyVal (JStr "cov= 87% =x=y") = Ok {["cov" := JStr "87%"]}.
Proof. by vm_compute. Qed.

Example parseKeyVal_second_equals_proto :
  Detail.parseKeyVal (JStr "__proto__=b=c") = Ok ∅.
Proof. by vm_compute. Qed.

(** ** The run normaliser *)

Section Normaliser.

Implicit Types (clk : App.Clock) (run : Obj).

Lemma getp_obj_eq k v fields : getp (obj ((k, v) :: fields)) k = v.
Proof. unfold getp, obj. simpl. by rewrite lookup_insert_eq. Qed.

Lemma getp_obj_ne k v fields k' :
  k ≠ k' → getp (obj ((k, v) :: fields)) k' = getp (obj fields) k'.
Proof. intros Hk. unfold getp, obj. simpl. by rewrite lookup_insert_ne. Qed.

Lemma getp_obj_nil k : getp (obj []) k = JUndefined.
Proof. done. Qed.

Lemma or_truthy a b : truthy a = true → or a b = a.
Proof. unfold or. by intros ->. Qed.

Lemma or_falsy a b : truthy a = false → or a b = b.
Proof. unfold or. by intros ->. Qed.

Lemma truthy_or_r a d : truthy d = true → truthy (or a d) = true.
Proof. unfold or. by destruct (truthy a) eqn:Ha. Qed.

Lemma or_or_same a d : or (or a d) d = or a d.
Proof. unfold or. destruct (truthy a) eqn:Ha; [by rewrite Ha|]. by destruct (truthy d). Qed.

Lemma truthy_iso t : truthy (App.iso t) = true.
Proof. done. Qed.

End Normaliser.

(** Reading the fields of an object literal. *)
Ltac read_fields :=
  repeat (rewrite getp_obj_eq || rewrite getp_obj_ne by done); rewrite ?getp_obj_nil.

(** A chain of [||] ending in a truthy default is truthy. *)
Ltac truthy_default := repeat apply truthy_or_r; reflexivity.

(** Two object literals with the same keys are equal when their fields
    are. *)
Ltac same_fields :=
  unfold obj; f_equal;
  repeat (apply (f_equal2 cons); [apply (f_equal2 pair); [reflexivity|] |]);
  try reflexivity.

Section NormaliseRun.

Implicit Types (clk : App.Clock) (run : Obj).

Lemma second_pass_fixed clk clk' run :
  truthy (or (getp run "run_started_at") (getp run "created_at")) = true →
  App.normalizeRun clk' (App.normalizeRun clk run) = App.normalizeRun clk run.
Proof.
  intros Hstart. unfold App.normalizeRun. read_fields.
  same_fields; try apply or_or_same.
  - apply or_truthy. truthy_default.
  - apply or_truthy. truthy_default.
  - apply or_truthy. truthy_default.
  - change (or JUndefined JNull) with JNull.
    destruct (truthy (getp run "actor")) eqn:Ha.
    + rewrite (or_truthy (getp run "actor")) by done. by apply or_truthy.
    + rewrite (or_falsy (getp run "actor")) by done. apply or_or_same.
  - by apply or_truthy.
Qed.

Lemma second_pass_moves_start clk clk' run :
  truthy (or (getp run "run_started_at") (getp run "created_at")) = false →
  getp (App.normalizeRun clk' (App.normalizeRun clk run)) "run_started_at"
  ≠ getp (App.normalizeRun clk run) "run_started_at".
Proof.
  intros Hstart Heq. unfold App.normalizeRun in Heq. revert Heq. read_fields.
  intros Heq. rewrite or_falsy in Heq by done.
  assert (Ht : truthy (or (getp run "created_at")
                          (or (getp run "updated_at") (App.iso (App.now_created clk)))) = true)
    by truthy_default.
  rewrite Heq in Ht. congruence.
Qed.

End NormaliseRun.

(** C1 as written does not hold.  For a run that is still in progress and
    has no conclusion, [normalizeRun] gives the conclusion "unknown", not
    "in_progress"; and the actor is kept with all its properties, not
    cut down to [{login, avatar_url}]. *)
Lemma normalizeRun_breaks_policy :
  let out := App.normalizeRun Sample.clock Sample.running in
  ¬ Spec.default_policy Sample.running out
  ∧ getp out "status" = JStr "in_progress"
  ∧ getp out "conclusion" = JStr "unknown"
  ∧ getp out "actor" = Sample.octocat
  ∧ Sample.octocat ≠ Spec.only_login_avatar Sample.octocat.
Proof.
  assert (Hactor : Sample.octocat ≠ Spec.only_login_avatar Sample.octocat).
  { intros Heq. apply (f_equal (λ v, opt_member v "id")) in Heq.
    vm_compute in Heq. discriminate Heq. }
  cbv zeta. split; [|by repeat split].
  intros (_ & _ & Hconclusion & _).
  specialize (Hconclusion eq_refl). vm_compute in Hconclusion. discriminate Hconclusion.
Qed.

(** C1, amended.  [normalizeRun] of app.js keeps every property that is
    present (truthy) and fills the absent ones: name from workflow_name
    and then "unknown"; status "completed"; conclusion "unknown" whatever
    the status; head_branch "main"; event "push"; run_number 0; updated_at
    from created_at when that is present; run_started_at from created_at;
    actor from triggering_actor and then null, an actor being retained as
    it is, with all its properties. *)
Theorem normalizeRun_defaults (clk : App.Clock) (run : Obj) :
  let out := App.normalizeRun clk run in
  (∀ k, k ∈ ["name"; "status"; "conclusion"; "html_url"; "created_at"; "updated_at";
             "head_branch"; "head_sha"; "event"; "run_number"; "actor";
             "run_started_at"] →
        Spec.present run k → getp out k = getp run k)
  ∧ (Spec.absent run "name" → Spec.present run "workflow_name" →
     getp out "name" = getp run "workflow_name")
  ∧ (Spec.absent run "name" → Spec.absent run "workflow_name" →
     getp out "name" = JStr "unknown")
  ∧ (Spec.absent run "status" → getp out "status" = JStr "completed")
  ∧ (Spec.absent run "conclusion" → getp out "conclusion" = JStr "unknown")
  ∧ (Spec.absent run "head_branch" → getp out "head_branch" = JStr "main")
  ∧ (Spec.absent run "event" → getp out "event" = JStr "push")
  ∧ (Spec.absent run "run_number" → getp out "run_number" = JNum 0)
  ∧ (Spec.absent run "updated_at" → Spec.present run "created_at" →
     getp out "updated_at" = getp run "created_at")
  ∧ (Spec.absent run "run_started_at" →
     getp out "run_started_at" = getp run "created_at")
  ∧ (Spec.absent run "actor" → Spec.present run "triggering_actor" →
     getp out "actor" = getp run "triggering_actor")
  ∧ (Spec.absent run "actor" → Spec.absent run "triggering_actor" →
     getp out "actor" = JNull).
Proof.
  unfold Spec.absent, Spec.present. cbv zeta. unfold App.normalizeRun.
  split.
  { intros k Hk Hpresent.
    repeat (apply elem_of_cons in Hk as [->|Hk]; [read_fields; by apply or_truthy|]).
    by apply elem_of_nil in Hk. }
  repeat split; intros; read_fields;
    repeat (first [rewrite (or_falsy (getp run _)) by done
                  | rewrite (or_truthy (getp run _)) by done]);
    reflexivity.
Qed.

Lemma normalizeRun_defaults_witness :
  let out := App.normalizeRun Sample.clock Sample.running in
  getp out "name" = JStr "CI"
  ∧ getp out "conclusion" = JStr "unknown"
  ∧ getp out "run_started_at" = JStr "2026-11-03T09:00:00Z"
  ∧ getp out "actor" = Sample.octocat.
Proof.
  pose proof (normalizeRun_defaults Sample.clock Sample.running)
    as (Hkept & _ & _ & _ & Hconclusion & _ & _ & _ & _ & Hstarted & _).
  cbv zeta in *. split; [|split; [|split]].
  - apply (Hkept "name"); [set_solver|reflexivity].
  - apply Hconclusion. reflexivity.
  - apply Hstarted. reflexivity.
  - apply (Hkept "actor"); [set_solver|reflexivity].
Defined.

(** The v3.0 engine differs in one field: there an absent conclusion
    becomes "unknown" when the raw status is "completed" and
    "in_progress" otherwise.  The actor is kept whole there as well. *)
Lemma normalizeRun3_conclusion (clk : App.Clock) (run : Obj) :
  Spec.absent run "conclusion" →
  getp (Engine3.normalizeRun clk run) "conclusion"
  = if is_str (getp run "status") "completed" then JStr "unknown" else JStr "in_progress".
Proof.
  unfold Spec.absent. intros Habsent. unfold Engine3.normalizeRun. read_fields.
  by apply or_falsy.
Qed.

(** Only the jq program of the static generator cuts the actor down to
    its login and avatar. *)
Example generator_actor_trimmed :
  Generator.actor Sample.running = Ok (Spec.only_login_avatar Sample.octocat).
Proof. by vm_compute. Qed.

(** C8 as written does not hold: normalising a run that has neither
    [created_at] nor [run_started_at] leaves [run_started_at] undefined
    and fills [created_at]; normalising the result copies that
    [created_at] into [run_started_at]. *)
Lemma normalizeRun_not_idempotent :
  App.normalizeRun Sample.clock' (App.normalizeRun Sample.clock Sample.undated)
  ≠ App.normalizeRun Sample.clock Sample.undated.
Proof.
  intros Heq. apply (f_equal (λ o : Obj, getp o "run_started_at")) in Heq.
  by apply second_pass_moves_start in Heq.
Qed.

(** The run normaliser of the v3.0 engine behaves in the same way. *)
Example normalizeRun3_not_idempotent :
  Engine3.normalizeRun Sample.clock' (Engine3.normalizeRun Sample.clock Sample.undated)
  ≠ Engine3.normalizeRun Sample.clock Sample.undated.
Proof.
  intros Heq. apply (f_equal (λ o : Obj, getp o "run_started_at")) in Heq.
  vm_compute in Heq. discriminate Heq.
Qed.

(** C8, amended.  [normalizeRun(normalizeRun(r))] is identical to
    [normalizeRun(r)] exactly for the run objects [r] that carry a
    [run_started_at] or a [created_at]. *)
Theorem normalizeRun_idempotent_iff (clk clk' : App.Clock) (run : Obj) :
  App.normalizeRun clk' (App.normalizeRun clk run) = App.normalizeRun clk run
  ↔ (Spec.present run "run_started_at" ∨ Spec.present run "created_at").
Proof.
  unfold Spec.present.
  assert (Hor : truthy (or (getp run "run_started_at") (getp run "created_at"))
                = truthy (getp run "run_started_at") || truthy (getp run "created_at")).
  { unfold or. by destruct (truthy (getp run "run_started_at")) eqn:Hs. }
  split.
  - intros Heq.
    destruct (truthy (or (getp run "run_started_at") (getp run "created_at"))) eqn:Ht.
    + symmetry in Hor. apply orb_true_iff in Hor. exact Hor.
    + apply (f_equal (λ o : Obj, getp o "run_started_at")) in Heq.
      by apply second_pass_moves_start in Heq.
  - intros Hpresent. apply second_pass_fixed.
    rewrite Hor. apply orb_true_iff. exact Hpresent.
Qed.

Lemma normalizeRun_idempotent_iff_witness :
  App.normalizeRun Sample.clock' (App.normalizeRun Sample.clock Sample.dated)
  = App.normalizeRun Sample.clock Sample.dated.
Proof.
  apply (proj2 (normalizeRun_idempotent_iff Sample.clock Sample.clock' Sample.dated)).
  right. reflexivity.
Defined.

(** ** The success streak *)

Section Streak.

Implicit Types (r : Obj) (runs : list Obj).

Lemma is_str_eq (v : JsVal) (t : string) : is_str v t = true ↔ v = JStr t.
Proof.
  destruct v; simpl; try (split; [discriminate|congruence]).
  rewrite String.eqb_eq. split; congruence.
Qed.

Lemma isSuccess_true r : App.isSuccess r = true ↔ getp r "conclusion" = JStr "success".
Proof. apply is_str_eq. Qed.

Lemma isSuccess_false r : App.isSuccess r = false ↔ getp r "conclusion" ≠ JStr "success".
Proof. rewrite <- isSuccess_true. by destruct (App.isSuccess r). Qed.

(** The loop counts on from the streak it is entered with. *)
Lemma streakLoop_from n runs : App.streakLoop n runs = (n + App.streakLoop 0 runs)%nat.
Proof.
  revert n. induction runs as [|r runs IH]; intros n; simpl; [lia|].
  destruct (App.isSuccess r); [|lia].
  rewrite (IH (S n)), (IH 1%nat). lia.
Qed.

Lemma computeStreak_cons r runs :
  App.computeStreak (r :: runs)
  = if App.isSuccess r then S (App.computeStreak runs) else 0%nat.
Proof.
  unfold App.computeStreak. simpl. destruct (App.isSuccess r); [|done].
  by rewrite streakLoop_from.
Qed.

Lemma streak_exists runs :
  ∃ streak rest, Spec.is_streak runs streak rest ∧ App.computeStreak runs = length streak.
Proof.
  induction runs as [|r runs (streak & rest & (Hsplit & Hall & Hrest) & Hlen)].
  - exists [], []. by repeat split.
  - rewrite computeStreak_cons. destruct (App.isSuccess r) eqn:Hr.
    + exists (r :: streak), rest. repeat split.
      * simpl. by f_equal.
      * constructor; [by apply isSuccess_true|done].
      * done.
      * simpl. by f_equal.
    + exists [], (r :: runs). repeat split; [constructor|by apply isSuccess_false].
Qed.

(** The decomposition into streak and rest is unique. *)
Lemma streak_unique runs streak rest :
  Spec.is_streak runs streak rest → App.computeStreak runs = length streak.
Proof.
  revert runs. induction streak as [|r streak IH]; intros runs (-> & Hall & Hrest).
  - simpl. destruct rest as [|r rest]; [done|].
    rewrite computeStreak_cons. apply isSuccess_false in Hrest. by rewrite Hrest.
  - apply Forall_cons in Hall as [Hr Hall]. simpl.
    rewrite computeStreak_cons. apply isSuccess_true in Hr. rewrite Hr.
    f_equal. apply IH. by repeat split.
Qed.

End Streak.

(** C7.  For every list of runs, sorted by time or not, [computeStreak]
    returns the length of the first run of successes: the list is
    [streak ++ rest] with every run of [streak] concluded "success" and
    [rest] empty or starting with a run concluded otherwise, and the
    result is the length of [streak]; no other split of this kind gives
    another count.  Streak([success, success, failure, success]) = 2. *)
Theorem computeStreak_counts_leading_successes (runs : list Obj) :
  (∃ streak rest, Spec.is_streak runs streak rest ∧ App.computeStreak runs = length streak)
  ∧ (∀ streak rest, Spec.is_streak runs streak rest → App.computeStreak runs = length streak)
  ∧ App.computeStreak [Sample.success; Sample.success; Sample.failure; Sample.success] = 2%nat.
Proof.
  split; [apply streak_exists|]. split; [apply streak_unique|]. reflexivity.
Qed.

Lemma computeStreak_counts_leading_successes_witness :
  App.computeStreak [Sample.success; Sample.failure; Sample.success] = 1%nat.
Proof.
  apply (proj1 (proj2 (computeStreak_counts_leading_successes
                         [Sample.success; Sample.failure; Sample.success]))
           [Sample.success] [Sample.failure; Sample.success]).
  split; [reflexivity|]. split.
  - repeat constructor.
  - vm_compute. discriminate.
Defined.

(** ** One refresh cycle *)

Section Refresh.

Implicit Types (env : App.Env) (m : App.Manifest) (repo : App.Repo).

Lemma try_catch_settles {A} (body : Exc (option A)) :
  ∃ r, try_catch body (λ _, Ok None) = Ok r.
Proof. destruct body; simpl; eauto. Qed.

(** The promise of [fetchRepoData] is never rejected. *)
Lemma fetchRepoData_settles env m repo : ∃ r, App.fetchRepoData env m repo = Ok r.
Proof.
  unfold App.fetchRepoData.
  destruct (try_catch_settles (App.tryApi env m repo)) as [[s|] ->]; simpl; [eauto|].
  destruct (try_catch_settles (App.tryStatic env m repo)) as [[s|] ->]; simpl; eauto.
Qed.

Lemma fetchRepoData_both_fail env m repo e1 e2 :
  App.fetchJSON env (App.apiUrl m repo) = Throw e1 →
  App.fetchJSON env (App.staticUrl m repo) = Throw e2 →
  App.fetchRepoData env m repo = Ok None.
Proof.
  intros Hapi Hstatic. unfold App.fetchRepoData, App.tryApi, App.tryStatic.
  by rewrite Hapi, Hstatic.
Qed.

Lemma mapM_ext {A B} (f g : A → Exc B) (l : list A) :
  (∀ x, f x = g x) → mapM f l = mapM g l.
Proof. intros Hfg. induction l as [|x l IH]; simpl; [done|]. by rewrite Hfg, IH. Qed.

Lemma tryApi_same env env' m repo :
  Spec.same_answer env env' (App.apiUrl m repo) →
  App.tryApi env m repo = App.tryApi env' m repo.
Proof.
  intros [Hfetch Hclock]. unfold App.tryApi. rewrite Hfetch.
  destruct (App.fetchJSON env' (App.apiUrl m repo)) as [data|e]; [|done]. simpl.
  destruct (if truthy data then member data "workflow_runs" else Ok data) as [wr|e]; [|done].
  simpl. destruct (truthy wr); [|done].
  unfold array_map. destruct wr; try done.
  erewrite mapM_ext; [done|]. intros [i r]. simpl. by rewrite Hclock.
Qed.

Lemma tryStatic_same env env' m repo :
  Spec.same_answer env env' (App.staticUrl m repo) →
  App.tryStatic env m repo = App.tryStatic env' m repo.
Proof.
  intros [Hfetch Hclock]. unfold App.tryStatic. rewrite Hfetch.
  destruct (App.fetchJSON env' (App.staticUrl m repo)) as [data|e]; [|done]. simpl.
  destruct (if truthy data then member data "runs" else Ok data) as [raw|e]; [|done].
  simpl. destruct (truthy raw); [|done].
  unfold array_map. destruct raw; try done.
  erewrite mapM_ext; [done|]. intros [i r]. simpl. by rewrite Hclock.
Qed.

(** The outcome for a repository depends on the answers to its own two
    requests only. *)
Lemma fetchRepoData_same env env' m repo :
  Spec.same_answer env env' (App.apiUrl m repo) →
  Spec.same_answer env env' (App.staticUrl m repo) →
  App.fetchRepoData env m repo = App.fetchRepoData env' m repo.
Proof.
  intros Hapi Hstatic. unfold App.fetchRepoData.
  by rewrite (tryApi_same env env'), (tryStatic_same env env').
Qed.

Lemma urls_by_name m repo repo' :
  App.name repo = App.name repo' →
  App.apiUrl m repo = App.apiUrl m repo' ∧ App.staticUrl m repo = App.staticUrl m repo'.
Proof. unfold App.apiUrl, App.staticUrl. by intros ->. Qed.

Lemma repoData_recordResult st repo result :
  App.repoData (App.recordResult st (repo, result))
  = <[App.name repo := Spec.stored result]> (App.repoData st).
Proof. by destruct result as [[v|]|e]. Qed.

Lemma repoData_foldl (f : App.Repo → Exc (option App.Snapshot)) st (rs : list App.Repo) :
  App.repoData (foldl App.recordResult st (zip rs (map f rs)))
  = foldl (λ d repo, <[App.name repo := Spec.stored (f repo)]> d) (App.repoData st) rs.
Proof.
  revert st. induction rs as [|repo rs IH]; intros st; [done|].
  cbn -[App.recordResult]. by rewrite IH, repoData_recordResult.
Qed.

(** The entry of a key is what the last repository of that name
    Spec.stored. *)
Lemma lookup_foldl_stored (f : App.Repo → App.Snapshot)
    (d : gmap string App.Snapshot) (rs : list App.Repo) key s :
  (∀ repo, repo ∈ rs → App.name repo = key → f repo = s) →
  (∃ repo, repo ∈ rs ∧ App.name repo = key) →
  foldl (λ d repo, <[App.name repo := f repo]> d) d rs !! key = Some s.
Proof.
  intros Hsame Hsome.
  assert (Hgen : ∀ d : gmap string App.Snapshot, d !! key = Some s ∨ (∃ repo, repo ∈ rs ∧ App.name repo = key) →
                      foldl (λ d repo, <[App.name repo := f repo]> d) d rs !! key = Some s).
  { clear Hsome. induction rs as [|repo rs IH]; intros d' [Hd|Hex]; simpl.
    - done.
    - destruct Hex as (repo & Hin & _). by apply elem_of_nil in Hin.
    - apply IH; [intros; apply Hsame; [by right|done]|]. left.
      destruct (decide (App.name repo = key)) as [Hk|Hk].
      + rewrite Hk, lookup_insert_eq. f_equal. apply Hsame; [by left|done].
      + by rewrite lookup_insert_ne.
    - apply IH; [intros; apply Hsame; [by right|done]|].
      destruct (decide (App.name repo = key)) as [Hk|Hk].
      + left. rewrite Hk, lookup_insert_eq. f_equal. apply Hsame; [by left|done].
      + right. destruct Hex as (repo' & Hin & Hname).
        apply elem_of_cons in Hin as [->|Hin]; [done|]. eauto. }
  apply Hgen. by right.
Qed.

Lemma lookup_foldl_stored_ext (f g : App.Repo → App.Snapshot)
    (d : gmap string App.Snapshot) (rs : list App.Repo) key :
  (∀ repo, repo ∈ rs → App.name repo = key → f repo = g repo) →
  foldl (λ d repo, <[App.name repo := f repo]> d) d rs !! key
  = foldl (λ d repo, <[App.name repo := g repo]> d) d rs !! key.
Proof.
  revert d. induction rs as [|repo rs IH] using rev_ind; intros d Hsame; [done|].
  rewrite !foldl_app. simpl.
  destruct (decide (App.name repo = key)) as [Hk|Hk].
  - rewrite Hk, !lookup_insert_eq. f_equal. apply Hsame; [|done].
    apply elem_of_app. right. by left.
  - rewrite !lookup_insert_ne by done. apply IH.
    intros repo' Hin. apply Hsame, elem_of_app. by left.
Qed.

End Refresh.

(** C3.  When both the live API request and the static-file request of a
    repository of the manifest fail, [fetchRepoData] catches both
    failures and its promise is fulfilled with [null]; [refresh] stores
    [{runs: [], conclusion: "unknown", error: true}] for that repository.
    No promise of [fetchRepoData] is ever rejected, and what [refresh]
    stores for any repository is the same in every world that answers
    that repository's own two requests in the same way, whatever happens
    to the requests of the failing one. *)
Theorem refresh_isolates_failure
    (env : App.Env) (m : App.Manifest) (failing : App.Repo) (e1 e2 : JsError) :
  failing ∈ App.repos m →
  App.fetchJSON env (App.apiUrl m failing) = Throw e1 →
  App.fetchJSON env (App.staticUrl m failing) = Throw e2 →
  App.fetchRepoData env m failing = Ok None
  ∧ App.repoData (App.refresh env m) !! App.name failing
    = Some {| App.runs := []; App.conclusion := JStr "unknown"; App.totalCount := None;
              App.isStatic := false; App.error := true |}
  ∧ (∀ repo, ∃ r, App.fetchRepoData env m repo = Ok r)
  ∧ (∀ (env' : App.Env) (other : App.Repo),
       Spec.same_answer env env' (App.apiUrl m other) →
       Spec.same_answer env env' (App.staticUrl m other) →
       App.repoData (App.refresh env' m) !! App.name other
       = App.repoData (App.refresh env m) !! App.name other).
Proof.
  intros Hin Hapi Hstatic.
  split; [by eapply fetchRepoData_both_fail|].
  split; [|split; [intros; apply fetchRepoData_settles|]].
  - unfold App.refresh. rewrite repoData_foldl. simpl.
    apply (lookup_foldl_stored (λ repo, Spec.stored (App.fetchRepoData env m repo))); [|eauto].
    intros repo _ Hname.
    destruct (urls_by_name m repo failing Hname) as [Hu1 Hu2].
    rewrite (fetchRepoData_both_fail env m repo e1 e2); [done| |]; congruence.
  - intros env' other Hsame1 Hsame2. unfold App.refresh. rewrite !repoData_foldl. simpl.
    apply (lookup_foldl_stored_ext
             (λ repo, Spec.stored (App.fetchRepoData env' m repo))
             (λ repo, Spec.stored (App.fetchRepoData env m repo))).
    intros repo _ Hname. destruct (urls_by_name m repo other Hname) as [Hu1 Hu2].
    f_equal. symmetry. apply fetchRepoData_same; congruence.
Qed.

Lemma refresh_isolates_failure_witness :
  App.repoData (App.refresh Sample.world Sample.manifest) !! "alpha" = Some App.errorSnapshot
  ∧ App.conclusion <$> App.repoData (App.refresh Sample.world Sample.manifest) !! "beta"
    = Some (JStr "success").
Proof.
  split.
  - apply (refresh_isolates_failure Sample.world Sample.manifest Sample.alpha
             FetchError FetchError).
    + set_solver.
    + reflexivity.
    + reflexivity.
  - vm_compute. reflexivity.
Defined.

(** ** Letter case and substrings *)

Section LetterCase.

Implicit Types (s p : string) (c x : ascii).

Lemma prefix_cons_cons c x p s :
  String.prefix (String c p) (String x s)
  = if Ascii.eqb c x then String.prefix p s else false.
Proof.
  simpl. destruct (Ascii.ascii_dec c x) as [->|Hne].
  - by rewrite Ascii.eqb_refl.
  - apply Ascii.eqb_neq in Hne. by rewrite Hne.
Qed.

Lemma prefix_spec p s : String.prefix p s = true ↔ ∃ t, s = p +:+ t.
Proof.
  revert s. induction p as [|c p IH]; intros s.
  - split; [exists s; done|by destruct s].
  - destruct s as [|x s].
    + split; [done|]. by intros [t Ht].
    + rewrite prefix_cons_cons. destruct (Ascii.eqb c x) eqn:Hc.
      * apply Ascii.eqb_eq in Hc as ->. rewrite IH. split.
        -- intros [t ->]. by exists t.
        -- intros [t Ht]. injection Ht as ->. by exists t.
      * split; [done|]. intros [t Ht]. injection Ht as -> _.
        by rewrite Ascii.eqb_refl in Hc.
Qed.

(** [includes] is the substring test. *)
Lemma includes_spec s p :
  Str.includes s p = true ↔ ∃ before after, s = before +:+ p +:+ after.
Proof.
  induction s as [|x s IH].
  - cbn [Str.includes]. rewrite orb_false_r, prefix_spec. split.
    + intros [t Ht]. by exists "", t.
    + intros ([|y before] & after & Ht); [by exists after|done].
  - cbn [Str.includes]. rewrite orb_true_iff, prefix_spec, IH. split.
    + intros [[t Ht]|(before & after & Ht)].
      * by exists "", t.
      * exists (String x before), after. by rewrite Ht.
    + intros ([|y before] & after & Ht).
      * left. by exists after.
      * right. injection Ht as -> ->. by exists before, after.
Qed.

(** Lower-casing and case folding differ on code units above U+007F
    only, and stay there. *)
Lemma lower_or_high x :
  Str.lower_char x = Str.fold_char x
  ∨ (Str.is_ascii7 (Str.lower_char x) = false ∧ Str.is_ascii7 (Str.fold_char x) = false).
Proof.
  destruct x as [[] [] [] [] [] [] [] []]; vm_compute; auto.
Qed.

Lemma eqb_ascii7_high c x :
  Str.is_ascii7 c = true → Str.is_ascii7 x = false → Ascii.eqb c x = false.
Proof.
  destruct c as [? ? ? ? ? ? ? []], x as [? ? ? ? ? ? ? []]; try done.
  intros _ _. simpl. by repeat match goal with |- context [Bool.eqb ?a ?b] => destruct (Bool.eqb a b) end.
Qed.

Lemma prefix_lower_fold p s :
  Str.ascii7 p = true →
  String.prefix p (Str.toLowerCase s) = String.prefix p (Str.foldCase s).
Proof.
  revert s. induction p as [|c p IH]; intros s Hp; [by destruct s|].
  simpl in Hp. bool_hyps. destruct s as [|x s]; [done|].
  cbn [Str.toLowerCase Str.foldCase]. rewrite !prefix_cons_cons, IH by done.
  destruct (lower_or_high x) as [->|[Hl Hf]]; [done|].
  by rewrite !eqb_ascii7_high.
Qed.

Lemma includes_lower_fold p s :
  Str.ascii7 p = true →
  Str.includes (Str.toLowerCase s) p = Str.includes (Str.foldCase s) p.
Proof.
  intros Hp. induction s as [|x s IH].
  - done.
  - cbn [Str.toLowerCase Str.foldCase Str.includes].
    rewrite IH. f_equal.
    change (String (Str.lower_char x) (Str.toLowerCase s)) with (Str.toLowerCase (String x s)).
    change (String (Str.fold_char x) (Str.foldCase s)) with (Str.foldCase (String x s)).
    by apply prefix_lower_fold.
Qed.

Lemma fold_lower_char x : Str.fold_char (Str.lower_char x) = Str.lower_char x.
Proof. destruct x as [[] [] [] [] [] [] [] []]; by vm_compute. Qed.

Lemma foldCase_toLowerCase s : Str.foldCase (Str.toLowerCase s) = Str.toLowerCase s.
Proof. induction s as [|x s IH]; simpl; [done|]. by rewrite fold_lower_char, IH. Qed.

(** A pattern [/pat/i] applied to the lower-cased name matches when the
    name contains [pat] in any letter case. *)
Lemma test_lower p s :
  Str.ascii7 p = true →
  Engine3.test p (Str.toLowerCase s) = Spec.contains_ci s p.
Proof.
  intros Hp. unfold Engine3.test, Spec.contains_ci.
  rewrite foldCase_toLowerCase. by apply includes_lower_fold.
Qed.

End LetterCase.

(** ** The ingestion filter *)

Section Filter.

Implicit Types (run : Obj) (s : string).

Lemma excluded_named run s :
  getp run "name" = JStr s →
  Spec.excluded run
  = Str.includes (Str.foldCase s) "copilot" || is_str (getp run "event") "dynamic".
Proof. unfold Spec.excluded. by intros ->. Qed.

Lemma field_named run s : getp run "name" = JStr s → Generator.field run "name" = JStr s.
Proof.
  unfold getp, Generator.field. destruct (run !! "name") as [v|]; simpl; [done|].
  discriminate.
Qed.

Lemma field_event run :
  is_str (Generator.field run "event") "dynamic" = is_str (getp run "event") "dynamic".
Proof. unfold getp, Generator.field. by destruct (run !! "event"). Qed.

(** The jq program of the generator drops what the rule excludes. *)
Lemma generator_filters run s :
  getp run "name" = JStr s →
  Generator.selectRun run = Ok (negb (Spec.excluded run)).
Proof.
  intros Hname. unfold Generator.selectRun.
  rewrite (field_named run s Hname), (excluded_named run s Hname), field_event.
  simpl. by rewrite negb_orb.
Qed.

(** So does the detail page, which drops release runs as well. *)
Lemma detail_filters run s :
  getp run "name" = JStr s →
  Detail.keepCiRun run
  = Ok (negb (Str.includes (Str.toLowerCase s) "release") && negb (Spec.excluded run)).
Proof.
  intros Hname. unfold Detail.keepCiRun, Detail.lower_name.
  rewrite (excluded_named run s Hname), Hname.
  assert (Hor : or (JStr s) (JStr "") = JStr s) by by destruct s.
  rewrite Hor. cbn [mbind Exc_bind].
  rewrite (includes_lower_fold "copilot") by done.
  destruct (Str.includes (Str.toLowerCase s) "release"); [done|].
  destruct (Str.includes (Str.foldCase s) "copilot"); [done|].
  by destruct (is_str (getp run "event") "dynamic").
Qed.

Lemma mapM_normalize (clk : nat → App.Clock) (rs : list Obj) (from : nat) :
  mapM (λ ix : nat * JsVal, App.normalizeRun_call (clk ix.1) ix.2)
       (zip (seq from (length rs)) (JObj <$> rs))
  = Ok (zip_with (λ i r, App.normalizeRun (clk i) r) (seq from (length rs)) rs).
Proof.
  revert from. induction rs as [|r rs IH]; intros from; [done|].
  simpl. by rewrite IH.
Qed.

(** [fetchRepoData] of app.js keeps every run the API lists. *)
Lemma fetchRepoData_keeps_every_run
    (env : App.Env) (m : App.Manifest) (repo : App.Repo) (data : Obj) (rs : list Obj) :
  App.fetchJSON env (App.apiUrl m repo) = Ok (JObj data) →
  getp data "workflow_runs" = JArr (JObj <$> rs) →
  ∃ snapshot,
    App.fetchRepoData env m repo = Ok (Some snapshot)
    ∧ App.runs snapshot
      = zip_with (λ i r, App.normalizeRun (App.clock env (App.apiUrl m repo) i) r)
                 (seq 0 (length rs)) rs.
Proof.
  intros Hfetch Hruns. unfold App.fetchRepoData, App.tryApi.
  rewrite Hfetch. cbn [mbind Exc_bind truthy member props]. rewrite Hruns.
  cbn [truthy array_map]. rewrite length_fmap, mapM_normalize.
  cbn [mbind Exc_bind try_catch]. eauto.
Qed.

End Filter.

(** C4, the code at the failing input.  The live API answer for [beta]
    lists a run of the Copilot agent (event "dynamic") before a CI run.
    The rule excludes it, and the jq program of the generator and the
    filter of the detail page both drop it; [fetchRepoData] of app.js
    hands both runs on, the Copilot run first, so that its conclusion
    becomes the conclusion of the repository. *)
Theorem copilot_run_ingested_unfiltered :
  Spec.excluded Sample.copilot_run = true
  ∧ Generator.selectRun Sample.copilot_run = Ok false
  ∧ Detail.keepCiRun Sample.copilot_run = Ok false
  ∧ ∃ snapshot,
      App.fetchRepoData Sample.world Sample.manifest Sample.beta = Ok (Some snapshot)
      ∧ (λ r, getp r "name") <$> App.runs snapshot = [JStr "Copilot code review"; JStr "CI"]
      ∧ App.conclusion snapshot = JStr "success".
Proof.
  split; [reflexivity|]. split; [reflexivity|]. split; [reflexivity|].
  eexists. split; [vm_compute; reflexivity|]. split; vm_compute; reflexivity.
Qed.

(** ** Categories *)

Section Categories.

Implicit Types (name : string).

Lemma classifyLower_first_match name :
  Engine3.classifyLower (Str.toLowerCase name)
  = if Spec.in_lint name then Some "lint"
    else if Spec.in_test name then Some "test"
    else if Spec.in_security name then Some "security"
    else if Spec.in_release name then Some "release"
    else None.
Proof.
  unfold Engine3.classifyLower, Engine3.CATEGORIES, Spec.in_lint, Spec.in_test,
    Spec.in_security, Spec.in_release.
  cbn [List.find existsb fst snd].
  rewrite !test_lower by done. rewrite !orb_false_r.
  destruct (Spec.contains_ci name "lint"); [done|].
  destruct (Spec.contains_ci name "test"); [done|].
  destruct (Spec.contains_ci name "security" || _); [done|].
  by destruct (Spec.contains_ci name "release").
Qed.

Lemma classifyName_string name :
  Engine3.classifyName (JStr name) = Ok (Engine3.classifyLower (Str.toLowerCase name)).
Proof. by destruct name. Qed.

End Categories.

(** C5 as written does not hold, on either code path.  In the engine a
    job named "Deploy Release" is classified as release, not left without
    a bucket, and a name such as "Lint Scanner" contains "scan" but goes
    to lint; on the detail page the security job is looked up by
    "security" alone, so "Trivy Scan" is not found. *)
Lemma classification_scenario_differs :
  mapM Engine3.classifyName ((λ j, getp j "name") <$> Sample.jobs) ≠ Ok Spec.scenario_buckets
  ∧ Detail.secJob Sample.jobs ≠ Some (Sample.job "Trivy Scan")
  ∧ ¬ (∀ name : string,
         Engine3.classifyName (JStr name) = Ok (Some "security")
         ↔ Spec.in_security name = true).
Proof.
  split; [by vm_compute|]. split; [by vm_compute|].
  intros Hiff. specialize (Hiff "Lint Scanner").
  destruct Hiff as [_ Hiff]. specialize (Hiff eq_refl).
  vm_compute in Hiff. discriminate Hiff.
Qed.

(** C5, amended.  In the engine, [classifyName] lower-cases the name and
    returns the first category, in the order lint, test, security,
    release, one of whose patterns occurs in it: lint for a name
    containing "lint"; otherwise test for "test"; otherwise security for
    "security", "scan", "sast", "trivy" or "vuln"; otherwise release for
    "release"; otherwise none.  The jobs "Run Lint", "Unit Test Suite",
    "Trivy Scan", "Deploy Release" are classified lint, test, security,
    release.  On the detail page, [renderDetail] takes as lint, test and
    security job the first job whose name contains "lint", "test" and
    "security" (in any letter case); there "Run Lint" is the lint job,
    "Unit Test Suite" the test job, and no job is the security job. *)
Theorem classification_first_match :
  (∀ name : string,
     Engine3.classifyName (JStr name)
     = Ok (if Spec.in_lint name then Some "lint"
           else if Spec.in_test name then Some "test"
           else if Spec.in_security name then Some "security"
           else if Spec.in_release name then Some "release"
           else None))
  ∧ mapM Engine3.classifyName ((λ j, getp j "name") <$> Sample.jobs)
    = Ok [Some "lint"; Some "test"; Some "security"; Some "release"]
  ∧ (∀ jobs : list Obj,
       Detail.lintJob jobs = List.find (λ j, Spec.in_lint (toString (getp j "name"))) jobs
       ∧ Detail.testJob jobs = List.find (λ j, Spec.in_test (toString (getp j "name"))) jobs
       ∧ Detail.secJob jobs
         = List.find (λ j, Spec.contains_ci (toString (getp j "name")) "security") jobs)
  ∧ Detail.lintJob Sample.jobs = Some (Sample.job "Run Lint")
  ∧ Detail.testJob Sample.jobs = Some (Sample.job "Unit Test Suite")
  ∧ Detail.secJob Sample.jobs = None.
Proof.
  split.
  { intros name. by rewrite classifyName_string, classifyLower_first_match. }
  split; [by vm_compute|]. split; [done|].
  repeat split; by vm_compute.
Qed.

(** ** The pass rate *)

Section PassRate.

#[local] Open Scope Q_scope.

Context {N : JsNumber} {accurate : Num.Binary64 N}.






#[local] Instance in_range_proper : Proper (Qeq ==> iff) Num.in_range.
Proof. intros x y Hxy. unfold Num.in_range. by rewrite Hxy. Qed.



Lemma successful_le (runs : list Obj) : (App.successful runs ≤ length runs)%nat.
Proof. apply length_filter. Qed.


End PassRate.

(** Exact arithmetic has no rounding error at all. *)
#[export] Instance exact_accurate : Num.Binary64 Num.exact.
Proof.
  split; cbn [num_val num_of_nat num_div num_mul Num.exact].
  - reflexivity.
  - intros a b _ _. assert (Hz : (a / b - a / b == 0)%Q) by ring.
    rewrite Hz. apply Qmult_le_0_compat; [done|apply Qabs_nonneg].
  - intros a b _. assert (Hz : (a * b - a * b == 0)%Q) by ring.
    rewrite Hz. apply Qmult_le_0_compat; [done|apply Qabs_nonneg].
Qed.





(** The numeral is read digit by digit: no leading zero, one decimal. *)
Example read_fixed1_samples :
  Spec.read_fixed1 "75.0" = Some 750%Z
  ∧ Spec.read_fixed1 "0.0" = Some 0%Z
  ∧ Spec.read_fixed1 "100.0" = Some 1000%Z
  ∧ Spec.read_fixed1 "075.0" = None
  ∧ Spec.read_fixed1 "75" = None
  ∧ Spec.read_fixed1 "75.00" = None
  ∧ Spec.read_fixed1 ".5" = None.
Proof. repeat split; reflexivity. Qed.

(** The same computation on the doubles of the machine. *)
Example passRate_binary64 :
  App.passRate (H := Num.binary64) [Sample.success; Sample.success; Sample.failure; Sample.success]
  = JStr "75.0"
  ∧ App.passRate (H := Num.binary64) [] = JNum 0.
Proof. split; by vm_compute. Qed.


(** * Further properties of the code *)

(** ** The counts of the summary strip *)

Section SummaryCounts.

Implicit Types (r : Obj) (runs : list Obj).

Lemma successful_cons r runs :
  App.successful (r :: runs)
  = if App.isSuccess r then S (App.successful runs) else App.successful runs.
Proof.
  unfold App.successful. rewrite filter_cons.
  destruct (App.isSuccess r) eqn:Hr.
  - by rewrite decide_True.
  - by rewrite decide_False.
Qed.

Lemma failed_cons r runs :
  Summary.failed (r :: runs)
  = if Summary.isFailure r then S (Summary.failed runs) else Summary.failed runs.
Proof.
  unfold Summary.failed. rewrite filter_cons.
  destruct (Summary.isFailure r) eqn:Hr.
  - by rewrite decide_True.
  - by rewrite decide_False.
Qed.

(** A run is not counted twice. *)
Lemma success_not_failure r : App.isSuccess r = true → Summary.isFailure r = false.
Proof.
  unfold Summary.isFailure. intros Hr%isSuccess_true. by rewrite Hr.
Qed.

Lemma streak_le_successful runs : (App.computeStreak runs ≤ App.successful runs)%nat.
Proof.
  induction runs as [|r runs IH]; [done|].
  rewrite computeStreak_cons, successful_cons. destruct (App.isSuccess r); lia.
Qed.

Lemma successful_failed_le runs :
  (App.successful runs + Summary.failed runs ≤ length runs)%nat.
Proof.
  induction runs as [|r runs IH]; [done|].
  rewrite successful_cons, failed_cons. simpl.
  destruct (App.isSuccess r) eqn:Hr.
  - rewrite (success_not_failure r Hr). lia.
  - destruct (Summary.isFailure r); lia.
Qed.

Lemma streak_full runs :
  App.computeStreak runs = length runs ↔ App.successful runs = length runs.
Proof.
  induction runs as [|r runs IH]; [done|].
  rewrite computeStreak_cons, successful_cons. simpl.
  pose proof (successful_le runs) as Hle. pose proof (streak_le_successful runs) as Hst.
  destruct (App.isSuccess r); [|lia].
  split; intros H; f_equal; apply IH; lia.
Qed.

End SummaryCounts.

(** X1.  In the summary strip no run is counted both as a success and as
    a failure, the success streak never exceeds the number of successful
    runs, and the streak equals the number of runs exactly when every run
    is a success. *)
Theorem summary_counts_consistent (runs : list Obj) :
  (App.successful runs + Summary.failed runs ≤ length runs)%nat
  ∧ (App.computeStreak runs ≤ App.successful runs)%nat
  ∧ (App.computeStreak runs = length runs ↔ App.successful runs = length runs).
Proof.
  split; [apply successful_failed_le|]. split; [apply streak_le_successful|apply streak_full].
Qed.

(** ** Healthy repositories *)

Section Healthy.

Lemma filter_length_lt {A} (P : A → Prop) `{∀ x, Decision (P x)} (l : list A) (x : A) :
  x ∈ l → ¬ P x → (length (filter P l) < length l)%nat.
Proof.
  induction l as [|y l IH]; intros Hin Hx; [by apply elem_of_nil in Hin|].
  rewrite filter_cons. pose proof (length_filter P l) as Hle.
  apply elem_of_cons in Hin as [->|Hin].
  - rewrite decide_False by done. simpl. lia.
  - specialize (IH Hin Hx). destruct (decide (P y)); simpl; lia.
Qed.

(** What [refresh] stores for a repository whose two requests fail. *)
Lemma refresh_error_entry
    (env : App.Env) (m : App.Manifest) (failing : App.Repo) (e1 e2 : JsError) :
  failing ∈ App.repos m →
  App.fetchJSON env (App.apiUrl m failing) = Throw e1 →
  App.fetchJSON env (App.staticUrl m failing) = Throw e2 →
  App.repoData (App.refresh env m) !! App.name failing = Some App.errorSnapshot.
Proof.
  intros Hin Hapi Hstatic. unfold App.refresh. rewrite repoData_foldl. simpl.
  apply (lookup_foldl_stored (λ repo, Spec.stored (App.fetchRepoData env m repo))); [|eauto].
  intros repo _ Hname.
  destruct (urls_by_name m repo failing Hname) as [Hu1 Hu2].
  rewrite (fetchRepoData_both_fail env m repo e1 e2); [done| |]; congruence.
Qed.

Lemma healthy_le (m : App.Manifest) (d : gmap string App.Snapshot) :
  (Summary.healthyRepos m d ≤ length (App.repos m))%nat.
Proof. apply length_filter. Qed.

End Healthy.

(** X2.  After a refresh in which both requests of a repository of the
    manifest failed, that repository is not counted as healthy: the
    "Healthy Repos" card shows fewer healthy repositories than there are
    and reads "<k> need attention" with k at least 1, never "all
    passing". *)
Theorem failed_repo_needs_attention
    (env : App.Env) (m : App.Manifest) (failing : App.Repo) (e1 e2 : JsError) :
  failing ∈ App.repos m →
  App.fetchJSON env (App.apiUrl m failing) = Throw e1 →
  App.fetchJSON env (App.staticUrl m failing) = Throw e2 →
  let data := App.repoData (App.refresh env m) in
  Summary.isHealthy data failing = false
  ∧ (Summary.healthyRepos m data < length (App.repos m))%nat
  ∧ ∃ k : nat,
      (1 ≤ k)%nat
      ∧ k = (length (App.repos m) - Summary.healthyRepos m data)%nat
      ∧ Summary.healthDetail m data = Str.of_nat k +:+ " need attention".
Proof.
  intros Hin Hapi Hstatic data.
  pose proof (refresh_error_entry env m failing e1 e2 Hin Hapi Hstatic) as Hstored.
  assert (Hsick : Summary.isHealthy data failing = false).
  { unfold Summary.isHealthy, data. by rewrite Hstored. }
  assert (Hlt : (Summary.healthyRepos m data < length (App.repos m))%nat).
  { unfold Summary.healthyRepos. apply (filter_length_lt _ _ failing); [done|].
    by rewrite Hsick. }
  split; [done|]. split; [done|].
  exists (length (App.repos m) - Summary.healthyRepos m data)%nat.
  split; [lia|]. split; [done|].
  unfold Summary.healthDetail.
  destruct (Nat.eqb_spec (Summary.healthyRepos m data) (length (App.repos m))); [lia|done].
Qed.

Lemma failed_repo_needs_attention_witness :
  Summary.healthDetail Sample.manifest (App.repoData (App.refresh Sample.world Sample.manifest))
  = "1 need attention".
Proof.
  destruct (failed_repo_needs_attention Sample.world Sample.manifest Sample.alpha
              FetchError FetchError ltac:(set_solver) eq_refl eq_refl)
    as (_ & _ & k & _ & Hk & Htext).
  rewrite Htext, Hk. vm_compute. reflexivity.
Defined.

(** ** Durations and relative times *)

Section Durations.

Lemma duration_unfold (cal : Dates.Calendar) (start end_ : JsVal) ts te :
  truthy start = true → truthy end_ = true →
  Dates.timeValue cal start = Some ts → Dates.timeValue cal end_ = Some te →
  0 <= te - ts →
  Dates.computeDuration cal start end_
  = let secs := (te - ts) / 1000 in
    if secs <? 60 then Some (Dates.show (Some secs) +:+ "s")
    else if secs / 60 <? 60
         then Some (Dates.show (Some (secs / 60)) +:+ "m "
                    +:+ Dates.show (Some (secs mod 60)) +:+ "s")
         else Some (Dates.show (Some (secs / 60 / 60)) +:+ "h "
                    +:+ Dates.show (Some ((secs / 60) mod 60)) +:+ "m").
Proof.
  intros Hs He Hts Hte Hpos. unfold Dates.computeDuration.
  rewrite Hs, He, Hts, Hte. simpl.
  destruct (Z.ltb_spec (te - ts) 0); [lia|done].
Qed.

End Durations.

(** X3.  For a start and an end that are valid dates, the end not before
    the start (and less than 2^53 ms after it), [computeDuration] prints
    whole seconds below a minute, minutes (1 to 59) and seconds (0 to 59)
    adding up to the whole seconds of the interval below an hour, and
    from an hour on hours (at least 1) and minutes (0 to 59) that are the
    interval cut down to the minute. *)
Theorem computeDuration_reads_back
    (cal : Dates.Calendar) (start end_ : JsVal) (ts te : Z) :
  truthy start = true → truthy end_ = true →
  Dates.timeValue cal start = Some ts → Dates.timeValue cal end_ = Some te →
  0 <= te - ts < 2 ^ 53 →
  let secs := (te - ts) / 1000 in
  1000 * secs <= te - ts < 1000 * secs + 1000
  ∧ (secs < 60 →
     Dates.computeDuration cal start end_ = Some (Dates.show (Some secs) +:+ "s"))
  ∧ (60 <= secs < 3600 →
     ∃ m s : Z,
       Dates.computeDuration cal start end_
       = Some (Dates.show (Some m) +:+ "m " +:+ Dates.show (Some s) +:+ "s")
       ∧ 1 <= m < 60 ∧ 0 <= s < 60 ∧ 60 * m + s = secs)
  ∧ (3600 <= secs →
     ∃ h m : Z,
       Dates.computeDuration cal start end_
       = Some (Dates.show (Some h) +:+ "h " +:+ Dates.show (Some m) +:+ "m")
       ∧ 1 <= h ∧ 0 <= m < 60
       ∧ 3600 * h + 60 * m <= secs < 3600 * h + 60 * m + 60).
Proof.
  intros Hs He Hts Hte [Hpos Hmax] secs.
  rewrite (duration_unfold cal start end_ ts te) by done. cbv zeta. fold secs.
  pose proof (Z.div_mod (te - ts) 1000 ltac:(done)) as Hms.
  pose proof (Z.mod_pos_bound (te - ts) 1000 ltac:(done)) as Hms'. fold secs in Hms.
  pose proof (Z.div_mod secs 60 ltac:(done)) as Hsecs.
  pose proof (Z.mod_pos_bound secs 60 ltac:(done)) as Hsecs'.
  pose proof (Z.div_mod (secs / 60) 60 ltac:(done)) as Hmins.
  pose proof (Z.mod_pos_bound (secs / 60) 60 ltac:(done)) as Hmins'.
  split; [lia|]. split; [|split].
  - intros Hlt. by destruct (Z.ltb_spec secs 60); [|lia].
  - intros [Hlo Hhi]. exists (secs / 60), (secs mod 60).
    destruct (Z.ltb_spec secs 60); [lia|].
    destruct (Z.ltb_spec (secs / 60) 60); [|lia].
    split; [done|]. lia.
  - intros Hlo. exists (secs / 60 / 60), ((secs / 60) mod 60).
    destruct (Z.ltb_spec secs 60); [lia|].
    destruct (Z.ltb_spec (secs / 60) 60); [lia|].
    split; [done|]. lia.
Qed.

Lemma computeDuration_reads_back_witness :
  Dates.computeDuration
    {| Dates.timeValue := λ v, match v with JNum n => Some n | _ => None end;
       Dates.now := 0; Dates.localeDate := λ _, "" |}
    (JNum 1000000) (JNum 4725999)
  = Some "1h 2m".
Proof.
  pose proof (computeDuration_reads_back
                {| Dates.timeValue := λ v, match v with JNum n => Some n | _ => None end;
                   Dates.now := 0; Dates.localeDate := λ _, "" |}
                (JNum 1000000) (JNum 4725999) 1000000 4725999
                eq_refl eq_refl eq_refl eq_refl ltac:(lia)) as (_ & _ & _ & Hh).
  destruct (Hh ltac:(vm_compute; discriminate)) as (h & m & _ & _).
  vm_compute. reflexivity.
Defined.

(** X4.  [computeDuration] returns the placeholder exactly when the start
    or the end is missing (falsy) or both are valid dates with the end
    before the start.  A start or an end that is present but not a valid
    date is not caught: the text is then "NaNh NaNm". *)
Theorem computeDuration_placeholder (cal : Dates.Calendar) (start end_ : JsVal) :
  (Dates.computeDuration cal start end_ = None
   ↔ truthy start = false ∨ truthy end_ = false
     ∨ ∃ ts te, Dates.timeValue cal start = Some ts
                ∧ Dates.timeValue cal end_ = Some te ∧ te < ts)
  ∧ (truthy start = true → truthy end_ = true →
     Dates.timeValue cal start = None ∨ Dates.timeValue cal end_ = None →
     Dates.computeDuration cal start end_ = Some "NaNh NaNm").
Proof.
  unfold Dates.computeDuration. split.
  - destruct (truthy start) eqn:Hs, (truthy end_) eqn:He; simpl;
      try (split; [auto|done]).
    destruct (Dates.timeValue cal end_) as [te|] eqn:Hte,
             (Dates.timeValue cal start) as [ts|] eqn:Hts.
    + destruct (Z.ltb_spec (te - ts) 0).
      * split; [|done]. intros _. right. right. exists ts, te. repeat split. lia.
      * split.
        -- cbv zeta. by repeat case_match.
        -- intros [?|[?|(ts' & te' & ? & ? & ?)]]; [done|done|]. simplify_eq. lia.
    + split; [done|]. intros [?|[?|(ts' & te' & ? & ? & ?)]]; done.
    + split; [done|]. intros [?|[?|(ts' & te' & ? & ? & ?)]]; done.
    + split; [done|]. intros [?|[?|(ts' & te' & ? & ? & ?)]]; done.
  - intros -> -> [Hnone|Hnone]; simpl; rewrite Hnone; [by case_match|done].
Qed.

Lemma computeDuration_placeholder_witness :
  Dates.computeDuration
    {| Dates.timeValue := λ _, None; Dates.now := 0; Dates.localeDate := λ _, "" |}
    (JStr "yesterday") (JStr "today")
  = Some "NaNh NaNm".
Proof.
  apply (proj2 (computeDuration_placeholder
                  {| Dates.timeValue := λ _, None; Dates.now := 0;
                     Dates.localeDate := λ _, "" |}
                  (JStr "yesterday") (JStr "today"))); [reflexivity|reflexivity|].
  left. reflexivity.
Defined.

(** X5.  For a valid date, [relativeTime] says "just now" for anything
    less than a minute old, dates in the future included; then whole
    minutes from 1 to 59, whole hours from 1 to 23 and whole days from 1
    to 6, each the age cut down to that unit; from seven days on it prints
    the calendar date. *)
Theorem relativeTime_buckets (cal : Dates.Calendar) (dateStr : JsVal) (t : Z) :
  truthy dateStr = true →
  Dates.timeValue cal dateStr = Some t →
  let age := Dates.now cal - t in
  (age < 60000 → Dates.relativeTime cal dateStr = Some "just now")
  ∧ (60000 <= age < 3600000 →
     ∃ n, Dates.relativeTime cal dateStr = Some (Dates.show (Some n) +:+ "m ago")
          ∧ 1 <= n <= 59 ∧ 60000 * n <= age < 60000 * (n + 1))
  ∧ (3600000 <= age < 86400000 →
     ∃ n, Dates.relativeTime cal dateStr = Some (Dates.show (Some n) +:+ "h ago")
          ∧ 1 <= n <= 23 ∧ 3600000 * n <= age < 3600000 * (n + 1))
  ∧ (86400000 <= age < 604800000 →
     ∃ n, Dates.relativeTime cal dateStr = Some (Dates.show (Some n) +:+ "d ago")
          ∧ 1 <= n <= 6 ∧ 86400000 * n <= age < 86400000 * (n + 1))
  ∧ (604800000 <= age →
     Dates.relativeTime cal dateStr = Some (Dates.localeDate cal dateStr)).
Proof.
  intros Htruthy Ht age. unfold Dates.relativeTime. rewrite Htruthy, Ht. simpl.
  fold age. change Dates.MIN with 60000. change Dates.HOUR with 3600000.
  change Dates.DAY with 86400000. change (7 * 86400000) with 604800000.
  pose proof (Z.div_mod age 60000 ltac:(done)) as Hm.
  pose proof (Z.mod_pos_bound age 60000 ltac:(done)) as Hm'.
  pose proof (Z.div_mod age 3600000 ltac:(done)) as Hh.
  pose proof (Z.mod_pos_bound age 3600000 ltac:(done)) as Hh'.
  pose proof (Z.div_mod age 86400000 ltac:(done)) as Hd.
  pose proof (Z.mod_pos_bound age 86400000 ltac:(done)) as Hd'.
  repeat split.
  - intros Hage. by destruct (Z.ltb_spec age 60000); [|lia].
  - intros Hage. exists (age / 60000).
    destruct (Z.ltb_spec age 60000); [lia|].
    destruct (Z.ltb_spec age 3600000); [|lia]. split; [done|lia].
  - intros Hage. exists (age / 3600000).
    destruct (Z.ltb_spec age 60000); [lia|].
    destruct (Z.ltb_spec age 3600000); [lia|].
    destruct (Z.ltb_spec age 86400000); [|lia]. split; [done|lia].
  - intros Hage. exists (age / 86400000).
    destruct (Z.ltb_spec age 60000); [lia|].
    destruct (Z.ltb_spec age 3600000); [lia|].
    destruct (Z.ltb_spec age 86400000); [lia|].
    destruct (Z.ltb_spec age 604800000); [|lia]. split; [done|lia].
  - intros Hage.
    destruct (Z.ltb_spec age 60000); [lia|].
    destruct (Z.ltb_spec age 3600000); [lia|].
    destruct (Z.ltb_spec age 86400000); [lia|].
    by destruct (Z.ltb_spec age 604800000); [lia|].
Qed.

Lemma relativeTime_buckets_witness :
  Dates.relativeTime
    {| Dates.timeValue := λ v, match v with JNum n => Some n | _ => None end;
       Dates.now := 1000000; Dates.localeDate := λ _, "Nov 3" |}
    (JNum 2000000)
  = Some "just now".
Proof.
  apply (relativeTime_buckets
           {| Dates.timeValue := λ v, match v with JNum n => Some n | _ => None end;
              Dates.now := 1000000; Dates.localeDate := λ _, "Nov 3" |}
           (JNum 2000000) 2000000 eq_refl eq_refl).
  vm_compute. reflexivity.
Defined.

(** ** What a normalised run and a snapshot always hold *)

Section Populated.

Implicit Types (clk : App.Clock) (run out : Obj).

Lemma normalizeRun_is_populated clk run : Shape.populated (App.normalizeRun clk run).
Proof.
  unfold Shape.populated, Shape.always_set, App.normalizeRun.
  repeat (apply Forall_cons; split; [read_fields; truthy_default|]).
  constructor.
Qed.

Lemma normalizeRun_dom clk run :
  dom (App.normalizeRun clk run)
  = list_to_set ["id"; "name"; "status"; "conclusion"; "html_url"; "created_at";
                 "updated_at"; "head_branch"; "head_sha"; "event"; "run_number";
                 "actor"; "run_started_at"].
Proof.
  unfold App.normalizeRun, obj. simpl. rewrite !dom_insert_L, dom_empty_L. set_solver.
Qed.

Lemma mapM_Ok_inv {A B} (f : A → Exc B) (l : list A) (ys : list B) :
  mapM f l = Ok ys → Forall2 (λ x y, f x = Ok y) l ys.
Proof.
  revert ys. induction l as [|x l IH]; intros ys; simpl.
  - intros [= <-]. constructor.
  - destruct (f x) as [y|e] eqn:Hx; [|done].
    destruct (mapM f l) as [ys'|e] eqn:Hl; [|done].
    intros [= <-]. constructor; [done|by apply IH].
Qed.

Lemma opt_member_props (v : JsVal) (o : Obj) (k : string) :
  props v = Ok o → opt_member v k = getp o k.
Proof. destruct v; simpl; intros [= <-]; done. Qed.

(** A successful [map(normalizeRun)]: the receiver is an array, every
    result is a normalised run, and the first result comes from the
    first element. *)
Lemma array_map_normalize (clock : nat → App.Clock) (v : JsVal) (runs : list Obj) :
  array_map (λ i r, App.normalizeRun_call (clock i) r) v = Ok runs →
  ∃ l, v = JArr l
       ∧ length runs = length l
       ∧ Forall Shape.normalised runs
       ∧ match l, runs with
         | x :: _, out :: _ => ∃ o, props x = Ok o ∧ out = App.normalizeRun (clock 0%nat) o
         | [], [] => True
         | _, _ => False
         end.
Proof.
  destruct v; try done. simpl. intros Hmap%mapM_Ok_inv. exists l. split; [done|].
  assert (Hlen : length runs = length l).
  { apply Forall2_length in Hmap. by rewrite length_zip_with, length_seq, Nat.min_id in Hmap. }
  split; [done|]. split.
  - eapply Forall2_Forall_r; [exact Hmap|].
    apply Forall_forall. intros [i x] _ out. simpl. unfold App.normalizeRun_call.
    destruct (props x) as [o|e]; simpl; [|done]. intros [= <-]. by eexists _, _.
  - destruct l as [|x l], runs as [|out runs]; try done.
    simpl in Hmap. apply Forall2_cons in Hmap as [Hx _]. simpl in Hx.
    unfold App.normalizeRun_call in Hx.
    destruct (props x) as [o|e]; simpl in Hx; [|done]. injection Hx as <-. eauto.
Qed.

Lemma tryApi_snapshot (env : App.Env) (m : App.Manifest) (repo : App.Repo) s :
  App.tryApi env m repo = Ok (Some s) → Shape.snapshot_ok s ∧ App.isStatic s = false.
Proof.
  unfold App.tryApi.
  destruct (App.fetchJSON env (App.apiUrl m repo)) as [data|e]; [|done]. simpl.
  destruct (if truthy data then member data "workflow_runs" else Ok data) as [wr|e]; [|done].
  simpl. destruct (truthy wr); [|done].
  destruct (array_map _ wr) as [runs|e] eqn:Hmap; [|done]. simpl.
  destruct (member data "total_count") as [tc|e]; [|done]. simpl.
  intros [= <-]. apply array_map_normalize in Hmap as (l & _ & _ & Hall & _).
  repeat split; simpl; eauto.
Qed.

Lemma tryStatic_snapshot (env : App.Env) (m : App.Manifest) (repo : App.Repo) s :
  App.tryStatic env m repo = Ok (Some s) → Shape.snapshot_ok s ∧ App.isStatic s = true.
Proof.
  unfold App.tryStatic.
  destruct (App.fetchJSON env (App.staticUrl m repo)) as [data|e]; [|done]. simpl.
  destruct (if truthy data then member data "runs" else Ok data) as [raw|e]; [|done].
  simpl. destruct (truthy raw); [|done].
  destruct (array_map _ raw) as [runs|e] eqn:Hmap; [|done]. simpl.
  intros [= <-]. apply array_map_normalize in Hmap as (l & -> & _ & Hall & Hhead).
  repeat split; simpl; eauto.
  destruct l as [|x l], runs as [|out runs]; try done.
  destruct Hhead as (o & Ho & ->). simpl.
  rewrite (opt_member_props x o) by done. unfold App.normalizeRun. by read_fields.
Qed.

Lemma fetchRepoData_cases (env : App.Env) (m : App.Manifest) (repo : App.Repo) s :
  App.fetchRepoData env m repo = Ok (Some s) →
  App.tryApi env m repo = Ok (Some s)
  ∨ ((∀ s', App.tryApi env m repo ≠ Ok (Some s')) ∧ App.tryStatic env m repo = Ok (Some s)).
Proof.
  unfold App.fetchRepoData.
  destruct (App.tryApi env m repo) as [[s1|]|e1]; simpl.
  - intros [= <-]. by left.
  - destruct (App.tryStatic env m repo) as [[s2|]|e2]; simpl; try done.
    intros [= <-]. right. split; [done|reflexivity].
  - destruct (App.tryStatic env m repo) as [[s2|]|e2]; simpl; try done.
    intros [= <-]. right. split; [done|reflexivity].
Qed.

End Populated.

(** X6.  A normalised run has exactly the thirteen properties of the
    object literal of [normalizeRun], and its name, status, conclusion,
    html_url, created_at, updated_at, head_branch and event are never
    empty (falsy), whatever the raw run lacked. *)
Theorem normalizeRun_required_fields (clk : App.Clock) (run : Obj) :
  dom (App.normalizeRun clk run)
  = list_to_set ["id"; "name"; "status"; "conclusion"; "html_url"; "created_at";
                 "updated_at"; "head_branch"; "head_sha"; "event"; "run_number";
                 "actor"; "run_started_at"]
  ∧ ∀ k, k ∈ ["name"; "status"; "conclusion"; "html_url"; "created_at"; "updated_at";
              "head_branch"; "event"] →
         truthy (getp (App.normalizeRun clk run) k) = true.
Proof.
  split; [apply normalizeRun_dom|].
  intros k Hk. pose proof (normalizeRun_is_populated clk run) as Hall.
  unfold Shape.populated in Hall. rewrite Forall_forall in Hall. by apply Hall.
Qed.

(** X7.  Whenever [fetchRepoData] returns a snapshot, from the API or
    from the static file, the snapshot carries no error flag, has a total
    count, its conclusion is the conclusion of its first run ("unknown"
    when it has no run), every run in it is a normalised run, and it is
    marked static exactly when the API attempt gave no snapshot. *)
Theorem fetchRepoData_snapshot_invariant
    (env : App.Env) (m : App.Manifest) (repo : App.Repo) (s : App.Snapshot) :
  App.fetchRepoData env m repo = Ok (Some s) →
  App.error s = false
  ∧ is_Some (App.totalCount s)
  ∧ App.conclusion s
    = match App.runs s with
      | r :: _ => getp r "conclusion"
      | [] => JStr "unknown"
      end
  ∧ Forall (λ out, ∃ clk o, out = App.normalizeRun clk o) (App.runs s)
  ∧ (App.isStatic s = true ↔ ∀ s', App.tryApi env m repo ≠ Ok (Some s')).
Proof.
  intros [Hapi|[Hnone Hstatic]]%fetchRepoData_cases.
  - destruct (tryApi_snapshot env m repo s Hapi) as ((He & Hc & Ht & Hr) & Hs).
    repeat split; try done.
    + rewrite Hs. done.
    + intros Hno. by destruct (Hno s).
  - destruct (tryStatic_snapshot env m repo s Hstatic) as ((He & Hc & Ht & Hr) & Hs).
    repeat split; done.
Qed.

Lemma fetchRepoData_snapshot_invariant_witness :
  ∃ s, App.fetchRepoData Sample.world Sample.manifest Sample.beta = Ok (Some s)
       ∧ App.error s = false ∧ App.conclusion s = JStr "success".
Proof.
  destruct (fetchRepoData_keeps_every_run Sample.world Sample.manifest Sample.beta
              (obj [("total_count", JNum 2);
                    ("workflow_runs", JArr [JObj Sample.copilot_run; JObj Sample.ci_run])])
              [Sample.copilot_run; Sample.ci_run] eq_refl eq_refl) as (s & Hs & Hruns).
  exists s. split; [exact Hs|].
  destruct (fetchRepoData_snapshot_invariant Sample.world Sample.manifest Sample.beta s Hs)
    as (He & _ & Hc & _).
  split; [exact He|]. rewrite Hc, Hruns. reflexivity.
Defined.

(** ** The runs collected by a refresh *)

Section Collected.

Implicit Types (env : App.Env) (m : App.Manifest) (repo : App.Repo).

Lemma allRuns_recordResult st repo result :
  App.allRuns (App.recordResult st (repo, result))
  = App.allRuns st ++ Shape.contribution repo result.
Proof. destruct result as [[v|]|e]; simpl; by rewrite ?app_nil_r. Qed.

Lemma allRuns_foldl (f : App.Repo → Exc (option App.Snapshot)) st (rs : list App.Repo) :
  App.allRuns (foldl App.recordResult st (zip rs (map f rs)))
  = App.allRuns st ++ mjoin ((λ repo, Shape.contribution repo (f repo)) <$> rs).
Proof.
  revert st. induction rs as [|repo rs IH]; intros st.
  - simpl. by rewrite app_nil_r.
  - cbn -[App.recordResult]. rewrite IH, allRuns_recordResult. by rewrite <- app_assoc.
Qed.

Lemma fetched_runs_normalised env m repo s :
  App.fetchRepoData env m repo = Ok (Some s) → Forall Shape.normalised (App.runs s).
Proof.
  intros [Hapi|[_ Hstatic]]%fetchRepoData_cases.
  - by destruct (tryApi_snapshot env m repo s Hapi) as ((_ & _ & _ & Hr) & _).
  - by destruct (tryStatic_snapshot env m repo s Hstatic) as ((_ & _ & _ & Hr) & _).
Qed.

End Collected.

(** X8.  After a refresh, [allRuns] holds exactly the runs of the
    snapshots that [fetchRepoData] returned for the repositories of the
    manifest, each with its repository attached as [_repo]; a repository
    without a snapshot contributes nothing.  Every run in [allRuns] has a
    non-empty name, status, conclusion, html_url, created_at, updated_at,
    head_branch and event. *)
Theorem refresh_allRuns_tagged (env : App.Env) (m : App.Manifest) (r : Obj) :
  (r ∈ App.allRuns (App.refresh env m)
   ↔ ∃ repo s out,
       repo ∈ App.repos m
       ∧ App.fetchRepoData env m repo = Ok (Some s)
       ∧ out ∈ App.runs s
       ∧ r = <["_repo" := App.repo_value repo]> out)
  ∧ (r ∈ App.allRuns (App.refresh env m) →
     ∀ k, k ∈ ["name"; "status"; "conclusion"; "html_url"; "created_at"; "updated_at";
               "head_branch"; "event"] →
          truthy (getp r k) = true).
Proof.
  assert (Hiff : r ∈ App.allRuns (App.refresh env m)
                 ↔ ∃ repo s out,
                     repo ∈ App.repos m
                     ∧ App.fetchRepoData env m repo = Ok (Some s)
                     ∧ out ∈ App.runs s
                     ∧ r = <["_repo" := App.repo_value repo]> out).
  { unfold App.refresh. rewrite allRuns_foldl. simpl.
    rewrite list_elem_of_join. split.
    - intros (l & Hr & Hl). apply list_elem_of_fmap in Hl as (repo & -> & Hrepo).
      unfold Shape.contribution in Hr.
      destruct (App.fetchRepoData env m repo) as [[s|]|e] eqn:Hf;
        try by apply elem_of_nil in Hr.
      apply list_elem_of_fmap in Hr as (out & -> & Hout). by exists repo, s, out.
    - intros (repo & s & out & Hrepo & Hf & Hout & ->).
      exists (Shape.contribution repo (App.fetchRepoData env m repo)). split.
      + rewrite Hf. simpl. apply list_elem_of_fmap. by exists out.
      + apply list_elem_of_fmap. by exists repo. }
  split; [exact Hiff|].
  intros (repo & s & out & Hrepo & Hf & Hout & ->)%Hiff k Hk.
  pose proof (fetched_runs_normalised env m repo s Hf) as Hall.
  rewrite Forall_forall in Hall. destruct (Hall out Hout) as (clk & o & ->).
  pose proof (normalizeRun_is_populated clk o) as Hpop.
  unfold Shape.populated in Hpop. rewrite Forall_forall in Hpop.
  specialize (Hpop k Hk).
  assert (Hne : "_repo" ≠ k).
  { intros <-. set_solver. }
  unfold getp in *. by rewrite lookup_insert_ne.
Qed.

Lemma refresh_allRuns_tagged_witness :
  truthy (getp (<["_repo" := App.repo_value Sample.beta]>
                  (App.normalizeRun Sample.clock Sample.copilot_run)) "html_url") = true.
Proof.
  destruct (fetchRepoData_keeps_every_run Sample.world Sample.manifest Sample.beta
              (obj [("total_count", JNum 2);
                    ("workflow_runs", JArr [JObj Sample.copilot_run; JObj Sample.ci_run])])
              [Sample.copilot_run; Sample.ci_run] eq_refl eq_refl) as (s & Hs & Hruns).
  apply (proj2 (refresh_allRuns_tagged Sample.world Sample.manifest
                  (<["_repo" := App.repo_value Sample.beta]>
                     (App.normalizeRun Sample.clock Sample.copilot_run)))).
  - apply (proj2 (proj1 (refresh_allRuns_tagged Sample.world Sample.manifest _))).
    exists Sample.beta, s, (App.normalizeRun Sample.clock Sample.copilot_run).
    split; [apply list_elem_of_In; right; left; reflexivity|].
    split; [exact Hs|]. split; [|reflexivity].
    rewrite Hruns. apply list_elem_of_here.
  - set_solver.
Defined.

(** ** Live answer and static fallback *)

Section Fallback.

Implicit Types (env : App.Env) (m : App.Manifest) (repo : App.Repo).

Lemma mapM_throws {A B} (f : A → Exc B) (l : list A) (x : A) :
  x ∈ l → (∃ e, f x = Throw e) → ∃ e, mapM f l = Throw e.
Proof.
  induction l as [|y l IH]; intros Hin Hx; [by apply elem_of_nil in Hin|].
  simpl. apply elem_of_cons in Hin as [<-|Hin].
  - destruct Hx as [e ->]. eauto.
  - destruct (f y) as [b|e]; [|eauto].
    destruct (IH Hin Hx) as [e ->]. eauto.
Qed.

Lemma elem_of_zip_seq {A} (l : list A) (x : A) (from : nat) :
  x ∈ l → ∃ i, (i, x) ∈ zip (seq from (length l)) l.
Proof.
  revert from. induction l as [|y l IH]; intros from Hin; [by apply elem_of_nil in Hin|].
  apply elem_of_cons in Hin as [->|Hin]; simpl.
  - exists from. by left.
  - destruct (IH (S from) Hin) as [i Hi]. exists i. by right.
Qed.

Lemma zip_with_normalize_ids (clock : nat → App.Clock) (rs : list Obj) (from : nat) :
  (λ r, getp r "id") <$> zip_with (λ i r, App.normalizeRun (clock i) r) (seq from (length rs)) rs
  = (λ r, getp r "id") <$> rs.
Proof.
  revert from. induction rs as [|r rs IH]; intros from; [done|].
  simpl. rewrite IH. by f_equal.
Qed.

End Fallback.

(** X9.  A live API answer that lists runs is final, also when the list
    is empty: [fetchRepoData] returns a snapshot that is not marked
    static, with one run per listed run in the same order (the ids are
    those of the list), and for an empty list a snapshot without runs and
    with conclusion "unknown"; the static file plays no part.  But one
    [null] entry in the live list discards the whole live answer: the
    result is then what the static file gives. *)
Theorem live_answer_final_unless_broken
    (env : App.Env) (m : App.Manifest) (repo : App.Repo) (data : Obj) :
  App.fetchJSON env (App.apiUrl m repo) = Ok (JObj data) →
  (∀ rs : list Obj,
     getp data "workflow_runs" = JArr (JObj <$> rs) →
     ∃ s, App.fetchRepoData env m repo = Ok (Some s)
          ∧ App.isStatic s = false
          ∧ (λ r, getp r "id") <$> App.runs s = (λ r, getp r "id") <$> rs
          ∧ (rs = [] → App.runs s = [] ∧ App.conclusion s = JStr "unknown"))
  ∧ (∀ l : list JsVal,
       getp data "workflow_runs" = JArr l → JNull ∈ l →
       App.fetchRepoData env m repo
       = match App.tryStatic env m repo with
         | Ok (Some s) => Ok (Some s)
         | _ => Ok None
         end).
Proof.
  intros Hfetch. split.
  - intros rs Hruns.
    destruct (fetchRepoData_keeps_every_run env m repo data rs Hfetch Hruns)
      as (s & Hs & Hr).
    exists s. split; [done|].
    destruct (fetchRepoData_cases env m repo s Hs) as [Hapi|[Hno Hstatic]].
    + destruct (tryApi_snapshot env m repo s Hapi) as ((_ & Hc & _) & Hlive).
      split; [done|]. split.
      * rewrite Hr. apply zip_with_normalize_ids.
      * intros ->. simpl in Hr. split; [done|]. by rewrite Hc, Hr.
    + exfalso. revert Hno. unfold App.tryApi. rewrite Hfetch.
      cbn [mbind Exc_bind truthy member props]. rewrite Hruns.
      cbn [truthy array_map]. rewrite length_fmap, mapM_normalize.
      cbn [mbind Exc_bind]. intros Hno. by eapply Hno.
  - intros l Hruns Hnull.
    assert (Hthrow : ∃ e, App.tryApi env m repo = Throw e).
    { unfold App.tryApi. rewrite Hfetch.
      cbn [mbind Exc_bind truthy member props]. rewrite Hruns. cbn [truthy array_map].
      destruct (elem_of_zip_seq l JNull 0 Hnull) as [i Hi].
      destruct (mapM_throws
                  (λ ix : nat * JsVal,
                     App.normalizeRun_call (App.clock env (App.apiUrl m repo) ix.1) ix.2)
                  _ (i, JNull) Hi) as [e ->]; [by exists TypeError|].
      eauto. }
    destruct Hthrow as [e He]. unfold App.fetchRepoData. rewrite He. simpl.
    by destruct (App.tryStatic env m repo) as [[s|]|e'].
Qed.

Lemma live_answer_final_unless_broken_witness :
  ∃ s, App.fetchRepoData Sample.world Sample.manifest Sample.beta = Ok (Some s)
       ∧ (λ r, getp r "id") <$> App.runs s = [JNum 202; JNum 201].
Proof.
  destruct (proj1 (live_answer_final_unless_broken Sample.world Sample.manifest Sample.beta
                     (obj [("total_count", JNum 2);
                           ("workflow_runs", JArr [JObj Sample.copilot_run; JObj Sample.ci_run])])
                     eq_refl)
              [Sample.copilot_run; Sample.ci_run] eq_refl) as (s & Hs & _ & Hids & _).
  exists s. split; [exact Hs|]. rewrite Hids. vm_compute. reflexivity.
Defined.

(** ** What the annotation parser stores *)

Section Stored.

Implicit Types (s t : string) (c : ascii) (m : Obj).

Lemma trimStart_starts s : Shape.starts_ws (Str.trimStart s) = false.
Proof.
  induction s as [|c s IH]; [done|]. simpl.
  destruct (Str.is_ws c) eqn:Hc; [done|]. simpl. done.
Qed.

Lemma trimEnd_cases c s :
  Str.trimEnd (String c s) = "" ∨ ∃ t, Str.trimEnd (String c s) = String c t.
Proof.
  simpl. destruct (Str.trimEnd s); [destruct (Str.is_ws c)|]; eauto.
Qed.

Lemma trimEnd_starts s :
  Shape.starts_ws s = false → Shape.starts_ws (Str.trimEnd s) = false.
Proof.
  destruct s as [|c s]; [done|]. intros Hc.
  destruct (trimEnd_cases c s) as [->|[t ->]]; done.
Qed.

Lemma trimEnd_ends s : Shape.ends_ws (Str.trimEnd s) = false.
Proof.
  induction s as [|c s IH]; [done|]. simpl.
  destruct (Str.trimEnd s) as [|d t] eqn:Ht.
  - destruct (Str.is_ws c) eqn:Hc; simpl; done.
  - done.
Qed.

Lemma trim_trimmed s : Shape.trimmed (Str.trim s) = true.
Proof.
  unfold Shape.trimmed, Str.trim.
  by rewrite trimEnd_starts, trimEnd_ends by apply trimStart_starts.
Qed.

Lemma trimStart_free c s :
  Str.free_of c s = true → Str.free_of c (Str.trimStart s) = true.
Proof.
  induction s as [|d s IH]; [done|]. simpl. intros H.
  destruct (Str.is_ws d); [|done]. apply IH. by bool_hyps.
Qed.

Lemma trimEnd_free c s :
  Str.free_of c s = true → Str.free_of c (Str.trimEnd s) = true.
Proof.
  induction s as [|d s IH]; [done|]. simpl. intros H. bool_hyps.
  destruct (Str.trimEnd s) as [|e t] eqn:Ht.
  - destruct (Str.is_ws d); simpl; [done|]. by rewrite H.
  - change (Str.free_of c (String d (String e t)))
      with (negb (Ascii.eqb d c) && Str.free_of c (String e t)).
    by rewrite H, IH.
Qed.

Lemma trim_free c s : Str.free_of c s = true → Str.free_of c (Str.trim s) = true.
Proof. intros H. by apply trimEnd_free, trimStart_free. Qed.

(** The pieces of [s.split(c)] hold no [c], and no other character that
    [s] does not hold. *)
Lemma split_pieces_free c s :
  Forall (λ p, Str.free_of c p = true) (Str.split c s).
Proof.
  induction s as [|d s IH]; simpl; [by repeat constructor|].
  destruct (Ascii.eqb d c) eqn:Hd; [by constructor|].
  pose proof (split_nonempty c s) as Hne.
  destruct (Str.split c s) as [|p ps]; [done|].
  apply Forall_cons in IH as [Hp Hps]. constructor; [|done].
  simpl. by rewrite Hd, Hp.
Qed.

Lemma split_pieces_keep_free c d s :
  Str.free_of d s = true → Forall (λ p, Str.free_of d p = true) (Str.split c s).
Proof.
  induction s as [|e s IH]; simpl; [by repeat constructor|].
  intros H. bool_hyps. specialize (IH H0).
  pose proof (split_nonempty c s) as Hne.
  destruct (Str.split c s) as [|p ps]; [done|].
  apply Forall_cons in IH as [Hp Hps].
  destruct (Ascii.eqb e c); constructor; simpl; try done.
  - by constructor.
  - by rewrite H, Hp.
Qed.

(** [s1 + "|" + s2] splits into the parts of [s1] followed by the parts
    of [s2]. *)
Lemma split_concat c s t :
  Str.split c (s +:+ String c t) = Str.split c s ++ Str.split c t.
Proof.
  induction s as [|d s IH].
  - simpl. by rewrite Ascii.eqb_refl.
  - change (String d s +:+ String c t) with (String d (s +:+ String c t)).
    simpl. rewrite IH.
    pose proof (split_nonempty c s) as Hne.
    destruct (Str.split c s) as [|p ps]; [done|].
    by destruct (Ascii.eqb d c).
Qed.

(** One step stores nothing or one entry made of the first two pieces of
    the part. *)
Lemma step_cases m part :
  Detail.parseKeyVal_step m part = m
  ∨ ∃ k0 v0 rest,
      Str.split "="%char part = k0 :: v0 :: rest ∧ k0 ≠ ""
      ∧ Detail.parseKeyVal_step m part = <[Str.trim k0 := JStr (Str.trim v0)]> m.
Proof.
  unfold Detail.parseKeyVal_step, Detail.destructure2.
  destruct (Str.split "="%char part) as [|k0 [|v0 rest]]; simpl; [by left..|].
  destruct k0 as [|c k0]; simpl; [by left|].
  unfold Detail.assign. destruct (String.eqb _ "__proto__"); [by left|].
  right. by exists (String c k0), v0, rest.
Qed.

Lemma step_union m part :
  Detail.parseKeyVal_step m part = Detail.parseKeyVal_step ∅ part ∪ m.
Proof.
  unfold Detail.parseKeyVal_step.
  destruct (Detail.destructure2 _) as [[k|] [v|]]; rewrite ?(left_id_L ∅ (∪)); try done.
  destruct (truthy (JStr k)); rewrite ?(left_id_L ∅ (∪)); [|done].
  unfold Detail.assign. destruct (String.eqb _ "__proto__");
    rewrite ?(left_id_L ∅ (∪)); [done|].
  by rewrite insert_union_singleton_l, insert_empty.
Qed.

Lemma foldl_step_union m (parts : list string) :
  foldl Detail.parseKeyVal_step m parts = foldl Detail.parseKeyVal_step ∅ parts ∪ m.
Proof.
  revert m. induction parts as [|p parts IH]; intros m; cbn [foldl].
  - by rewrite (left_id_L ∅ (∪)).
  - rewrite (IH (Detail.parseKeyVal_step m p)), (IH (Detail.parseKeyVal_step ∅ p)).
    by rewrite (step_union m p), (assoc_L (∪)).
Qed.

(** The origin of an entry: a part of the input with a non-empty text
    before its first [=]. *)
Abbreviation from_part := (λ (parts : list string) (k : string) (v : JsVal),
  ∃ part k0 v0 rest,
    part ∈ parts ∧ Str.split "="%char part = k0 :: v0 :: rest ∧ k0 ≠ ""
    ∧ k = Str.trim k0 ∧ v = JStr (Str.trim v0)).

Lemma foldl_step_origin m (parts : list string) k v :
  foldl Detail.parseKeyVal_step m parts !! k = Some v →
  m !! k = Some v ∨ from_part parts k v.
Proof.
  revert m. induction parts as [|p parts IH]; intros m; cbn [foldl]; [by left|].
  intros H. apply IH in H as [H|(part & k0 & v0 & rest & Hin & Hrest)].
  - destruct (step_cases m p) as [Hp|(k0 & v0 & rest & Hsplit & Hk0 & Hp)];
      rewrite Hp in H; [by left|].
    destruct (decide (k = Str.trim k0)) as [->|Hne].
    + rewrite lookup_insert_eq in H. injection H as <-.
      right. exists p, k0, v0, rest. split; [by left|done].
    + rewrite lookup_insert_ne in H by done. by left.
  - right. exists part, k0, v0, rest. split; [by right|done].
Qed.

End Stored.

(** X10.  Whatever string [parseKeyVal] is given, every entry of the
    object it returns comes from one part of the input between two [|]
    that has a non-empty text before its first [=]: the key is that
    text trimmed, the value the trimmed text up to the second [=].  So
    every key and every value is a string that neither begins nor ends
    with white space and contains neither [|] nor [=]. *)
Theorem parseKeyVal_stores_clean_text (s : string) :
  ∃ m, Detail.parseKeyVal (JStr s) = Ok m
       ∧ ∀ k v, m !! k = Some v →
           ∃ part k0 v0 rest,
             part ∈ Str.split "|"%char s
             ∧ Str.split "="%char part = k0 :: v0 :: rest ∧ k0 ≠ ""
             ∧ k = Str.trim k0 ∧ v = JStr (Str.trim v0)
             ∧ Shape.clean k = true ∧ Shape.clean (Str.trim v0) = true.
Proof.
  exists (foldl Detail.parseKeyVal_step ∅ (Str.split "|"%char s)).
  split; [apply parseKeyVal_string|].
  intros k v H. apply foldl_step_origin in H as [H|H]; [done|].
  destruct H as (part & k0 & v0 & rest & Hin & Hsplit & Hk0 & -> & ->).
  exists part, k0, v0, rest. repeat (split; [done|]).
  pose proof (split_pieces_free "|"%char s) as Hbar.
  rewrite Forall_forall in Hbar. specialize (Hbar part Hin).
  pose proof (split_pieces_keep_free "="%char "|"%char part Hbar) as Hbar'.
  pose proof (split_pieces_free "="%char part) as Heq.
  rewrite Hsplit in Hbar', Heq.
  apply Forall_cons in Hbar' as [Hk1 [Hv1 _]%Forall_cons].
  apply Forall_cons in Heq as [Hk2 [Hv2 _]%Forall_cons].
  unfold Shape.clean. by rewrite !trim_trimmed, !trim_free.
Qed.

(** X11.  Parsing [s1 + "|" + s2] gives the entries of [s2] together
    with those entries of [s1] whose key [s2] does not set: the parser
    can be run on the two halves and the results merged, the later half
    winning. *)
Theorem parseKeyVal_concat (s1 s2 : string) :
  ∃ m1 m2 : Obj,
    Detail.parseKeyVal (JStr s1) = Ok m1
    ∧ Detail.parseKeyVal (JStr s2) = Ok m2
    ∧ Detail.parseKeyVal (JStr (s1 +:+ String "|"%char s2)) = Ok (m2 ∪ m1).
Proof.
  eexists _, _. rewrite !parseKeyVal_string. repeat split.
  by rewrite split_concat, foldl_app, foldl_step_union.
Qed.

Example parseKeyVal_blank_key :
  Detail.parseKeyVal (JStr " =x") = Ok (obj [("", JStr "x")]).
Proof. reflexivity. Qed.

(** ** The insight panels *)

Section Breakdown.

Import Insights.
Local Open Scope nat_scope.

Lemma own_put_eq {V} (o : list (string * V)) k v : own (put k v o) k = Some v.
Proof.
  induction o as [|[k' v'] o IH]; simpl.
  - by rewrite String.eqb_refl.
  - destruct (String.eqb k' k) eqn:Hk; simpl; by rewrite Hk.
Qed.

Lemma own_put_ne {V} (o : list (string * V)) k k' v :
  k ≠ k' → own (put k v o) k' = own o k'.
Proof.
  intros Hne. induction o as [|[k0 v0] o IH]; simpl.
  - destruct (String.eqb k k') eqn:Hk; [|done]. by apply String.eqb_eq in Hk.
  - destruct (String.eqb k0 k) eqn:Hk; simpl; [|by rewrite IH].
    apply String.eqb_eq in Hk as ->.
    destruct (String.eqb k k') eqn:Hk; [|done]. by apply String.eqb_eq in Hk.
Qed.

Lemma own_None {V} (o : list (string * V)) k : own o k = None ↔ k ∉ o.*1.
Proof.
  induction o as [|[k' v'] o IH]; simpl.
  - split; [intros _; apply not_elem_of_nil|done].
  - rewrite not_elem_of_cons. destruct (String.eqb k' k) eqn:Hk.
    + apply String.eqb_eq in Hk as ->. split; [done|]. by intros [? _].
    + apply String.eqb_neq in Hk. rewrite IH. naive_solver.
Qed.

Lemma own_Some_key {V} (o : list (string * V)) k v : own o k = Some v → k ∈ o.*1.
Proof.
  intros Hk. destruct (decide (k ∈ o.*1)) as [|Hn]; [done|].
  apply own_None in Hn. congruence.
Qed.

Lemma keys_put {V} (o : list (string * V)) k v :
  (put k v o).*1 = match own o k with Some _ => o.*1 | None => o.*1 ++ [k] end.
Proof.
  induction o as [|[k' v'] o IH]; [done|].
  cbn [put own]. destruct (String.eqb k' k) eqn:Hk; [done|].
  rewrite !fmap_cons, IH. by destruct (own o k).
Qed.

Lemma NoDup_put {V} (o : list (string * V)) k v :
  NoDup o.*1 → NoDup (put k v o).*1.
Proof.
  intros Hnd. rewrite keys_put. destruct (own o k) eqn:Hk; [done|].
  apply own_None in Hk. apply NoDup_app. repeat split; [done| |apply NoDup_singleton].
  intros x Hx ->%list_elem_of_singleton. done.
Qed.

Lemma elem_of_own {V} (o : list (string * V)) k v :
  NoDup o.*1 → (k, v) ∈ o ↔ own o k = Some v.
Proof.
  induction o as [|[k' v'] o IH]; intros Hnd.
  - split; [by intros ?%elem_of_nil|done].
  - rewrite fmap_cons in Hnd. apply NoDup_cons in Hnd as [Hk' Hnd].
    rewrite elem_of_cons, (IH Hnd). cbn [own].
    destruct (String.eqb k' k) eqn:Hk.
    + apply String.eqb_eq in Hk as ->. split.
      * intros [[= ->]|Hown]; [done|]. exfalso. apply Hk'.
        by eapply own_Some_key.
      * intros [= ->]. by left.
    + apply String.eqb_neq in Hk. split; [|by right].
      intros [[= -> ->]|]; done.
Qed.

Lemma insert_by_Permutation {A} (le : A → A → bool) x l : insert_by le x l ≡ₚ x :: l.
Proof.
  induction l as [|y l IH]; simpl; [done|].
  destruct (le x y); [done|]. rewrite IH. apply Permutation_swap.
Qed.

Lemma sort_by_Permutation {A} (le : A → A → bool) l : sort_by le l ≡ₚ l.
Proof.
  induction l as [|x l IH]; simpl; [done|].
  by rewrite insert_by_Permutation, IH.
Qed.

Lemma filter_partition {A} (f : A → bool) l :
  List.filter f l ++ List.filter (λ x, negb (f x)) l ≡ₚ l.
Proof.
  induction l as [|x l IH]; simpl; [done|].
  destruct (f x); simpl.
  - by rewrite IH.
  - by rewrite <- Permutation_middle, IH.
Qed.

Lemma entries_Permutation {V} (o : list (string * V)) : entries o ≡ₚ o.
Proof.
  unfold entries. rewrite sort_by_Permutation.
  apply (filter_partition (λ e, bool_decide (is_Some (index_of e.1)))).
Qed.

Lemma sort_desc_Permutation {A} (w : A → nat) l : sort_desc w l ≡ₚ l.
Proof. apply sort_by_Permutation. Qed.

Lemma sort_desc_sorted {A} (w : A → nat) l :
  StronglySorted (λ a b, w b ≤ w a) (sort_desc w l).
Proof.
  unfold sort_desc, sort_by.
  induction l as [|x l IH]; simpl; [constructor|].
  induction IH as [|y l' Hl' IH' Hy]; simpl.
  - repeat constructor.
  - destruct (w y <=? w x)%nat eqn:Hle.
    + apply Nat.leb_le in Hle. constructor; [by constructor|].
      constructor; [done|]. eapply Forall_impl; [exact Hy|]. simpl. lia.
    + apply Nat.leb_gt in Hle. constructor; [done|].
      rewrite insert_by_Permutation. constructor; [lia|done].
Qed.

Lemma sorted_split {A} (R : A → A → Prop) l1 l2 x y :
  StronglySorted R (l1 ++ l2) → x ∈ l1 → y ∈ l2 → R x y.
Proof.
  induction l1 as [|z l1 IH]; simpl; [by intros _ ?%elem_of_nil|].
  intros Hs Hx Hy. apply StronglySorted_inv in Hs as [Hs Hz].
  apply elem_of_cons in Hx as [->|Hx]; [|by apply IH].
  rewrite Forall_forall in Hz. apply Hz. apply elem_of_app. by right.
Qed.

Lemma filter_and_le {A} (P Q : A → Prop) `{!∀ x, Decision (P x)} `{!∀ x, Decision (Q x)}
    (l : list A) :
  length (filter (λ x, P x ∧ Q x) l) ≤ length (filter P l).
Proof.
  induction l as [|x l IH]; [done|].
  rewrite !filter_cons. destruct (decide (P x)), (decide (P x ∧ Q x)); simpl; try lia.
  naive_solver.
Qed.

Abbreviation counts_of h key runs :=
  (foldl (λ counts r, count_at h (key r) (App.isSuccess r) counts) [] runs).

Abbreviation authors_of h runs :=
  (foldl (λ authors r, match credited h r with
                       | Some key => credit key r authors
                       | None => authors
                       end) [] runs).

Abbreviation branches_of h key runs :=
  (foldl (λ branches r, branch_at h (key r) branches) [] runs).

(** A fold of steps that all succeed. *)
Lemma foldl_Some {A B} (f : A → B → option A) (g : A → B → A) (l : list B) (a : A) :
  Forall (λ x, ∀ a, f a x = Some (g a x)) l →
  foldl (λ acc x, a ← acc; f a x) (Some a) l = Some (foldl g a l).
Proof.
  revert a. induction l as [|x l IH]; intros a Hall; [done|].
  apply Forall_cons in Hall as [Hx Hl]. cbn [foldl]. simpl. rewrite Hx. by apply IH.
Qed.

Lemma filter_ext_Forall {A} (P Q : A → Prop) `{!∀ x, Decision (P x)} `{!∀ x, Decision (Q x)}
    (l : list A) :
  Forall (λ x, P x ↔ Q x) l → filter P l = filter Q l.
Proof.
  induction l as [|x l IH]; [done|]. intros [Hx Hl]%Forall_cons.
  rewrite !filter_cons, (IH Hl).
  destruct (decide (P x)), (decide (Q x)); naive_solver.
Qed.

Lemma default_key (key : Obj → option string) (r : Obj) (name : string) :
  is_Some (key r) → default "" (key r) = name ↔ key r = Some name.
Proof. intros [n ->]. simpl. naive_solver. Qed.

Lemma tally_snoc h key runs r :
  counts_of h key (runs ++ [r])
  = count_at h (key r) (App.isSuccess r) (counts_of h key runs).
Proof. by rewrite foldl_app. Qed.

Lemma tally_NoDup h key runs : NoDup (counts_of h key runs).*1.
Proof.
  induction runs as [|r runs IH] using rev_ind; [constructor|].
  rewrite tally_snoc. unfold count_at at 1.
  destruct (decide (key r ∈ inherited h)); [done|]. by apply NoDup_put.
Qed.

(** What the tally holds under a name. *)
Lemma tally_own h key runs k :
  own (counts_of h key runs) k
  = if decide (k ∈ inherited h) then None
    else match length (filter (λ r, key r = k) runs) with
         | O => None
         | S n =>
             Some {| total := S n;
                     success := length (filter (λ r, key r = k ∧ App.isSuccess r = true) runs) |}
         end.
Proof.
  induction runs as [|r runs IH] using rev_ind.
  { simpl. by destruct (decide _). }
  rewrite tally_snoc. unfold count_at at 1. rewrite !filter_app, !length_app.
  rewrite !filter_cons, !filter_nil.
  destruct (decide (key r = k)) as [Hk|Hk].
  - subst k. destruct (decide (key r ∈ inherited h)) as [Hin|Hin].
    { by rewrite IH. }
    rewrite own_put_eq, IH.
    pose proof (filter_and_le (λ x, key x = key r) (λ x, App.isSuccess x = true) runs) as Hle.
    destruct (length (filter (λ x, key x = key r) runs)) as [|n] eqn:Hn.
    + assert (length (filter (λ x, key x = key r ∧ App.isSuccess x = true) runs) = 0%nat)
        as -> by lia.
      unfold bump. simpl. destruct (App.isSuccess r) eqn:Hr.
      * by rewrite decide_True.
      * rewrite decide_False; [done|]. intros [_ ?]. congruence.
    + unfold bump. simpl. rewrite Nat.add_1_r. f_equal. f_equal.
      destruct (App.isSuccess r) eqn:Hr.
      * rewrite decide_True by done. simpl. lia.
      * rewrite decide_False; [simpl; lia|]. intros [_ ?]. congruence.
  - rewrite (decide_False (P := key r = k ∧ _)) by naive_solver.
    simpl. rewrite !Nat.add_0_r.
    destruct (decide (key r ∈ inherited h)); [done|].
    by rewrite own_put_ne.
Qed.

Lemma sum_put {V} (g : V → nat) (o : list (string * V)) k v :
  sum_list_with (λ e, g e.2) (put k v o) + from_option g 0 (own o k)
  = sum_list_with (λ e, g e.2) o + g v.
Proof.
  induction o as [|[k' v'] o IH]; simpl; [lia|].
  destruct (String.eqb k' k); simpl; lia.
Qed.

Lemma count_at_unfold h name ok (counts : list (string * Tally)) :
  count_at h name ok counts
  = if decide (name ∈ inherited h) then counts
    else put name (bump ok (own counts name)) counts.
Proof. done. Qed.

Lemma tally_sums h key runs :
  sum_list_with (λ e, total e.2) (counts_of h key runs)
  = length (filter (λ r, key r ∉ inherited h) runs)
  ∧ sum_list_with (λ e, success e.2) (counts_of h key runs)
    = length (filter (λ r, (key r ∉ inherited h) ∧ App.isSuccess r = true) runs).
Proof.
  induction runs as [|r runs [IH1 IH2]] using rev_ind; [done|].
  rewrite tally_snoc, !count_at_unfold. rewrite !filter_app, !length_app.
  rewrite !filter_cons, !filter_nil.
  destruct (decide (key r ∈ inherited h)) as [Hin|Hin].
  - rewrite decide_False by naive_solver.
    rewrite (decide_False (P := _ ∧ _)) by naive_solver. simpl. lia.
  - rewrite decide_True by done.
    pose proof (sum_put total (counts_of h key runs) (key r)
                  (bump (App.isSuccess r) (own (counts_of h key runs) (key r)))) as H1.
    pose proof (sum_put success (counts_of h key runs) (key r)
                  (bump (App.isSuccess r) (own (counts_of h key runs) (key r)))) as H2.
    unfold bump in *. simpl.
    destruct (own (counts_of h key runs) (key r)) as [[t s]|]; simpl in *;
      destruct (App.isSuccess r) eqn:Hr;
      rewrite ?decide_True by done;
      rewrite ?(decide_False (P := _ ∧ _)) by (intros [_ ?]; congruence);
      simpl; lia.
Qed.

(** The rows of a tally panel. *)
Lemma tally_rows h key runs name c :
  (name, c) ∈ sort_desc (λ e, total e.2) (entries (counts_of h key runs))
  ↔ (name ∉ inherited h)
    ∧ 0 < total c
    ∧ total c = length (filter (λ r, key r = name) runs)
    ∧ success c = length (filter (λ r, key r = name ∧ App.isSuccess r = true) runs).
Proof.
  rewrite sort_desc_Permutation, entries_Permutation.
  rewrite (elem_of_own _ _ _ (tally_NoDup h key runs)), tally_own.
  destruct (decide (name ∈ inherited h)) as [Hin|Hin]; [naive_solver|].
  destruct (length (filter (λ r, key r = name) runs)) as [|n].
  - split; [done|]. lia.
  - split.
    + intros [= <-]. simpl. repeat split; [done|lia].
    + intros (_ & _ & Ht & Hs). destruct c as [t s']. simpl in *. by subst.
Qed.

Lemma foldr_max_le (l : list nat) (x : nat) : x ∈ l → x ≤ foldr Nat.max 1 l.
Proof.
  induction l as [|y l IH]; [by intros ?%elem_of_nil|].
  intros [->|Hx]%elem_of_cons; simpl; [lia|]. specialize (IH Hx). lia.
Qed.

Lemma foldr_max_ge_1 (l : list nat) : 1 ≤ foldr Nat.max 1 l.
Proof. induction l; simpl; lia. Qed.

Lemma tally_strings h (key : Obj → option string) runs :
  Forall (λ r, is_Some (key r)) runs →
  tally h key runs = Some (counts_of h (λ r, default "" (key r)) runs).
Proof.
  intros Hall. unfold tally. apply foldl_Some.
  eapply Forall_impl; [exact Hall|]. intros r [name Hname] counts.
  unfold count_step. by rewrite Hname.
Qed.

(** The rows of a tally panel fed string names. *)
Lemma panel_rows h (key : Obj → option string) runs :
  Forall (λ r, is_Some (key r)) runs →
  ∃ counts,
    tally h key runs = Some counts
    ∧ NoDup counts.*1
    ∧ (∀ name c,
         (name, c) ∈ sort_desc (λ e, total e.2) (entries counts)
         ↔ (name ∉ inherited h)
           ∧ 0 < total c
           ∧ total c = length (filter (λ r, key r = Some name) runs)
           ∧ success c
             = length (filter (λ r, key r = Some name ∧ App.isSuccess r = true) runs))
    ∧ sum_list_with (λ e, total e.2) counts
      = length (filter (λ r, counted h key r = true) runs)
    ∧ sum_list_with (λ e, success e.2) counts
      = length (filter (λ r, counted h key r = true ∧ App.isSuccess r = true) runs).
Proof.
  intros Hall. eexists. split; [by apply tally_strings|].
  split; [apply tally_NoDup|].
  assert (Hcounted : Forall (λ r, (default "" (key r) ∉ inherited h)
                                  ↔ counted h key r = true) runs).
  { eapply Forall_impl; [exact Hall|]. intros r [name Hname]. unfold counted.
    rewrite Hname. simpl. by rewrite bool_decide_eq_true. }
  split; [|split].
  - intros name c. rewrite tally_rows.
    rewrite (filter_ext_Forall (λ r, default "" (key r) = name) (λ r, key r = Some name)).
    2:{ eapply Forall_impl; [exact Hall|]. intros r Hr. by apply default_key. }
    rewrite (filter_ext_Forall (λ r, default "" (key r) = name ∧ App.isSuccess r = true)
               (λ r, key r = Some name ∧ App.isSuccess r = true)).
    2:{ eapply Forall_impl; [exact Hall|]. intros r Hr. by rewrite default_key. }
    done.
  - rewrite (proj1 (tally_sums h _ runs)). f_equal. by apply filter_ext_Forall.
  - rewrite (proj2 (tally_sums h _ runs)). f_equal. apply filter_ext_Forall.
    eapply Forall_impl; [exact Hcounted|]. intros r Hr. simpl. by rewrite Hr.
Qed.

Lemma authors_snoc h runs r :
  authors_of h (runs ++ [r])
  = match credited h r with
    | Some key => credit key r (authors_of h runs)
    | None => authors_of h runs
    end.
Proof. by rewrite foldl_app. Qed.

Lemma authorStep_credited h authors r :
  (truthy (loginOf r) = true → is_Some (key_of (loginOf r))) →
  authorStep h authors r
  = Some (match credited h r with
          | Some key => credit key r authors
          | None => authors
          end).
Proof.
  intros Hlogin. unfold authorStep, credited.
  destruct (truthy (loginOf r)); simpl; [|done].
  destruct (Hlogin eq_refl) as [key ->]. simpl.
  by destruct (decide (key ∈ inherited h)).
Qed.

Lemma authors_strings h runs :
  Forall (λ r, truthy (loginOf r) = true → is_Some (key_of (loginOf r))) runs →
  foldl (λ acc run, authors ← acc; authorStep h authors run) (Some []) runs
  = Some (authors_of h runs).
Proof.
  intros Hall. apply foldl_Some.
  eapply Forall_impl; [exact Hall|]. intros r Hr authors. by apply authorStep_credited.
Qed.

Lemma authors_NoDup h runs : NoDup (authors_of h runs).*1.
Proof.
  induction runs as [|r runs IH] using rev_ind; [constructor|].
  rewrite authors_snoc.
  destruct (credited h r) as [key|]; [|done].
  unfold credit. destruct (own _ key); by apply NoDup_put.
Qed.

Lemma credit_unfold key run (authors : list (string * Author)) :
  credit key run authors
  = match own authors key with
    | Some a => put key {| count := S (count a); avatar := avatar a |} authors
    | None =>
        put key {| count := 1;
                   avatar := or (opt_member (getp run "actor") "avatar_url") (JStr "") |}
            authors
    end.
Proof. done. Qed.

Lemma authors_own h runs k :
  match own (authors_of h runs) k with
  | Some a => count a = length (filter (λ r, credited h r = Some k) runs) ∧ 0 < count a
  | None => length (filter (λ r, credited h r = Some k) runs) = 0
  end.
Proof.
  induction runs as [|r runs IH] using rev_ind; [done|].
  rewrite authors_snoc, filter_app, length_app.
  rewrite filter_cons, filter_nil.
  destruct (credited h r) as [key|] eqn:Hkey.
  - rewrite credit_unfold. destruct (decide (key = k)) as [->|Hne].
    + rewrite decide_True by done.
      destruct (own (authors_of h runs) k) as [a|] eqn:Hown;
        rewrite own_put_eq; simpl; lia.
    + rewrite decide_False by congruence.
      assert (∀ v, own (put key v (authors_of h runs)) k = own (authors_of h runs) k)
        as Hput by (intros v; by apply own_put_ne).
      destruct (own (authors_of h runs) key); rewrite Hput;
        destruct (own (authors_of h runs) k); simpl; lia.
  - rewrite decide_False by done.
    destruct (own (authors_of h runs) k); simpl; lia.
Qed.

(** The first [k] rows of a descending sort dominate the others. *)
Lemma top_rows {A} (w : A → nat) (k : nat) (l : list A) (y : A) :
  y ∈ l → y ∉ take k (sort_desc w l) →
  length (take k (sort_desc w l)) = k
  ∧ ∀ x, x ∈ take k (sort_desc w l) → w y ≤ w x.
Proof.
  intros Hy Hnot.
  rewrite <- (sort_desc_Permutation w l), <- (take_drop k (sort_desc w l)) in Hy.
  apply elem_of_app in Hy as [Hy|Hy]; [done|]. split.
  - rewrite length_take. apply Nat.min_l.
    destruct (decide (k ≤ length (sort_desc w l))) as [|Hlt]; [done|].
    rewrite drop_ge in Hy by lia. by apply elem_of_nil in Hy.
  - intros x Hx.
    pose proof (sort_desc_sorted w l) as Hs. rewrite <- (take_drop k (sort_desc w l)) in Hs.
    apply (sorted_split _ _ _ _ _ Hs Hx Hy).
Qed.

Lemma branches_snoc h (key : Obj → string) runs r :
  branches_of h key (runs ++ [r]) = branch_at h (key r) (branches_of h key runs).
Proof. by rewrite foldl_app. Qed.

Lemma branches_NoDup h (key : Obj → string) runs : NoDup (branches_of h key runs).*1.
Proof.
  induction runs as [|r runs IH] using rev_ind; [constructor|].
  rewrite branches_snoc. unfold branch_at at 1.
  destruct (own _ (key r)) as [[[|n]|]|];
    repeat (destruct (decide _)); try done; by apply NoDup_put.
Qed.

Lemma branches_own h (key : Obj → string) runs k :
  Forall (λ r, key r ∉ inherited h) runs →
  own (branches_of h key runs) k
  = match length (filter (λ r, key r = k) runs) with
    | O => None
    | S n => Some (Some (S n))
    end.
Proof.
  induction runs as [|r runs IH] using rev_ind; [done|].
  intros [Hruns [Hr _]%Forall_cons]%Forall_app. specialize (IH Hruns).
  rewrite branches_snoc, filter_app, length_app, filter_cons, filter_nil.
  unfold branch_at at 1.
  destruct (decide (key r = k)) as [<-|Hne].
  - rewrite IH. simpl. rewrite Nat.add_1_r.
    destruct (length (filter _ runs)) as [|n].
    + rewrite decide_False by done. by rewrite own_put_eq.
    + by rewrite own_put_eq.
  - simpl. rewrite Nat.add_0_r, <- IH.
    destruct (own _ (key r)) as [[[|n]|]|]; rewrite ?decide_False by done;
      by rewrite own_put_ne.
Qed.

Lemma branches_strings h runs :
  Forall (λ r, is_Some (branchName r)) runs →
  foldl (λ acc run, branches ← acc; branchStep h branches run) (Some []) runs
  = Some (branches_of h (λ r, default "" (branchName r)) runs).
Proof.
  intros Hall. apply foldl_Some.
  eapply Forall_impl; [exact Hall|]. intros r [name Hname] branches.
  unfold branchStep. by rewrite Hname.
Qed.

Lemma numbers_Some (es : list (string * option nat)) :
  Forall (λ e, is_Some e.2) es →
  ∃ l, numbers es = Some l ∧ es = (λ e, (e.1, Some e.2)) <$> l.
Proof.
  induction es as [|[k [n|]] es IH]; intros Hall.
  - by exists [].
  - apply Forall_cons in Hall as [_ Hall]. destruct (IH Hall) as (l & Hl & ->).
    exists ((k, n) :: l). simpl in *. by rewrite Hl.
  - apply Forall_cons in Hall as [[? [=]] _].
Qed.

End Breakdown.

(** X12.  When the name of every run ([run.name], "Unknown" when empty)
    is a string, the workflow panel has one row for each name that
    occurs among the runs and is not a property name of
    [Object.prototype]: the row shows the number of runs with that
    name, never 0; the rows stand in descending order of that number;
    and the numbers add up to the number of runs whose name is not such
    a property name.  A run named like a property of [Object.prototype]
    is counted in no row. *)
Theorem workflow_breakdown_counts (h : Insights.Host) (allRuns : list Obj) :
  Forall (λ r, is_Some (Insights.wfName r)) allRuns →
  ∃ rows,
    Insights.workflowRows h allRuns = Some rows
    ∧ NoDup rows.*1
    ∧ (∀ name c,
         (name, c) ∈ rows
         ↔ (name ∉ Insights.inherited h)
           ∧ (0 < Insights.total c)%nat
           ∧ Insights.total c
             = length (filter (λ r, Insights.wfName r = Some name) allRuns)
           ∧ Insights.success c
             = length (filter (λ r, Insights.wfName r = Some name
                                    ∧ App.isSuccess r = true) allRuns))
    ∧ StronglySorted (λ a b, (Insights.total b.2 ≤ Insights.total a.2)%nat) rows
    ∧ sum_list_with (λ e, Insights.total e.2) rows
      = length (filter (λ r, Insights.counted h Insights.wfName r = true) allRuns).
Proof.
  intros Hall.
  destruct (panel_rows h Insights.wfName allRuns Hall)
    as (counts & Hcounts & Hnd & Hrows & Htotal & _).
  eexists. split; [unfold Insights.workflowRows; by rewrite Hcounts|].
  split; [by rewrite sort_desc_Permutation, entries_Permutation|].
  split; [exact Hrows|].
  split; [apply (sort_desc_sorted (λ e : string * Insights.Tally, Insights.total e.2))|].
  by rewrite sort_desc_Permutation, entries_Permutation.
Qed.

Lemma workflow_breakdown_counts_witness :
  ∃ rows,
    Insights.workflowRows Fixtures.browser Fixtures.runs = Some rows
    ∧ sum_list_with (λ e, Insights.total e.2) rows = 3%nat.
Proof.
  destruct (workflow_breakdown_counts Fixtures.browser Fixtures.runs)
    as (rows & Hrows & _ & _ & _ & Hsum).
  - unfold Fixtures.runs. repeat constructor; by eexists.
  - exists rows. split; [exact Hrows|]. rewrite Hsum. vm_compute. reflexivity.
Defined.

(** X13.  When the language of every run ([_repo.language], "Unknown"
    when empty) is a string, every row of the language panel has
    [success <= total <= maxTotal] and [maxTotal >= 1], so the width
    [success / maxTotal * 100] of a bar is between 0 and 100; a row
    shows the numbers of successful and of all runs of the repositories
    with that language; and the successes of all rows add up to the
    number of successful runs whose language name is not a property name
    of [Object.prototype], which is at most the "successful" count of the
    summary. *)
Theorem language_breakdown_bars (h : Insights.Host) (allRuns : list Obj) :
  Forall (λ r, is_Some (Insights.langName r)) allRuns →
  ∃ counts rows,
    Insights.tally h Insights.langName allRuns = Some counts
    ∧ Insights.langRows h allRuns = Some rows
    ∧ (∀ lang c,
         (lang, c) ∈ rows →
         (Insights.success c ≤ Insights.total c ≤ Insights.maxTotal counts)%nat
         ∧ Insights.total c
           = length (filter (λ r, Insights.langName r = Some lang) allRuns)
         ∧ Insights.success c
           = length (filter (λ r, Insights.langName r = Some lang
                                  ∧ App.isSuccess r = true) allRuns))
    ∧ (1 ≤ Insights.maxTotal counts)%nat
    ∧ sum_list_with (λ e, Insights.success e.2) rows
      = length (filter (λ r, Insights.counted h Insights.langName r = true
                             ∧ App.isSuccess r = true) allRuns)
    ∧ (sum_list_with (λ e, Insights.success e.2) rows ≤ App.successful allRuns)%nat.
Proof.
  intros Hall.
  destruct (panel_rows h Insights.langName allRuns Hall)
    as (counts & Hcounts & Hnd & Hrows & _ & Hsuccess).
  exists counts, (Insights.sort_desc (λ e, Insights.total e.2) (Insights.entries counts)).
  split; [exact Hcounts|].
  split; [unfold Insights.langRows; by rewrite Hcounts|].
  assert (Hsum : sum_list_with (λ e, Insights.success e.2)
                   (Insights.sort_desc (λ e, Insights.total e.2) (Insights.entries counts))
                 = length (filter (λ r, Insights.counted h Insights.langName r = true
                                        ∧ App.isSuccess r = true) allRuns))
    by (by rewrite sort_desc_Permutation, entries_Permutation).
  split; [|split; [apply foldr_max_ge_1|split; [exact Hsum|]]].
  - intros lang c Hin.
    assert (Htop : (Insights.total c ≤ Insights.maxTotal counts)%nat).
    { unfold Insights.maxTotal. apply foldr_max_le.
      apply list_elem_of_fmap. exists (lang, c). split; [done|].
      revert Hin. by rewrite sort_desc_Permutation. }
    apply Hrows in Hin as (_ & _ & Ht & Hs).
    repeat split; try done. rewrite Ht, Hs.
    apply (filter_and_le (λ r, Insights.langName r = Some lang)
             (λ r, App.isSuccess r = true)).
  - rewrite Hsum. unfold App.successful.
    clear. induction allRuns as [|r l IH]; [done|].
    rewrite !filter_cons.
    destruct (decide (App.isSuccess r = true)), (decide (_ ∧ _)); simpl; try lia.
    naive_solver.
Qed.

Lemma language_breakdown_bars_witness :
  ∃ counts rows,
    Insights.tally Fixtures.browser Insights.langName Fixtures.runs = Some counts
    ∧ Insights.langRows Fixtures.browser Fixtures.runs = Some rows
    ∧ (1 ≤ Insights.maxTotal counts)%nat.
Proof.
  destruct (language_breakdown_bars Fixtures.browser Fixtures.runs)
    as (counts & rows & Hcounts & Hrows & _ & Htop & _).
  - unfold Fixtures.runs. repeat constructor; by eexists.
  - exists counts, rows. split; [exact Hcounts|]. split; [exact Hrows|exact Htop].
Defined.

(** X14.  When every login that is present ([actor.login] truthy) is a
    string, the contributor panel shows at most five logins, each once,
    with the number of runs counted for it, which is never 0; a login
    with runs that is not shown has no more runs than any login shown,
    and then five are shown.  The panel has no row (and reads "No
    contributor data") exactly when no run has a usable [actor.login]. *)
Theorem author_breakdown_top5 (h : Insights.Host) (allRuns : list Obj) :
  let runs_of login :=
    length (filter (λ r, Insights.credited h r = Some login) allRuns) in
  Forall (λ r, truthy (Insights.loginOf r) = true
               → is_Some (Insights.key_of (Insights.loginOf r))) allRuns →
  ∃ rows,
    Insights.authorRows h allRuns = Some rows
    ∧ (length rows ≤ 5)%nat
    ∧ NoDup rows.*1
    ∧ (∀ login a, (login, a) ∈ rows →
         Insights.count a = runs_of login ∧ (0 < runs_of login)%nat)
    ∧ (∀ login, (0 < runs_of login)%nat → login ∉ rows.*1 →
         length rows = 5%nat
         ∧ ∀ login' a', (login', a') ∈ rows → (runs_of login ≤ Insights.count a')%nat)
    ∧ (rows = [] ↔ ∀ run, run ∈ allRuns → Insights.credited h run = None).
Proof.
  intros runs_of Hall.
  pose proof (authors_strings h allRuns Hall) as Hfold.
  pose proof (authors_own h allRuns) as Hcount.
  pose proof (authors_NoDup h allRuns) as Hkeys.
  revert Hfold Hcount Hkeys.
  generalize (foldl (λ authors r, match Insights.credited h r with
                                  | Some key => Insights.credit key r authors
                                  | None => authors
                                  end) [] allRuns).
  intros o Hfold Hcount Hkeys.
  set (sorted := Insights.sort_desc (λ e : string * Insights.Author, Insights.count e.2)
                   (Insights.entries o)).
  assert (Hperm : sorted ≡ₚ o)
    by (unfold sorted; by rewrite sort_desc_Permutation, entries_Permutation).
  assert (Hnd : NoDup sorted.*1) by (by rewrite Hperm).
  assert (Hsorted : StronglySorted (λ a b, (Insights.count b.2 ≤ Insights.count a.2)%nat)
                      (take 5 sorted ++ drop 5 sorted)).
  { rewrite take_drop.
    apply (sort_desc_sorted (λ e : string * Insights.Author, Insights.count e.2)). }
  assert (Hown : ∀ login a, (login, a) ∈ sorted →
                   Insights.count a = runs_of login ∧ (0 < runs_of login)%nat).
  { intros login a Hin. rewrite Hperm in Hin.
    apply (elem_of_own _ _ _ Hkeys) in Hin.
    specialize (Hcount login). rewrite Hin in Hcount. unfold runs_of. lia. }
  exists (take 5 sorted).
  split; [unfold Insights.authorRows; by rewrite Hfold|].
  split; [rewrite length_take; lia|].
  split; [rewrite fmap_take; eapply sublist_NoDup; [exact Hnd|apply sublist_take]|].
  split; [intros login a Hin; apply Hown;
          rewrite <- (take_drop 5 sorted); apply elem_of_app; by left|].
  split.
  - intros login Hpos Hnot.
    pose proof (Hcount login) as H.
    destruct (Insights.own o login) as [a|] eqn:Ha; [|unfold runs_of in Hpos; lia].
    destruct H as [Hc _].
    apply (elem_of_own _ _ _ Hkeys) in Ha.
    rewrite <- Hperm, <- (take_drop 5 sorted) in Ha.
    apply elem_of_app in Ha as [Ha|Ha].
    { exfalso. apply Hnot. apply list_elem_of_fmap. by exists (login, a). }
    split.
    + rewrite length_take. apply Nat.min_l.
      destruct (decide (5 ≤ length sorted)%nat) as [|Hlt]; [done|].
      rewrite drop_ge in Ha by lia. by apply elem_of_nil in Ha.
    + intros login' a' Hin'.
      pose proof (sorted_split _ _ _ _ _ Hsorted Hin' Ha) as Hle.
      simpl in Hle. unfold runs_of. lia.
  - split.
    + intros Hnil run Hrun.
      destruct (Insights.credited h run) as [login|] eqn:Hc; [|done]. exfalso.
      assert (Hs : sorted = []).
      { destruct sorted; [done|]. simpl in Hnil. discriminate. }
      rewrite Hs in Hperm. symmetry in Hperm. apply Permutation_nil_r in Hperm.
      specialize (Hcount login). rewrite Hperm in Hcount. simpl in Hcount.
      assert (Hin : run ∈ filter (λ r, Insights.credited h r = Some login) allRuns)
        by (by apply list_elem_of_filter).
      destruct (filter _ allRuns); [by apply elem_of_nil in Hin|done].
    + intros Hnone.
      assert (Ho : o = []).
      { destruct o as [|[k a] o']; [done|]. exfalso.
        specialize (Hcount k). simpl in Hcount. rewrite String.eqb_refl in Hcount.
        destruct Hcount as [Hc Hp]. rewrite Hc in Hp.
        destruct (filter _ allRuns) as [|r l] eqn:Hf; [simpl in Hp; lia|].
        assert (Hin : r ∈ filter (λ r, Insights.credited h r = Some k) allRuns)
          by (rewrite Hf; by left).
        apply list_elem_of_filter in Hin as [Hc' Hin]. rewrite (Hnone r Hin) in Hc'.
        done. }
      rewrite Ho in Hperm. apply Permutation_nil_r in Hperm. by rewrite Hperm.
Qed.

Lemma author_breakdown_top5_witness :
  ∃ rows,
    Insights.authorRows Fixtures.browser Fixtures.runs = Some rows
    ∧ (length rows ≤ 5)%nat.
Proof.
  destruct (author_breakdown_top5 Fixtures.browser Fixtures.runs)
    as (rows & Hrows & Hlen & _).
  - unfold Fixtures.runs.
    repeat (apply Forall_cons; split;
            [first [intros H; vm_compute in H; discriminate H
                   | intros _; eexists; reflexivity]|]).
    apply Forall_nil_2.
  - exists rows. split; [exact Hrows|exact Hlen].
Defined.

Example authorRows_sample :
  Insights.authorRows Fixtures.browser Fixtures.runs
  = Some [("octocat", {| Insights.count := 2; Insights.avatar := JStr "a.png" |})].
Proof. vm_compute. reflexivity. Qed.

Example workflowRows_sample :
  Insights.workflowRows Fixtures.browser Fixtures.runs
  = Some [("CI", {| Insights.total := 2; Insights.success := 1 |});
          ("Release", {| Insights.total := 1; Insights.success := 0 |})].
Proof. vm_compute. reflexivity. Qed.

(** A name that is not a string is outside the model. *)
Example workflowRows_number_name :
  Insights.workflowRows Fixtures.browser [obj [("name", JNum 7)]] = None.
Proof. vm_compute. reflexivity. Qed.

Example entries_index_first :
  Insights.entries [("main", 1%nat); ("10", 2%nat); ("9", 3%nat); ("007", 4%nat)]
  = [("9", 3%nat); ("10", 2%nat); ("main", 1%nat); ("007", 4%nat)].
Proof. vm_compute. reflexivity. Qed.

(** X15.  When every branch name among the runs ([head_branch],
    "unknown" when empty) is a string that is not a property name of
    [Object.prototype], the branch panel shows at most six branches,
    each once, with its number of runs, which is never 0; a branch with
    runs that is not shown has no more runs than any branch shown, and
    then six are shown. *)
Theorem branch_breakdown_top6 (h : Insights.Host) (allRuns : list Obj) :
  let runs_on branch :=
    length (filter (λ r, Insights.branchName r = Some branch) allRuns) in
  Forall (λ r, ∃ branch, Insights.branchName r = Some branch
                         ∧ branch ∉ Insights.inherited h) allRuns →
  ∃ rows,
    Insights.branchRows h allRuns = Some rows
    ∧ (length rows ≤ 6)%nat
    ∧ NoDup rows.*1
    ∧ (∀ branch n, (branch, n) ∈ rows → n = runs_on branch ∧ (0 < n)%nat)
    ∧ (∀ branch, (0 < runs_on branch)%nat → branch ∉ rows.*1 →
         length rows = 6%nat
         ∧ ∀ branch' n', (branch', n') ∈ rows → (runs_on branch ≤ n')%nat).
Proof.
  intros runs_on Hall.
  assert (Hstr : Forall (λ r, is_Some (Insights.branchName r)) allRuns).
  { eapply Forall_impl; [exact Hall|]. intros r (b & -> & _). by eexists. }
  assert (Hinh : Forall (λ r, default "" (Insights.branchName r) ∉ Insights.inherited h)
                        allRuns).
  { eapply Forall_impl; [exact Hall|]. by intros r (b & -> & ?). }
  pose proof (branches_strings h allRuns Hstr) as Hfold.
  pose proof (branches_NoDup h (λ r, default "" (Insights.branchName r)) allRuns) as Hkeys.
  assert (Hlook : ∀ k, Insights.own
                         (foldl (λ branches r,
                                   Insights.branch_at h
                                     (default "" (Insights.branchName r)) branches)
                                [] allRuns) k
                       = match runs_on k with
                         | O => None
                         | S n => Some (Some (S n))
                         end).
  { intros k. rewrite (branches_own h _ allRuns k Hinh). unfold runs_on.
    rewrite (filter_ext_Forall (λ r, default "" (Insights.branchName r) = k)
               (λ r, Insights.branchName r = Some k)); [done|].
    eapply Forall_impl; [exact Hstr|]. intros r Hr. by apply default_key. }
  cbv beta in Hfold, Hkeys.
  revert Hfold Hkeys Hlook.
  generalize (foldl (λ branches r,
                       Insights.branch_at h (default "" (Insights.branchName r)) branches)
                    [] allRuns).
  intros o Hfold Hkeys Hlook.
  assert (Hown : ∀ k v, (k, v) ∈ o ↔
                   ∃ n, v = Some (S n) ∧ runs_on k = S n).
  { intros k v. rewrite (elem_of_own _ _ _ Hkeys), Hlook.
    destruct (runs_on k) as [|n]; [naive_solver|].
    split; [intros [= <-]; by exists n|]. by intros (n' & -> & [= ->]). }
  destruct (numbers_Some (Insights.entries o)) as (l & Hl & Hes).
  { rewrite entries_Permutation. apply Forall_forall. intros [k v] Hin.
    apply Hown in Hin as (n & -> & _). by eexists. }
  assert (Hperm : (λ e : string * nat, (e.1, Some e.2)) <$> l ≡ₚ o)
    by (rewrite <- Hes; apply entries_Permutation).
  assert (Hmem : ∀ k n, (k, n) ∈ l ↔ (k, Some n) ∈ o).
  { intros k n. rewrite <- Hperm, list_elem_of_fmap. split.
    - intros Hin. by exists (k, n).
    - intros ([k' n'] & [= -> ->] & Hin). done. }
  assert (Hkeys' : NoDup l.*1).
  { assert (l.*1 = ((λ e : string * nat, (e.1, Some e.2)) <$> l).*1) as ->
      by (rewrite <- list_fmap_compose; by apply list_fmap_ext).
    by rewrite Hperm. }
  set (sorted := Insights.sort_desc snd l).
  assert (Hsorted : sorted ≡ₚ l) by apply sort_desc_Permutation.
  exists (take 6 sorted). split.
  { unfold Insights.branchRows. rewrite Hfold. simpl. by rewrite Hl. }
  split; [rewrite length_take; lia|].
  split.
  { rewrite fmap_take. eapply sublist_NoDup; [|apply sublist_take]. by rewrite Hsorted. }
  split.
  - intros branch n Hin.
    assert (Hin' : (branch, n) ∈ l).
    { rewrite <- Hsorted, <- (take_drop 6 sorted). apply elem_of_app. by left. }
    apply Hmem, Hown in Hin' as (n' & [= ->] & Hn). lia.
  - intros branch Hpos Hnot.
    assert (Hin : (branch, runs_on branch) ∈ l).
    { apply Hmem, Hown. destruct (runs_on branch) as [|n]; [lia|]. by exists n. }
    destruct (top_rows snd 6 l (branch, runs_on branch) Hin) as [Hlen Htop].
    { intros Hin'. apply Hnot. apply list_elem_of_fmap.
      by exists (branch, runs_on branch). }
    split; [done|]. intros branch' n' Hin'. apply (Htop (branch', n') Hin').
Qed.

Lemma branch_breakdown_top6_witness :
  ∃ rows, Insights.branchRows Fixtures.browser Fixtures.pushes = Some rows
          ∧ (length rows ≤ 6)%nat.
Proof.
  destruct (branch_breakdown_top6 Fixtures.browser Fixtures.pushes) as (rows & H & Hlen & _).
  - unfold Fixtures.pushes.
    repeat constructor; eexists; (split; [reflexivity|]); vm_compute; set_solver.
  - exists rows. split; [exact H|exact Hlen].
Defined.

Example branchRows_sample :
  Insights.branchRows Fixtures.browser Fixtures.pushes
  = Some [("main", 2%nat); ("42", 1%nat); ("dev", 1%nat)].
Proof. vm_compute. reflexivity. Qed.

(** A branch called "constructor": one run leaves NaN as its count,
    three runs are shown as two. *)
Example branchRows_inherited_name :
  Insights.branchRows Fixtures.browser [obj [("head_branch", JStr "constructor")]] = None
  ∧ Insights.branchRows Fixtures.browser
      (replicate 3 (obj [("head_branch", JStr "constructor")]))
    = Some [("constructor", 2%nat)].
Proof. split; vm_compute; reflexivity. Qed.

(** ** The times shown for a run *)

Section RowTimes.

Lemma computeDuration_none (cal : Dates.Calendar) (start end_ : JsVal) :
  truthy start = true → truthy end_ = true →
  Dates.computeDuration cal start end_ = None
  ↔ ∃ ts te, Dates.timeValue cal start = Some ts
             ∧ Dates.timeValue cal end_ = Some te ∧ te < ts.
Proof.
  intros Hs He. unfold Dates.computeDuration. rewrite Hs, He. simpl.
  destruct (Dates.timeValue cal end_) as [te|] eqn:Hte,
           (Dates.timeValue cal start) as [ts|] eqn:Hts.
  - destruct (Z.ltb_spec (te - ts) 0).
    + split; [|done]. intros _. exists ts, te. repeat split. lia.
    + split.
      * cbv zeta. by repeat case_match.
      * intros (ts' & te' & ? & ? & ?). simplify_eq. lia.
  - split; [done|]. by intros (ts' & te' & ? & ? & ?).
  - split; [done|]. by intros (ts' & te' & ? & ? & ?).
  - split; [done|]. by intros (ts' & te' & ? & ? & ?).
Qed.

Lemma relativeTime_some (cal : Dates.Calendar) (d : JsVal) :
  truthy d = true → is_Some (Dates.relativeTime cal d).
Proof.
  intros Hd. unfold Dates.relativeTime. rewrite Hd. simpl.
  destruct (Dates.timeValue cal d); [|by eexists].
  repeat case_match; by eexists.
Qed.

End RowTimes.

(** X16.  For a run that went through [normalizeRun], the table row and
    the timeline item always show a relative time, never the
    placeholder; and they show the placeholder for the duration only
    when start and end are both valid dates with the end before the
    start.  With neither [run_started_at] nor [created_at] nor
    [updated_at] in the raw run, start and end are the two readings of
    the clock taken by [normalizeRun]. *)
Theorem normalised_row_times (cal : Dates.Calendar) (clk : App.Clock) (raw : Obj) :
  let run := App.normalizeRun clk raw in
  is_Some (Rows.timeAgo cal run)
  ∧ (Rows.duration cal run = None
     ↔ ∃ ts te, Dates.timeValue cal (Rows.start run) = Some ts
                ∧ Dates.timeValue cal (getp run "updated_at") = Some te ∧ te < ts)
  ∧ (truthy (getp raw "run_started_at") = false →
     truthy (getp raw "created_at") = false →
     truthy (getp raw "updated_at") = false →
     Rows.start run = App.iso (App.now_created clk)
     ∧ getp run "updated_at" = App.iso (App.now_updated clk)).
Proof.
  intros run.
  assert (Hc : truthy (getp run "created_at") = true).
  { unfold run, App.normalizeRun. read_fields. truthy_default || apply truthy_or_r, truthy_or_r, truthy_iso. }
  assert (Hu : truthy (getp run "updated_at") = true).
  { unfold run, App.normalizeRun. read_fields. apply truthy_or_r, truthy_or_r, truthy_iso. }
  assert (Hs : truthy (Rows.start run) = true) by (by apply truthy_or_r).
  split; [by apply relativeTime_some|]. split.
  - by apply computeDuration_none.
  - intros H1 H2 H3. unfold Rows.start, run, App.normalizeRun. read_fields.
    by rewrite !or_falsy by (by rewrite ?or_falsy).
Qed.

Lemma normalised_row_times_witness :
  Rows.start (App.normalizeRun Sample.clock ∅) = App.iso (App.now_created Sample.clock)
  ∧ getp (App.normalizeRun Sample.clock ∅) "updated_at"
    = App.iso (App.now_updated Sample.clock).
Proof.
  apply (proj2 (proj2 (normalised_row_times
                         {| Dates.timeValue := λ _, None; Dates.now := 0;
                            Dates.localeDate := λ _, "" |}
                         Sample.clock ∅))); reflexivity.
Defined.

(** ** The detail page *)

Section DetailPageFacts.

Import DetailPage.

Lemma filterM_spec {A} (f : A → Exc bool) (l l' : list A) :
  filterM f l = Ok l' → l' `sublist_of` l ∧ Forall (λ x, f x = Ok true) l'.
Proof.
  revert l'. induction l as [|x l IH]; intros l'; simpl.
  - intros [= <-]. split; constructor.
  - destruct (f x) as [b|e] eqn:Hx; [|done]. cbn [mbind Exc_bind].
    destruct (filterM f l) as [rest|e]; [|done]. cbn [mbind Exc_bind].
    destruct (IH rest eq_refl) as [Hsub Hall].
    intros [= <-]. destruct b.
    + split; [by constructor|]. by constructor.
    + split; [by constructor|done].
Qed.

Lemma findM_spec {A} (f : A → Exc bool) (l : list A) (x : A) :
  findM f l = Ok (Some x) → x ∈ l ∧ f x = Ok true.
Proof.
  induction l as [|y l IH]; simpl; [done|].
  destruct (f y) as [[|]|e] eqn:Hy; cbn [mbind Exc_bind]; [| |done].
  - intros [= <-]. split; [by left|done].
  - intros H. destruct (IH H). split; [by right|done].
Qed.

Lemma keepRun_true (r : JsVal) :
  keepRun r = Ok true →
  ∃ o n, props r = Ok o
         ∧ Detail.lower_name (getp o "name") = Ok n
         ∧ Str.includes n "release" = false
         ∧ Str.includes n "copilot" = false
         ∧ is_str (getp o "event") "dynamic" = false.
Proof.
  unfold keepRun. destruct (props r) as [o|e]; [|done]. cbn [mbind Exc_bind].
  unfold Detail.keepCiRun.
  destruct (Detail.lower_name (getp o "name")) as [n|e] eqn:Hn; [|done].
  cbn [mbind Exc_bind].
  destruct (Str.includes n "release") eqn:H1; [done|].
  destruct (Str.includes n "copilot") eqn:H2; [done|].
  destruct (is_str (getp o "event") "dynamic") eqn:H3; [done|].
  intros _. by exists o, n.
Qed.

Lemma props_Ok (v : JsVal) (o : Obj) : props v = Ok o → v ≠ JNull ∧ v ≠ JUndefined.
Proof. by destruct v. Qed.

End DetailPageFacts.

(** X17.  Whenever the detail page renders, it renders the repository
    of the manifest named by the address, with the statistics of the
    data file (the three empty categories when the file has none), and
    each of [lint], [test] and [security] is there; the latest run is
    the first of the recent runs, which are at most ten and none of
    which is a release run, a Copilot run or a run of a dynamic event;
    and every job shown belongs to the latest run. *)
Theorem loadDetail_rendered
    (w : DetailPage.World) (param : option string)
    (repo latestRun : JsVal) (jobs : list JsVal) (stats : JsVal) (recentRuns : list JsVal) :
  DetailPage.loadDetail w param = DetailPage.Rendered repo latestRun jobs stats recentRuns →
  ∃ repoName,
    param = Some repoName ∧ repoName ≠ ""
    ∧ opt_member repo "name" = JStr repoName
    ∧ stats = DetailPage.statsOf (DetailPage.staticDataOf w repoName)
    ∧ Forall (λ k, opt_member stats k ≠ JNull ∧ opt_member stats k ≠ JUndefined)
             ["lint"; "test"; "security"]
    ∧ truthy latestRun = true
    ∧ head recentRuns = Some latestRun
    ∧ (length recentRuns ≤ 10)%nat
    ∧ Forall (λ r, ∃ o n, props r = Ok o
                          ∧ Detail.lower_name (getp o "name") = Ok n
                          ∧ Str.includes n "release" = false
                          ∧ Str.includes n "copilot" = false
                          ∧ is_str (getp o "event") "dynamic" = false) recentRuns
    ∧ Forall (λ j, DetailPage.strict_eq (opt_member j "run_id") (opt_member latestRun "id")
                   = true) jobs.
Proof.
  unfold DetailPage.loadDetail.
  destruct param as [repoName|]; [|done].
  destruct (decide (repoName = "")) as [->|Hne]; [done|].
  assert (Hbody : (match repoName with
                   | "" => DetailPage.NoRepo
                   | String _ _ =>
                       match DetailPage.body w repoName with
                       | Ok outcome => outcome
                       | Throw _ => DetailPage.Failed
                       end
                   end)
                  = match DetailPage.body w repoName with
                    | Ok outcome => outcome
                    | Throw _ => DetailPage.Failed
                    end) by (by destruct repoName).
  rewrite Hbody. clear Hbody.
  destruct (DetailPage.body w repoName) as [outcome|e] eqn:Hb; [|done].
  intros ->. exists repoName. split; [done|]. split; [done|].
  revert Hb. unfold DetailPage.body.
  destruct (DetailPage.fetchJSON w DetailPage.manifestUrl) as [manifest|e]; [|done].
  cbn [mbind Exc_bind].
  destruct (member manifest "repos") as [repos|e]; [|done]. cbn [mbind Exc_bind].
  destruct (DetailPage.elements (or repos (JArr []))) as [list|e]; [|done].
  cbn [mbind Exc_bind].
  destruct (DetailPage.findM _ list) as [[repoConfig|]|e] eqn:Hfind; [|done|done].
  cbn [mbind Exc_bind]. apply findM_spec in Hfind as [_ Hname].
  destruct (negb _ || negb _ || _); [done|].
  destruct (DetailPage.elements (opt_member _ "runs")) as [rs|e]; [|done].
  cbn [mbind Exc_bind].
  destruct (DetailPage.filterM DetailPage.keepRun rs) as [ciRuns|e] eqn:Hci; [|done].
  cbn [mbind Exc_bind]. apply filterM_spec in Hci as [_ Hkept].
  destruct ciRuns as [|latest ciRuns]; [done|].
  destruct (truthy latest) eqn:Hlatest; [|done]. cbn [negb].
  destruct (DetailPage.elements (or _ (JArr []))) as [js|e]; [|done].
  cbn [mbind Exc_bind].
  destruct (DetailPage.filterM _ js) as [jobs'|e] eqn:Hjobs; [|done].
  cbn [mbind Exc_bind]. apply filterM_spec in Hjobs as [_ Hjobs].
  unfold DetailPage.renderDetail.
  destruct (props (opt_member _ "lint")) as [o1|e] eqn:H1; [|done]. cbn [mbind Exc_bind].
  destruct (props (opt_member _ "test")) as [o2|e] eqn:H2; [|done]. cbn [mbind Exc_bind].
  destruct (props (opt_member _ "security")) as [o3|e] eqn:H3; [|done]. cbn [mbind Exc_bind].
  destruct (DetailPage.paint w _ _ _ _ _) as [[]|e]; [|done]. cbn [mbind Exc_bind].
  intros [= <- <- <- <- <-].
  split.
  { destruct (member repoConfig "name") as [name|e] eqn:Hn; [|done].
    cbn [mbind Exc_bind] in Hname. injection Hname as Hname.
    apply is_str_eq in Hname as ->.
    revert Hn. unfold member, opt_member.
    destruct repoConfig; cbn; try done. by intros [= ->]. }
  split; [done|].
  split; [repeat constructor; by eapply props_Ok|].
  split; [done|]. split; [done|].
  split; [simpl; rewrite length_take; lia|].
  split.
  - change (Forall (λ r, ∃ o n, props r = Ok o
                                ∧ Detail.lower_name (getp o "name") = Ok n
                                ∧ Str.includes n "release" = false
                                ∧ Str.includes n "copilot" = false
                                ∧ is_str (getp o "event") "dynamic" = false)
                   (take 10 (latest :: ciRuns))).
    apply Forall_take. eapply Forall_impl; [exact Hkept|]. apply keepRun_true.
  - eapply Forall_impl; [exact Hjobs|]. intros j Hj. simpl in Hj.
    destruct (member j "run_id") as [rid|e] eqn:Hrid; [|done].
    cbn [mbind Exc_bind] in Hj. injection Hj as Hj.
    revert Hrid. unfold member, opt_member.
    destruct j; simpl; try done; intros [= <-]; done.
Qed.

Lemma loadDetail_rendered_witness :
  ∃ latestRun jobs,
    (∃ repo stats recentRuns,
       DetailPage.loadDetail Fixtures.page (Some "alpha")
       = DetailPage.Rendered repo latestRun jobs stats recentRuns)
    ∧ opt_member latestRun "id" = JNum 12
    ∧ length jobs = 1%nat
    ∧ Forall (λ j, DetailPage.strict_eq (opt_member j "run_id") (opt_member latestRun "id")
                   = true) jobs.
Proof.
  eexists _, _. split; [eexists _, _, _; vm_compute; reflexivity|].
  split; [reflexivity|]. split; [reflexivity|].
  destruct (loadDetail_rendered Fixtures.page (Some "alpha") _ _ _ _ _
              ltac:(vm_compute; reflexivity))
    as (repoName & _ & _ & _ & _ & _ & _ & _ & _ & _ & Hjobs).
  exact Hjobs.
Defined.

(** X18.  The combined data file has precedence: when it answers and
    lists the repository with a truthy entry, that entry is the data of
    the page and the file of the repository is not asked for, so what
    the page shows does not depend on it.  This holds also when the
    entry has no runs: the page then never renders (it shows "No data
    available", or an error when the manifest fails), whatever the file
    of the repository holds. *)
Theorem loadDetail_combined_first
    (w w' : DetailPage.World) (repoName : string) (combined : JsVal) (repos : Obj)
    (entry : JsVal) :
  DetailPage.fetchJSON w DetailPage.combinedUrl = Ok combined →
  opt_member combined "repos" = JObj repos →
  repos !! repoName = Some entry →
  truthy entry = true →
  DetailPage.fetchJSON w' DetailPage.manifestUrl
  = DetailPage.fetchJSON w DetailPage.manifestUrl →
  DetailPage.fetchJSON w' DetailPage.combinedUrl
  = DetailPage.fetchJSON w DetailPage.combinedUrl →
  DetailPage.methods w' = DetailPage.methods w →
  DetailPage.paint w' = DetailPage.paint w →
  DetailPage.staticDataOf w repoName = entry
  ∧ DetailPage.loadDetail w' (Some repoName) = DetailPage.loadDetail w (Some repoName)
  ∧ (truthy (opt_member entry "runs") = false
     ∨ DetailPage.lengthOf (opt_member entry "runs") = JNum 0 →
     DetailPage.loadDetail w (Some repoName) ∈
       [DetailPage.NoRepo; DetailPage.NoData; DetailPage.Failed]).
Proof.
  intros Hc Hrepos Hentry Htruthy Hm Hc' Hmethods Hpaint.
  assert (Hs : DetailPage.staticDataOf w repoName = entry).
  { unfold DetailPage.staticDataOf, DetailPage.fromCombined.
    rewrite Hc, Hrepos. cbn [DetailPage.computed]. rewrite Hentry. simpl.
    by rewrite Htruthy, Htruthy. }
  assert (Hs' : DetailPage.staticDataOf w' repoName = entry).
  { unfold DetailPage.staticDataOf, DetailPage.fromCombined.
    rewrite Hc', Hc, Hrepos. cbn [DetailPage.computed]. rewrite Hentry. simpl.
    by rewrite Htruthy, Htruthy. }
  split; [done|].
  assert (Hbody : DetailPage.body w' repoName = DetailPage.body w repoName).
  { unfold DetailPage.body, DetailPage.renderDetail. by rewrite Hm, Hs, Hs', Hpaint. }
  split.
  - unfold DetailPage.loadDetail. by rewrite Hbody.
  - intros Hruns. unfold DetailPage.loadDetail.
    destruct repoName as [|c repoName]; [set_solver|].
    destruct (DetailPage.body w (String c repoName)) as [outcome|e] eqn:Hb; [|set_solver].
    revert Hb. unfold DetailPage.body. rewrite Hs, Htruthy.
    assert (negb true || negb (truthy (opt_member entry "runs"))
            || DetailPage.strict_eq (DetailPage.lengthOf (opt_member entry "runs")) (JNum 0)
            = true) as ->.
    { destruct Hruns as [->| ->]; [done|]. apply orb_true_r. }
    destruct (DetailPage.fetchJSON w DetailPage.manifestUrl) as [manifest|e]; [|done].
    cbn [mbind Exc_bind].
    destruct (member manifest "repos") as [rs|e]; [|done]. cbn [mbind Exc_bind].
    destruct (DetailPage.elements (or rs (JArr []))) as [list|e]; [|done].
    cbn [mbind Exc_bind].
    destruct (DetailPage.findM _ list) as [[repoConfig|]|e]; [|by intros [= <-]; set_solver|done].
    cbn [mbind Exc_bind]. intros [= <-]. set_solver.
Qed.

Lemma loadDetail_combined_first_witness :
  DetailPage.loadDetail Fixtures.page_combined (Some "alpha")
  ∈ [DetailPage.NoRepo; DetailPage.NoData; DetailPage.Failed].
Proof.
  apply (loadDetail_combined_first Fixtures.page_combined Fixtures.page_combined "alpha"
              (JObj (obj [("repos", JObj (obj [("alpha", JObj (obj [("runs", JArr [])]))]))]))
              (obj [("alpha", JObj (obj [("runs", JArr [])]))])
              (JObj (obj [("runs", JArr [])]))
              eq_refl eq_refl eq_refl eq_refl eq_refl eq_refl eq_refl eq_refl).
  right. reflexivity.
Defined.

Example loadDetail_combined_without_runs :
  DetailPage.loadDetail Fixtures.page_combined (Some "alpha") = DetailPage.NoData
  ∧ ∃ repo latestRun jobs stats recentRuns,
      DetailPage.loadDetail Fixtures.page (Some "alpha")
      = DetailPage.Rendered repo latestRun jobs stats recentRuns.
Proof. split; [|eexists _, _, _, _, _]; vm_compute; reflexivity. Qed.

(** ** The generator and the detail page *)

Section GeneratorAndPage.

Lemma filterM_agree {A B} (g : A → B) (f : B → Exc bool) (f' : A → Exc bool)
    (l l' : list A) :
  Forall (λ x, f (g x) = f' x) l →
  DetailPage.filterM f' l = Ok l' →
  DetailPage.filterM f (g <$> l) = Ok (g <$> l').
Proof.
  revert l'. induction l as [|x l IH]; intros l' Hall.
  - by intros [= <-].
  - rewrite fmap_cons. cbn [DetailPage.filterM].
    apply Forall_cons in Hall as [Hx Hall]. rewrite Hx.
    destruct (f' x) as [b|e]; [|done]. cbn [mbind Exc_bind].
    destruct (DetailPage.filterM f' l) as [rest|e]; [|done]. cbn [mbind Exc_bind].
    rewrite (IH rest Hall eq_refl). cbn [mbind Exc_bind].
    intros [= <-]. by destruct b.
Qed.

Lemma project_fields (run p : Obj) :
  Pipeline.project run = Ok p →
  getp p "name"
  = Generator.alt (Generator.field run "name")
      (Generator.alt (Generator.field run "workflow_name") (JStr "unknown"))
  ∧ Generator.field p "name" = getp p "name"
  ∧ getp p "event" = Generator.field run "event"
  ∧ getp p "id" = Generator.field run "id".
Proof.
  unfold Pipeline.project.
  destruct (Generator.actor run) as [a|e]; [|done]. cbn [mbind Exc_bind].
  intros [= <-]. unfold getp, Generator.field, obj. cbn [list_to_map foldr uncurry].
  repeat split; by simplify_map_eq.
Qed.

(** A run of RUNS that came from a named run: the page and the
    generator take the same decision on it. *)
Lemma projected_run (run p : Obj) (s : string) :
  Generator.field run "name" = JStr s →
  Generator.selectRun run = Ok true →
  Pipeline.project run = Ok p →
  DetailPage.keepRun (JObj p) = Pipeline.notRelease p
  ∧ ∃ b, Pipeline.notRelease p = Ok b.
Proof.
  intros Hname Hsel Hp.
  unfold Generator.selectRun in Hsel. rewrite Hname in Hsel. simpl in Hsel.
  injection Hsel as Hsel. apply andb_true_iff in Hsel as [Hcop Hdyn].
  apply negb_true_iff in Hcop, Hdyn.
  destruct (project_fields run p Hp) as (Hn & Hf & He & _).
  rewrite Hname in Hn. cbn [Generator.alt] in Hn.
  unfold DetailPage.keepRun, Pipeline.notRelease, Detail.keepCiRun, Detail.lower_name.
  cbn [props mbind Exc_bind]. rewrite Hf, Hn, He.
  assert (Hor : or (JStr s) (JStr "") = JStr s) by by destruct s.
  rewrite Hor. cbn [mbind Exc_bind].
  rewrite (includes_lower_fold "release"), (includes_lower_fold "copilot") by done.
  rewrite Hcop, Hdyn. split; [|by eexists].
  by destruct (Str.includes (Str.foldCase s) "release").
Qed.

Lemma RUNS_projected (workflow_runs runs : list Obj) :
  Forall (λ r, ∃ s, Generator.field r "name" = JStr s) workflow_runs →
  Pipeline.RUNS workflow_runs = Ok runs →
  Forall (λ p, DetailPage.keepRun (JObj p) = Pipeline.notRelease p
               ∧ ∃ b, Pipeline.notRelease p = Ok b) runs.
Proof.
  revert runs. induction workflow_runs as [|r rs IH]; intros runs Hall; simpl.
  - intros [= <-]. constructor.
  - apply Forall_cons in Hall as [[s Hs] Hall].
    destruct (Generator.selectRun r) as [[|]|e] eqn:Hsel; cbn [mbind Exc_bind];
      [| by apply IH | done].
    destruct (Pipeline.project r) as [p|e] eqn:Hp; [|done]. cbn [mbind Exc_bind].
    destruct (Pipeline.RUNS rs) as [ps|e]; [|done]. cbn [mbind Exc_bind].
    intros [= <-]. constructor; [by eapply projected_run|by apply IH].
Qed.

Lemma filterM_total {A} (f : A → Exc bool) (l : list A) :
  Forall (λ x, ∃ b, f x = Ok b) l → ∃ l', DetailPage.filterM f l = Ok l'.
Proof.
  induction l as [|x l IH]; intros Hall; simpl; [by eexists|].
  apply Forall_cons in Hall as [[b ->] Hall]. destruct (IH Hall) as [l' ->].
  cbn [mbind Exc_bind]. by eexists.
Qed.

End GeneratorAndPage.

(** X19.  On the file the generator writes, the detail page and the
    generator single out the same run.  When every run the API lists has
    a name and the jq program succeeds, the runs the page keeps as CI
    runs are exactly the runs the generator selects as CI runs; so the
    run the page shows as latest is the one whose id is
    LATEST_CI_RUN_ID, the run whose annotations the generator stored as
    [ciStats], and this id is the first of CI_RUN_IDS, the runs whose
    jobs it stored. *)
Theorem generator_and_page_same_latest (workflow_runs runs : list Obj) :
  Forall (λ r, ∃ s, Generator.field r "name" = JStr s) workflow_runs →
  Pipeline.RUNS workflow_runs = Ok runs →
  ∃ ci,
    Pipeline.ciRuns runs = Ok ci
    ∧ DetailPage.filterM DetailPage.keepRun (JObj <$> runs) = Ok (JObj <$> ci)
    ∧ Pipeline.LATEST_CI_RUN_ID runs = Ok (Pipeline.firstId ci)
    ∧ ∀ id, Pipeline.firstId ci = Some id →
        ∃ latest rest ids,
          ci = latest :: rest
          ∧ opt_member (JObj latest) "id" = id
          ∧ Pipeline.CI_RUN_IDS runs = Ok (id :: ids).
Proof.
  intros Hnames Hruns.
  pose proof (RUNS_projected workflow_runs runs Hnames Hruns) as Hall.
  destruct (filterM_total Pipeline.notRelease runs) as [ci Hci].
  { eapply Forall_impl; [exact Hall|]. by intros p [_ ?]. }
  exists ci. split; [exact Hci|]. split.
  - apply (filterM_agree JObj DetailPage.keepRun Pipeline.notRelease); [|exact Hci].
    eapply Forall_impl; [exact Hall|]. by intros p [? _].
  - change (Pipeline.ciRuns runs = Ok ci) in Hci.
    unfold Pipeline.LATEST_CI_RUN_ID, Pipeline.CI_RUN_IDS. rewrite Hci.
    cbn [mbind Exc_bind]. split; [done|].
    intros id Hid. destruct ci as [|latest rest]; [done|].
    exists latest, rest, ((λ r, Generator.field r "id") <$> take 2 rest).
    split; [done|]. simpl in Hid. unfold opt_member, getp.
    unfold Generator.field in *. simpl.
    destruct (latest !! "id") as [[]|]; simpl in *; try done;
      try (destruct b; try done); by injection Hid as <-.
Qed.

Lemma generator_and_page_same_latest_witness :
  ∃ ci, DetailPage.filterM DetailPage.keepRun (JObj <$> Listing.generated) = Ok (JObj <$> ci)
        ∧ Pipeline.firstId ci = Some (JNum 12).
Proof.
  assert (Hgen : Pipeline.RUNS Listing.api_runs = Ok Listing.generated).
  { unfold Listing.generated.
    destruct (Pipeline.RUNS Listing.api_runs) as [runs|e] eqn:E; [reflexivity|].
    exfalso.
    apply (f_equal (λ x, match x with Ok _ => true | Throw _ => false end)) in E.
    vm_compute in E. discriminate E. }
  destruct (generator_and_page_same_latest Listing.api_runs Listing.generated)
    as (ci & _ & Hpage & Hlatest & _).
  - unfold Listing.api_runs. repeat constructor; by eexists.
  - exact Hgen.
  - exists ci. split; [exact Hpage|].
    assert (H12 : Pipeline.LATEST_CI_RUN_ID Listing.generated = Ok (Some (JNum 12)))
      by (vm_compute; reflexivity).
    rewrite H12 in Hlatest. congruence.
Defined.

(** Without a name the two can differ: the jq program tests [.name] but
    stores [.name // .workflow_name], so a run known by its
    [workflow_name] only, here a Copilot run, enters RUNS and is the
    generator's latest CI run, while the page skips it. *)
Example latest_differs_without_name :
  let raw := [obj [("id", JNum 2); ("workflow_name", JStr "Copilot review");
                   ("event", JStr "push")];
              obj [("id", JNum 1); ("name", JStr "CI"); ("event", JStr "push")]] in
  ∃ runs ci,
    Pipeline.RUNS raw = Ok runs
    ∧ Pipeline.LATEST_CI_RUN_ID runs = Ok (Some (JNum 2))
    ∧ DetailPage.filterM DetailPage.keepRun (JObj <$> runs) = Ok ci
    ∧ (λ r, opt_member r "id") <$> ci = [JNum 1].
Proof. eexists _, _. repeat split; vm_compute; reflexivity. Qed.

(** ** The first dashboard *)

(** X20.  [timeAgo] of the first dashboard prints the age of a valid
    date cut down to one unit: whole seconds below a minute, whole
    minutes from 1 to 59 below an hour, whole hours from 1 to 23 below a
    day, whole days from there on; the successive roundings lose
    nothing.  A date in the future is always printed in seconds, with a
    negative number.  (Ages within 2^53 ms, where the divisions of the
    page, done on doubles, are exact.) *)
Theorem timeAgo_units (cal : Dates.Calendar) (dateStr : JsVal) (t : Z) :
  Dates.timeValue cal dateStr = Some t →
  let age := Dates.now cal - t in
  - 2 ^ 53 < age < 2 ^ 53 →
  (age < 60000 →
   DashboardV1.timeAgo cal dateStr = Dates.show (Some (age / 1000)) +:+ "s ago"
   ∧ age / 1000 < 60 ∧ (age < 0 → age / 1000 < 0))
  ∧ (60000 <= age < 3600000 →
     DashboardV1.timeAgo cal dateStr = Dates.show (Some (age / 60000)) +:+ "m ago"
     ∧ 1 <= age / 60000 <= 59)
  ∧ (3600000 <= age < 86400000 →
     DashboardV1.timeAgo cal dateStr = Dates.show (Some (age / 3600000)) +:+ "h ago"
     ∧ 1 <= age / 3600000 <= 23)
  ∧ (86400000 <= age →
     DashboardV1.timeAgo cal dateStr = Dates.show (Some (age / 86400000)) +:+ "d ago"
     ∧ 1 <= age / 86400000).
Proof.
  intros Ht age _. unfold DashboardV1.timeAgo. rewrite Ht. fold age. cbv zeta.
  assert (H1 : age / 1000 / 60 = age / 60000)
    by (rewrite Z.div_div by lia; reflexivity).
  assert (H2 : age / 1000 / 60 / 60 = age / 3600000)
    by (rewrite !Z.div_div by lia; reflexivity).
  assert (H3 : age / 1000 / 60 / 60 / 24 = age / 86400000)
    by (rewrite !Z.div_div by lia; reflexivity).
  rewrite H3, H2, H1.
  pose proof (Z.div_mod age 1000 ltac:(done)) as Hs.
  pose proof (Z.mod_pos_bound age 1000 ltac:(done)) as Hs'.
  pose proof (Z.div_mod age 60000 ltac:(done)) as Hm.
  pose proof (Z.mod_pos_bound age 60000 ltac:(done)) as Hm'.
  pose proof (Z.div_mod age 3600000 ltac:(done)) as Hh.
  pose proof (Z.mod_pos_bound age 3600000 ltac:(done)) as Hh'.
  pose proof (Z.div_mod age 86400000 ltac:(done)) as Hd.
  pose proof (Z.mod_pos_bound age 86400000 ltac:(done)) as Hd'.
  repeat split; intros; try lia.
  - destruct (Z.ltb_spec (age / 1000) 60); [done|lia].
  - destruct (Z.ltb_spec (age / 1000) 60); [lia|].
    destruct (Z.ltb_spec (age / 60000) 60); [done|lia].
  - destruct (Z.ltb_spec (age / 1000) 60); [lia|].
    destruct (Z.ltb_spec (age / 60000) 60); [lia|].
    destruct (Z.ltb_spec (age / 3600000) 24); [done|lia].
  - destruct (Z.ltb_spec (age / 1000) 60); [lia|].
    destruct (Z.ltb_spec (age / 60000) 60); [lia|].
    destruct (Z.ltb_spec (age / 3600000) 24); [lia|done].
Qed.

Lemma timeAgo_units_witness :
  DashboardV1.timeAgo
    {| Dates.timeValue := λ v, match v with JNum n => Some n | _ => None end;
       Dates.now := 10000000; Dates.localeDate := λ _, "" |}
    (JNum 2500000)
  = "2h ago".
Proof.
  destruct (timeAgo_units
              {| Dates.timeValue := λ v, match v with JNum n => Some n | _ => None end;
                 Dates.now := 10000000; Dates.localeDate := λ _, "" |}
              (JNum 2500000) 2500000 eq_refl ltac:(simpl; lia))
    as (_ & _ & Hh & _).
  destruct (Hh ltac:(simpl; lia)) as [-> _]. vm_compute. reflexivity.
Defined.
